(** * PPA: a stage planner for dependency-ordered actions

    Shallow embedding of [PPA.py] and the properties of its planner.

    Python values are modelled as follows.
    - [int] is [Z]; list slicing [l[:n]] follows Python also for negative [n].
    - [str] is [string].
    - The dataclasses are records; dataclass equality is structural, which is
      Rocq's [=] on the records.  Field names are kept where they do not
      clash: [agent_id] is [Agent.id], [act_id] and [act_type] are
      [Action.id] and [Action.type], [req_min] and [req_max] are the two
      entries of [Action.required_agents], [asg_description] is
      [ActionAssignment.description].
    - [set] is [gset]; the dictionaries [recent_handler], [assigned_actions],
      [stage_assignments], [reverse_dependencies] and [dependency_count] are
      [gmap]s; [unassigned_actions], whose iteration order the planner relies
      on, is an insertion-ordered association list.
    - The module-level dictionary [recent_handler] is threaded through the
      planner as part of its state and returned to the caller.
    - [create_dag_visualization] builds a [str]; it is a function to
      [string], with the line feed of the literals written [nl].
    - Exceptions are the outcome [Raise].  Loops and recursion that Python
      leaves unbounded take a [fuel] argument; running out of fuel is the
      outcome [OutOfFuel], kept apart from the exceptions: a call diverges
      when no fuel is enough.  The interpreter's recursion limit is not
      modelled. *)

From stdpp Require Import gmap strings list fin_maps relations pretty.

Set Warnings "-clear-no-such-hyp".

Open Scope string_scope.
Open Scope list_scope.
Open Scope Z_scope.

(** ** Data model *)

Record Agent := {
  agent_id : string;
  constraints : list string
}.

(** [required_agents] is the dictionary [{"min": int, "max": int}]. *)
Record RequiredAgents := {
  req_min : Z;
  req_max : Z
}.

Record Action := {
  act_id : string;
  act_type : string;
  objects : list string;
  description : string;
  required_agents : RequiredAgents;
  depends_on : list string;
  transfers_objects_to : list string
}.

Record ActionAssignment := {
  action_id : string;
  assigned_agents : list Agent;
  stage : Z;
  asg_description : string
}.

Record PlanningResult := {
  stages : gmap Z (list ActionAssignment);
  action_dependencies : gmap string (list string)
}.

#[global] Instance Agent_eq_dec : EqDecision Agent.
Proof. solve_decision. Defined.

(** ** Outcomes of a call

    [MissingDependency] and [CyclicDependency] are the two [ValueError]s of
    [validate_dependencies]; [SchedulingStarvation] is the [Exception]
    "Unable to schedule tasks: ..." carrying [list(unassigned_actions.keys())].
    The remaining constructors are the built-in exceptions the code can run
    into. *)

Inductive Exn :=
  | MissingDependency (a dep : string)
  | CyclicDependency (a : string)
  | SchedulingStarvation (remaining : list string)
  | IndexError
  | KeyError
  | StopIteration.

Inductive Outcome (A : Type) :=
  | Done (x : A)
  | Raise (e : Exn)
  | OutOfFuel.

Arguments Done {A} x.
Arguments Raise {A} e.
Arguments OutOfFuel {A}.

#[global] Instance Outcome_ret : MRet Outcome := λ A x, Done x.

#[global] Instance Outcome_bind : MBind Outcome := λ A B k m,
  match m with
  | Done x => k x
  | Raise e => Raise e
  | OutOfFuel => OutOfFuel
  end.

(** ** Python helpers *)

(** [l[:n]]: a negative [n] counts from the end. *)
Definition py_prefix {A} (n : Z) (l : list A) : list A :=
  if decide (n < 0) then take (Z.to_nat (Z.of_nat (length l) + n)) l
  else take (Z.to_nat n) l.

(** [sorted(l, key=key, reverse=True)]: descending and stable, so elements
    with equal keys keep their order. *)
Fixpoint insert_desc {A} (key : A → nat) (x : A) (l : list A) : list A :=
  match l with
  | [] => [x]
  | y :: l' => if decide (key x < key y)%nat then y :: insert_desc key x l'
               else x :: l
  end.

Definition sorted_desc {A} (key : A → nat) (l : list A) : list A :=
  foldr (insert_desc key) [] l.

(** An insertion-ordered [dict] with string keys. *)
Definition dict_mem {V} (k : string) (d : list (string * V)) : Prop := k ∈ d.*1.

#[global] Instance dict_mem_dec {V} k (d : list (string * V)) : Decision (dict_mem k d).
Proof. unfold dict_mem. apply _. Defined.

Fixpoint dict_set {V} (k : string) (v : V) (d : list (string * V)) : list (string * V) :=
  match d with
  | [] => [(k, v)]
  | kv :: d' => if decide (kv.1 = k) then (k, v) :: d' else kv :: dict_set k v d'
  end.

Definition dict_del {V} (k : string) (d : list (string * V)) : list (string * V) :=
  filter (λ kv, kv.1 ≠ k) d.

(** ** Dependency validation *)

Definition action_ids (actions : list Action) : gset string :=
  list_to_set (act_id <$> actions).

(** The first pair of loops of [validate_dependencies]. *)
Fixpoint first_missing (ids : gset string) (actions : list Action) : option (string * string) :=
  match actions with
  | [] => None
  | a :: rest =>
      match List.find (λ dep, bool_decide (dep ∉ ids)) (depends_on a) with
      | Some dep => Some (act_id a, dep)
      | None => first_missing ids rest
      end
  end.

(** [next(x for x in actions if x.id == aid)] *)
Definition lookup_action (actions : list Action) (aid : string) : option Action :=
  List.find (λ x, bool_decide (act_id x = aid)) actions.

(** The [for dep in a.depends_on] loop of [has_cycle]; [rec] is the recursive
    call.  The sets [visited] and [path] are shared and mutated in Python, so
    they are threaded through. *)
Fixpoint cycle_in_deps
    (rec : string → gset string → gset string → Outcome (bool * gset string * gset string))
    (deps : list string) (visited path : gset string)
    : Outcome (bool * gset string * gset string) :=
  match deps with
  | [] => Done (false, visited, path)
  | dep :: deps' =>
      r ← rec dep visited path ;
      match r with
      | (true, v, p) => Done (true, v, p)
      | (false, v, p) => cycle_in_deps rec deps' v p
      end
  end.

Fixpoint has_cycle (fuel : nat) (actions : list Action) (aid : string)
    (visited path : gset string) : Outcome (bool * gset string * gset string) :=
  match fuel with
  | O => OutOfFuel
  | S fuel' =>
      if decide (aid ∈ path) then Done (true, visited, path)
      else if decide (aid ∈ visited) then Done (false, visited, path)
      else
        let visited := visited ∪ {[aid]} in
        let path := path ∪ {[aid]} in
        match lookup_action actions aid with
        | None => Raise StopIteration
        | Some a =>
            r ← cycle_in_deps (has_cycle fuel' actions) (depends_on a) visited path ;
            match r with
            | (true, v, p) => Done (true, v, p)
            | (false, v, p) => Done (false, v, p ∖ {[aid]})
            end
        end
  end.

(** The final loop of [validate_dependencies]. *)
Fixpoint cycle_scan (fuel : nat) (actions todo : list Action) (visited : gset string)
    : Outcome unit :=
  match todo with
  | [] => Done tt
  | a :: rest =>
      if decide (act_id a ∈ visited) then cycle_scan fuel actions rest visited
      else
        r ← has_cycle fuel actions (act_id a) visited ∅ ;
        match r with
        | (true, _, _) => Raise (CyclicDependency (act_id a))
        | (false, v, _) => cycle_scan fuel actions rest v
        end
  end.

(** The depth of [has_cycle] is bounded by the number of actions, so this
    fuel is always enough: see [validate_dependencies_total]. *)
Definition validate_dependencies (actions : list Action) : Outcome unit :=
  match first_missing (action_ids actions) actions with
  | Some (a, dep) => Raise (MissingDependency a dep)
  | None => cycle_scan (S (length actions)) actions actions ∅
  end.

(** ** Helper functions *)

Definition used_ids (stage : Z) (stage_assignments : gmap Z (list ActionAssignment))
    : gset string :=
  list_to_set
    (flat_map (λ asg, agent_id <$> assigned_agents asg)
              (default [] (stage_assignments !! stage))).

Definition get_free_agents (stage : Z) (stage_assignments : gmap Z (list ActionAssignment))
    (available_agents : list Agent) : list Agent :=
  filter (λ agent, agent_id agent ∉ used_ids stage stage_assignments) available_agents.

Definition can_do_action (agent : Agent) (action_type : string) : Prop :=
  "can't_" +:+ action_type ∉ constraints agent.

#[global] Instance can_do_action_dec agent ty : Decision (can_do_action agent ty).
Proof. unfold can_do_action. apply _. Defined.

(** [recent_handler[obj] = assigned[0]] for each object; [assigned[0]] raises
    [IndexError] on an empty list, but only when the loop body runs. *)
Definition track_objects (recent_handler : gmap string Agent) (objs : list string)
    (assigned : list Agent) : Outcome (gmap string Agent) :=
  match objs, assigned with
  | [], _ => Done recent_handler
  | _ :: _, [] => Raise IndexError
  | _ :: _, first :: _ => Done (foldl (λ rh obj, <[obj := first]> rh) recent_handler objs)
  end.

Definition update_object_tracking (recent_handler : gmap string Agent) (action : Action)
    (assigned : list Agent) : Outcome (gmap string Agent) :=
  if decide (act_type action = "fetch") then
    track_objects recent_handler (objects action) assigned
  else if decide (act_type action = "attach") then
    track_objects recent_handler (objects action) assigned
  else Done recent_handler.

(** ** Scheduling algorithm *)

(** The mutable state of one planning call: the module-level
    [recent_handler] and the three dictionaries local to
    [plan_parallel_actions]. *)
Record PlanState := {
  recent_handler : gmap string Agent;
  assigned_actions : gmap string Z;
  stage_assignments : gmap Z (list ActionAssignment);
  unassigned_actions : list (string * Action)
}.

(** The two loops that fill [reverse_dependencies] and [dependency_count]. *)
Definition build_reverse_dependencies (actions : list Action) : gmap string (list Action) :=
  foldl (λ rd a,
           foldl (λ rd dep, <[dep := default [] (rd !! dep) ++ [a]]> rd) rd (depends_on a))
        ∅ actions.

Definition build_dependency_count (reverse_dependencies : gmap string (list Action))
    (actions : list Action) : gmap string nat :=
  foldl (λ dc a, <[act_id a := length (default [] (reverse_dependencies !! act_id a))]> dc)
        ∅ actions.

(** [{a.id: a for a in actions}] *)
Definition build_unassigned (actions : list Action) : list (string * Action) :=
  foldl (λ d a, dict_set (act_id a) a d) [] actions.

(** [{a.id: a.depends_on for a in actions}] *)
Definition build_action_dependencies (actions : list Action) : gmap string (list string) :=
  foldl (λ m a, <[act_id a := depends_on a]> m) ∅ actions.

(** [all(dep in assigned_actions for dep in deps)] *)
Definition deps_assigned (assigned : gmap string Z) (deps : list string) : Prop :=
  Forall (λ dep, is_Some (assigned !! dep)) deps.

#[global] Instance deps_assigned_dec assigned deps : Decision (deps_assigned assigned deps).
Proof. unfold deps_assigned. apply _. Defined.

(** [assigned_actions[dep] for dep in deps] *)
Fixpoint dep_stages (assigned : gmap string Z) (deps : list string) : Outcome (list Z) :=
  match deps with
  | [] => Done []
  | dep :: deps' =>
      match assigned !! dep with
      | None => Raise KeyError
      | Some s => ss ← dep_stages assigned deps' ; Done (s :: ss)
      end
  end.

(** [(max(assigned_actions[dep] for dep in deps) + 1) if deps else 1] *)
Definition desired_stage (assigned : gmap string Z) (deps : list string) : Outcome Z :=
  ss ← dep_stages assigned deps ;
  match ss with
  | [] => Done 1
  | s :: ss' => Done (foldl Z.max s ss' + 1)
  end.

(** The [preferred] list: the recorded handlers of the task's objects, in
    object order, that are among [free_agents] and not yet listed. *)
Definition preferred_step (recent_handler : gmap string Agent) (free_agents : list Agent)
    (preferred : list Agent) (obj : string) : list Agent :=
  match recent_handler !! obj with
  | Some agent =>
      if decide (agent ∈ free_agents ∧ agent ∉ preferred) then preferred ++ [agent]
      else preferred
  | None => preferred
  end.

Definition preferred_agents (recent_handler : gmap string Agent) (free_agents : list Agent)
    (objs : list string) : list Agent :=
  foldl (preferred_step recent_handler free_agents) [] objs.

(** The choice of agents among the qualified free agents of one stage:
    [Some assigned], or [None] where the loop moves to the next stage. *)
Definition choose_agents (recent_handler : gmap string Agent) (free_agents : list Agent)
    (task : Action) : option (list Agent) :=
  let required_count := req_min (required_agents task) in
  let preferred := preferred_agents recent_handler free_agents (objects task) in
  if decide (Z.of_nat (length preferred) >= required_count) then
    Some (py_prefix required_count preferred)
  else
    let assigned := preferred in
    let others := filter (λ agent, agent ∉ assigned) free_agents in
    if decide (Z.of_nat (length assigned) + Z.of_nat (length others) >= required_count) then
      Some (assigned ++ py_prefix (required_count - Z.of_nat (length assigned)) others)
    else None.

Section Scheduler.
Variable available_agents : list Agent.
Variable reverse_dependencies : gmap string (list Action).
Variable dependency_count : gmap string nat.

(** The sort key [dependency_count[a.id]]; the actions sorted are input
    actions, whose keys are all present. *)
Definition priority (a : Action) : nat := default 0%nat (dependency_count !! act_id a).

(** One iteration of the [while True] loop of [schedule_task], up to the
    choice of agents. *)
Definition try_stage (st : PlanState) (task : Action) (stage : Z) : option (list Agent) :=
  let free_agents := get_free_agents stage (stage_assignments st) available_agents in
  let free_agents := filter (λ agent, can_do_action agent (act_type task)) free_agents in
  choose_agents (recent_handler st) free_agents task.

(** The stage search: [stage += 1; continue] until agents are found. *)
Fixpoint find_stage (fuel : nat) (st : PlanState) (task : Action) (stage : Z)
    : Outcome (Z * list Agent) :=
  match fuel with
  | O => OutOfFuel
  | S fuel' =>
      match try_stage st task stage with
      | Some assigned => Done (stage, assigned)
      | None => find_stage fuel' st task (stage + 1)
      end
  end.

(** The tail of the loop body: the assignment is recorded, then the
    handlers are updated. *)
Definition record_assignment (st : PlanState) (task : Action) (stage : Z)
    (assigned : list Agent) : PlanState :=
  let assignment := {| action_id := act_id task; assigned_agents := assigned;
                       stage := stage; asg_description := description task |} in
  {| recent_handler := recent_handler st;
     assigned_actions := <[act_id task := stage]> (assigned_actions st);
     stage_assignments :=
       <[stage := default [] (stage_assignments st !! stage) ++ [assignment]]>
         (stage_assignments st);
     unassigned_actions := dict_del (act_id task) (unassigned_actions st) |}.

Definition set_recent_handler (st : PlanState) (rh : gmap string Agent) : PlanState :=
  {| recent_handler := rh;
     assigned_actions := assigned_actions st;
     stage_assignments := stage_assignments st;
     unassigned_actions := unassigned_actions st |}.

Definition assign (st : PlanState) (task : Action) (stage : Z) (assigned : list Agent)
    : Outcome PlanState :=
  let st := record_assignment st task stage assigned in
  rh ← update_object_tracking (recent_handler st) task assigned ;
  Done (set_recent_handler st rh).

(** The [for child in children_sorted] loop; [rec] is the recursive call. *)
Fixpoint schedule_children (rec : PlanState → Action → Z → Outcome PlanState)
    (children : list Action) (stage : Z) (st : PlanState) : Outcome PlanState :=
  match children with
  | [] => Done st
  | child :: rest =>
      if decide (dict_mem (act_id child) (unassigned_actions st)
                 ∧ deps_assigned (assigned_actions st) (depends_on child))
      then st' ← rec st child (stage + 1) ; schedule_children rec rest stage st'
      else schedule_children rec rest stage st
  end.

Fixpoint schedule_task (fuel : nat) (st : PlanState) (task : Action) (desired_stage : Z)
    : Outcome PlanState :=
  match fuel with
  | O => OutOfFuel
  | S fuel' =>
      '(stage, assigned) ← find_stage fuel' st task desired_stage ;
      st ← assign st task stage assigned ;
      let children := default [] (reverse_dependencies !! act_id task) in
      let children_sorted := sorted_desc priority children in
      schedule_children (schedule_task fuel') children_sorted stage st
  end.

(** The loop over [root_tasks_sorted]. *)
Fixpoint schedule_roots (fuel : nat) (tasks : list Action) (st : PlanState)
    : Outcome PlanState :=
  match tasks with
  | [] => Done st
  | task :: rest =>
      if decide (dict_mem (act_id task) (unassigned_actions st))
      then st' ← schedule_task fuel st task 1 ; schedule_roots fuel rest st'
      else schedule_roots fuel rest st
  end.

(** The loop over [available_sorted]. *)
Fixpoint schedule_available (fuel : nat) (tasks : list Action) (st : PlanState)
    : Outcome PlanState :=
  match tasks with
  | [] => Done st
  | task :: rest =>
      if decide (dict_mem (act_id task) (unassigned_actions st))
      then desired ← desired_stage (assigned_actions st) (depends_on task) ;
           st' ← schedule_task fuel st task desired ;
           schedule_available fuel rest st'
      else schedule_available fuel rest st
  end.

(** [available] of one scan of the fallback loop. *)
Definition available_actions (st : PlanState) : list Action :=
  filter (λ a, deps_assigned (assigned_actions st) (depends_on a))
         (unassigned_actions st).*2.

(** The [while unassigned_actions] loop. *)
Fixpoint schedule_remaining (fuel : nat) (st : PlanState) : Outcome PlanState :=
  match fuel with
  | O => OutOfFuel
  | S fuel' =>
      match unassigned_actions st with
      | [] => Done st
      | _ :: _ =>
          match available_actions st with
          | [] => Raise (SchedulingStarvation (unassigned_actions st).*1)
          | available =>
              st' ← schedule_available fuel' (sorted_desc priority available) st ;
              schedule_remaining fuel' st'
          end
      end
  end.
End Scheduler.

Definition root_tasks (actions : list Action) : list Action :=
  filter (λ a, depends_on a = [] ∧ act_type a = "fetch") actions.

Definition initial_state (rh : gmap string Agent) (actions : list Action)
    : PlanState :=
  {| recent_handler := rh;
     assigned_actions := ∅;
     stage_assignments := ∅;
     unassigned_actions := build_unassigned actions |}.

(** The state in which the fallback loop is entered: validation has passed
    and the fetch roots have been scheduled. *)
Definition plan_roots (fuel : nat) (rh : gmap string Agent)
    (actions : list Action) (available_agents : list Agent) : Outcome PlanState :=
  _ ← validate_dependencies actions ;
  let reverse_dependencies := build_reverse_dependencies actions in
  let dependency_count := build_dependency_count reverse_dependencies actions in
  schedule_roots available_agents reverse_dependencies dependency_count fuel
    (sorted_desc (priority dependency_count) (root_tasks actions))
    (initial_state rh actions).

(** [plan_parallel_actions], from the [recent_handler] it finds, [rh], to
    the result and the [recent_handler] it leaves behind. *)
Definition plan_parallel_actions (fuel : nat) (rh : gmap string Agent)
    (actions : list Action) (available_agents : list Agent)
    : Outcome (PlanningResult * gmap string Agent) :=
  st ← plan_roots fuel rh actions available_agents ;
  let reverse_dependencies := build_reverse_dependencies actions in
  let dependency_count := build_dependency_count reverse_dependencies actions in
  st ← schedule_remaining available_agents reverse_dependencies dependency_count fuel st ;
  Done ({| stages := stage_assignments st;
           action_dependencies := build_action_dependencies actions |},
        recent_handler st).

(** ** The text of a plan *)


(** [max(result.stages.keys()) if result.stages else 0] *)
Definition max_stage (r : PlanningResult) : Z :=
  match (map_to_list (stages r)).*1 with
  | [] => 0
  | k :: ks => foldl Z.max k ks
  end.




(** ** Properties of results *)

(** Action [i] has an assignment in stage [s] of the result. *)
Definition in_stage (r : PlanningResult) (s : Z) (i : string) : Prop :=
  ∃ asg, asg ∈ default [] (stages r !! s) ∧ action_id asg = i.

(** Every action sits in a later stage than each of its dependencies. *)
Definition stages_respect_dependencies (actions : list Action) (r : PlanningResult) : Prop :=
  ∀ a dep s s',
    a ∈ actions → dep ∈ depends_on a →
    in_stage r s (act_id a) → in_stage r s' dep → s' < s.

Definition agent_ids (asg : ActionAssignment) : list string :=
  agent_id <$> assigned_agents asg.

(** Two different entries of one stage list have no agent identifier in
    common. *)
Definition stage_disjoint (l : list ActionAssignment) : Prop :=
  ∀ i j asg1 asg2 x,
    i ≠ j → l !! i = Some asg1 → l !! j = Some asg2 →
    x ∈ agent_ids asg1 → x ∉ agent_ids asg2.

Definition stages_disjoint (sa : gmap Z (list ActionAssignment)) : Prop :=
  ∀ s l, sa !! s = Some l → stage_disjoint l.

(** ** Properties of the stage search *)

(** The roster agents that may perform actions of type [ty]. *)
Definition qualified (available_agents : list Agent) (ty : string) : list Agent :=
  filter (λ agent, can_do_action agent ty) available_agents.

(** Stage [s] holds no assignment yet. *)
Definition empty_stage (st : PlanState) (s : Z) : Prop :=
  default [] (stage_assignments st !! s) = [].

(** ** Properties of validation *)

(** [needs actions a d]: an action named [a] lists [d] as a dependency.
    This is the dependency relation on action identifiers. *)
Definition needs (actions : list Action) (a d : string) : Prop :=
  ∃ x, x ∈ actions ∧ act_id x = a ∧ d ∈ depends_on x.

(** The dependency relation as [has_cycle] follows it: through the first
    action with the given identifier. *)
Definition edge (actions : list Action) (a d : string) : Prop :=
  ∃ x, lookup_action actions a = Some x ∧ d ∈ depends_on x.

Definition has_missing_dependency (actions : list Action) : Prop :=
  ∃ x dep, x ∈ actions ∧ dep ∈ depends_on x ∧ dep ∉ action_ids actions.

Definition cyclic (actions : list Action) : Prop :=
  ∃ a, tc (needs actions) a a.

(** Action identifiers are unique (data model). *)
Definition unique_ids (actions : list Action) : Prop :=
  NoDup (act_id <$> actions).

(** The invariant of the depth-first search: the finished identifiers,
    those visited and no longer on the path, are closed under [edge] and lie
    on no cycle. *)
Definition dfs_inv (actions : list Action) (visited path : gset string) : Prop :=
  path ⊆ visited
  ∧ (∀ b d, b ∈ visited → b ∉ path → edge actions b d → d ∈ visited ∧ d ∉ path)
  ∧ (∀ b, b ∈ visited → b ∉ path → ¬ tc (edge actions) b b).

(** What a call [rec aid visited path] of the search owes its caller when
    fewer than [n] identifiers are unvisited: it finishes, with [true] only
    if there is a cycle, and with [false] only after [aid] has been finished
    and the path restored. *)
Definition has_cycle_ok (actions : list Action)
    (rec : string → gset string → gset string → Outcome (bool * gset string * gset string))
    (n : nat) : Prop :=
  ∀ aid V P,
    dfs_inv actions V P →
    (∀ p, p ∈ P → tc (edge actions) p aid) →
    aid ∈ action_ids actions →
    (size (action_ids actions ∖ V) < n)%nat →
    ∃ (b : bool) V' P',
      rec aid V P = Done (b, V', P')
      ∧ if b then (∃ x, tc (edge actions) x x)
        else P' = P ∧ V ⊆ V' ∧ aid ∈ V' ∧ (aid ∉ P) ∧ dfs_inv actions V' P.

(** ** The invariant of a planning call *)

(** Assignment [asg] is what [schedule_task] records for action [a]. *)
Definition made_for (a : Action) (asg : ActionAssignment) : Prop :=
  action_id asg = act_id a
  ∧ asg_description asg = description a
  ∧ req_min (required_agents a) ≤ Z.of_nat (length (assigned_agents asg))
  ∧ (0 ≤ req_min (required_agents a) →
     Z.of_nat (length (assigned_agents asg)) = req_min (required_agents a))
  ∧ ∀ agent, agent ∈ assigned_agents asg → can_do_action agent (act_type a).

(** The action types whose assignments [update_object_tracking] records. *)
Definition tracked (a : Action) : Prop :=
  act_type a = "fetch" ∨ act_type a = "attach".

#[global] Instance tracked_dec a : Decision (tracked a).
Proof. unfold tracked. apply _. Defined.

(** Agent [ag] was made the handler of object [o] by an assignment of the
    call: it is the first agent of an assignment of a fetch or attach action
    that touches [o]. *)
Definition written_by (actions : list Action) (sa : gmap Z (list ActionAssignment))
    (o : string) (ag : Agent) : Prop :=
  ∃ s l asg a,
    sa !! s = Some l ∧ asg ∈ l ∧ a ∈ actions ∧ made_for a asg
    ∧ tracked a ∧ o ∈ objects a ∧ head (assigned_agents asg) = Some ag.

(** The invariant of a planning call that started with the handlers [rh0]. *)
Record plan_inv (actions : list Action) (rh0 : gmap string Agent) (st : PlanState)
    : Prop := {
  inv_unassigned : ∀ k a,
    (k, a) ∈ unassigned_actions st → a ∈ actions ∧ act_id a = k;
  inv_partition : ∀ a,
    a ∈ actions →
    dict_mem (act_id a) (unassigned_actions st)
    ∨ is_Some (assigned_actions st !! act_id a);
  inv_fresh : ∀ k,
    dict_mem k (unassigned_actions st) → assigned_actions st !! k = None;
  inv_assignment : ∀ s l asg,
    stage_assignments st !! s = Some l → asg ∈ l →
    stage asg = s
    ∧ assigned_actions st !! action_id asg = Some s
    ∧ ∃ a, a ∈ actions ∧ made_for a asg
           ∧ (tracked a → ∀ o, o ∈ objects a →
              ∃ ag, recent_handler st !! o = Some ag
                    ∧ written_by actions (stage_assignments st) o ag);
  inv_nodup : ∀ s l,
    stage_assignments st !! s = Some l → NoDup (action_id <$> l);
  inv_disjoint : stages_disjoint (stage_assignments st);
  inv_assigned : ∀ i s,
    assigned_actions st !! i = Some s →
    ∃ l asg, stage_assignments st !! s = Some l ∧ asg ∈ l ∧ action_id asg = i;
  inv_handlers_kept : ∀ o,
    is_Some (rh0 !! o) → is_Some (recent_handler st !! o);
  inv_handlers_frame : ∀ o,
    (∀ a, a ∈ actions → o ∉ objects a) → recent_handler st !! o = rh0 !! o;
  inv_handlers_origin : ∀ o ag,
    recent_handler st !! o = Some ag →
    rh0 !! o = Some ag ∨ written_by actions (stage_assignments st) o ag
}.

(** A recursive call [rec] that keeps the invariant. *)
Definition keeps_inv (actions : list Action) (rh0 : gmap string Agent)
    (rec : PlanState → Action → Z → Outcome PlanState) : Prop :=
  ∀ st task d st',
    plan_inv actions rh0 st → task ∈ actions →
    dict_mem (act_id task) (unassigned_actions st) →
    rec st task d = Done st' → plan_inv actions rh0 st'.

(** ** Completeness and starvation *)

(** [asg] is entry [i] of the list of stage [s]. *)
Definition assignment_at (r : PlanningResult) (s : Z) (i : nat) (asg : ActionAssignment)
    : Prop :=
  ∃ l, stages r !! s = Some l ∧ l !! i = Some asg.

(** Action [aid] has one assignment, at one place of the result. *)
Definition assigned_once (r : PlanningResult) (aid : string) : Prop :=
  ∃ s i asg,
    assignment_at r s i asg ∧ action_id asg = aid ∧ stage asg = s
    ∧ ∀ s' i' asg',
        assignment_at r s' i' asg' → action_id asg' = aid → s' = s ∧ i' = i.

(** A call that ends, by returning or by raising. *)
Definition returns_or_raises (rh : gmap string Agent) (actions : list Action)
    (agents : list Agent) : Prop :=
  ∃ fuel, plan_parallel_actions fuel rh actions agents ≠ OutOfFuel.

(** A scan of the fallback loop that finds actions left but none of them
    ready. *)
Definition starved (st : PlanState) : Prop :=
  unassigned_actions st ≠ [] ∧ available_actions st = [].

(** A scan of the fallback loop that finds ready actions and schedules them,
    leaving [st'] to the next scan. *)
Definition scan_step (agents : list Agent) (rd : gmap string (list Action))
    (dc : gmap string nat) (st st' : PlanState) : Prop :=
  unassigned_actions st ≠ []
  ∧ available_actions st ≠ []
  ∧ ∃ fuel,
      schedule_available agents rd dc fuel
        (sorted_desc (priority dc) (available_actions st)) st = Done st'.

(** The scans of the fallback loop of a call: [st] is the state at the
    beginning of one of them. *)
Definition fallback_scan (rh : gmap string Agent) (actions : list Action)
    (agents : list Agent) (st : PlanState) : Prop :=
  ∃ st0,
    (∃ fuel, plan_roots fuel rh actions agents = Done st0)
    ∧ rtc (scan_step agents (build_reverse_dependencies actions)
             (build_dependency_count (build_reverse_dependencies actions) actions))
          st0 st.

(** [ends run Q]: with enough fuel the run stops, by raising or by returning
    a value that satisfies [Q]. *)
Definition ends {A} (run : nat → Outcome A) (Q : A → Prop) : Prop :=
  ∃ fuel,
    match run fuel with
    | Done x => Q x
    | Raise _ => True
    | OutOfFuel => False
    end.

(** The roster repeats no agent and can staff every action: the minimum of
    each is at most the number of agents qualified for its type. *)
Definition capacity (agents : list Agent) (actions : list Action) : Prop :=
  NoDup agents
  ∧ ∀ a, a ∈ actions →
         req_min (required_agents a) ≤ Z.of_nat (length (qualified agents (act_type a))).

(** Calls of [schedule_task] in states with at most [n] unassigned actions
    end, and leave fewer of them. *)
Definition task_ends (actions : list Action) (agents : list Agent)
    (rd : gmap string (list Action)) (dc : gmap string nat) (rh0 : gmap string Agent)
    (n : nat) : Prop :=
  ∀ st task d,
    (length (unassigned_actions st) ≤ n)%nat →
    plan_inv actions rh0 st → task ∈ actions →
    dict_mem (act_id task) (unassigned_actions st) →
    ends (λ f, schedule_task agents rd dc f st task d)
         (λ st', (length (unassigned_actions st') < length (unassigned_actions st))%nat
                 ∧ plan_inv actions rh0 st').

(** ** Changing the [max] fields *)

(** The same action with another [max]. *)
Definition with_max (f : Action → Z) (a : Action) : Action :=
  {| act_id := act_id a; act_type := act_type a; objects := objects a;
     description := description a;
     required_agents := {| req_min := req_min (required_agents a); req_max := f a |};
     depends_on := depends_on a;
     transfers_objects_to := transfers_objects_to a |}.

Definition map_unassigned (g : Action → Action) (st : PlanState) : PlanState :=
  {| recent_handler := recent_handler st;
     assigned_actions := assigned_actions st;
     stage_assignments := stage_assignments st;
     unassigned_actions := prod_map id g <$> unassigned_actions st |}.

#[global] Instance Outcome_fmap : FMap Outcome := λ A B f m,
  match m with
  | Done x => Done (f x)
  | Raise e => Raise e
  | OutOfFuel => OutOfFuel
  end.

(** ** The chair assembly of the [__main__] block *)

Module Chair.
Definition A : Agent := {| agent_id := "A"; constraints := [] |}.
Definition B : Agent := {| agent_id := "B"; constraints := [] |}.
Definition C : Agent := {| agent_id := "C"; constraints := [] |}.

Definition agents : list Agent := [A; B; C].

Definition one : RequiredAgents := {| req_min := 1; req_max := 1 |}.

Definition mk (i ty : string) (objs : list string) (descr : string) (deps : list string)
    : Action :=
  {| act_id := i; act_type := ty; objects := objs; description := descr;
     required_agents := one; depends_on := deps; transfers_objects_to := [] |}.

Definition a1 := mk "1" "fetch" ["chair_back"] "Fetch chair back" [].
Definition a2 := mk "2" "fetch" ["chair_seat"] "Fetch chair seat" [].
Definition a3 := mk "3" "fetch" ["leg1"] "Fetch leg 1" [].
Definition a4 := mk "4" "fetch" ["leg2"] "Fetch leg 2" [].
Definition a5 := mk "5" "fetch" ["leg3"] "Fetch leg 3" [].
Definition a6 := mk "6" "fetch" ["leg4"] "Fetch leg 4" [].
Definition a7 := mk "7" "attach" ["chair_back"; "chair_seat"]
                    "Attach chair back and chair seat together" ["1"; "2"].
Definition a8 := mk "8" "attach" ["leg1"; "chair_seat"] "Attach leg 1 to chair seat" ["3"; "7"].
Definition a9 := mk "9" "attach" ["leg2"; "chair_seat"] "Attach leg 2 to chair seat" ["4"; "7"].
Definition a10 := mk "10" "attach" ["leg3"; "chair_seat"] "Attach leg 3 to chair seat" ["5"; "7"].
Definition a11 := mk "11" "attach" ["leg4"; "chair_seat"] "Attach leg 4 to chair seat" ["6"; "7"].

Definition actions : list Action := [a1; a2; a3; a4; a5; a6; a7; a8; a9; a10; a11].

(** The assignment of action [a] to the agents [ags] in stage [s]. *)
Definition asg (a : Action) (ags : list Agent) (s : Z) : ActionAssignment :=
  {| action_id := act_id a; assigned_agents := ags; stage := s;
     asg_description := description a |}.

(** What the planner returns for the chair in a fresh process, and the
    handlers it leaves behind. *)
Definition plan : gmap Z (list ActionAssignment) :=
  <[1 := [asg a1 [A] 1; asg a2 [B] 1; asg a3 [C] 1]]>
  (<[2 := [asg a7 [A] 2; asg a8 [C] 2; asg a4 [B] 2]]>
  (<[3 := [asg a9 [B] 3; asg a5 [A] 3; asg a6 [C] 3]]>
  (<[4 := [asg a10 [A] 4; asg a11 [C] 4]]> ∅))).

Definition result : PlanningResult :=
  {| stages := plan; action_dependencies := build_action_dependencies actions |}.

Definition handlers : gmap string Agent :=
  <["chair_back" := A]> (<["chair_seat" := C]> (<["leg1" := C]>
  (<["leg2" := B]> (<["leg3" := A]> (<["leg4" := C]> ∅))))).

(** What the planner returns for the chair when it finds [handlers]. *)
Definition plan_again : gmap Z (list ActionAssignment) :=
  <[1 := [asg a1 [A] 1; asg a2 [C] 1; asg a3 [B] 1]]>
  (<[2 := [asg a7 [A] 2; asg a8 [B] 2; asg a4 [C] 2]]>
  (<[3 := [asg a9 [C] 3; asg a5 [A] 3; asg a6 [B] 3]]>
  (<[4 := [asg a10 [A] 4; asg a11 [B] 4]]> ∅))).

Definition result_again : PlanningResult :=
  {| stages := plan_again; action_dependencies := build_action_dependencies actions |}.

Definition handlers_again : gmap string Agent :=
  <["chair_back" := A]> (<["chair_seat" := B]> (<["leg1" := B]>
  (<["leg2" := C]> (<["leg3" := A]> (<["leg4" := B]> ∅))))).

(** The plan the specification expects: the six fetches in stage 1, no
    agent twice in a stage, the back/seat attach not before stage 2. *)
Definition expected (r : PlanningResult) : Prop :=
  (∀ i, i ∈ ["1"; "2"; "3"; "4"; "5"; "6"] → in_stage r 1 i)
  ∧ stages_disjoint (stages r)
  ∧ ∀ s, in_stage r s "7" → 2 ≤ s.

(** The states the run goes through while it schedules the two fetches
    that precede the first attach. *)
Definition st1 : PlanState :=
  set_recent_handler (record_assignment (initial_state ∅ actions) a1 1 [A])
                     (<["chair_back" := A]> ∅).
Definition st2 : PlanState :=
  set_recent_handler (record_assignment st1 a2 1 [B])
                     (<["chair_seat" := B]> (<["chair_back" := A]> ∅)).
End Chair.

(** ** Two small inputs *)

(** One fetch that needs two agents, and a roster of one. *)
Module Understaffed.
Definition heavy : Action :=
  {| act_id := "1"; act_type := "fetch"; objects := ["crate"];
     description := "Fetch crate";
     required_agents := {| req_min := 2; req_max := 2 |};
     depends_on := []; transfers_objects_to := [] |}.
Definition actions : list Action := [heavy].
Definition agents : list Agent := [Chair.A].
End Understaffed.

(** One action whose [min] is negative. *)
Module NegativeMin.
Definition odd : Action :=
  {| act_id := "1"; act_type := "pick"; objects := ["crate"];
     description := "Pick crate";
     required_agents := {| req_min := -1; req_max := 1 |};
     depends_on := []; transfers_objects_to := [] |}.
Definition actions : list Action := [odd].
Definition agents : list Agent := [Chair.A].
Definition result : PlanningResult :=
  {| stages := <[1 := [Chair.asg odd [] 1]]> ∅;
     action_dependencies := build_action_dependencies actions |}.
End NegativeMin.

(** The spec's example of a cycle: each of two actions depends on the
    other. *)
Module Cycle.
Definition a : Action := Chair.mk "A" "fetch" [] "first" ["B"].
Definition b : Action := Chair.mk "B" "fetch" [] "second" ["A"].
Definition actions : list Action := [a; b].
End Cycle.

(** Four actions under two identifiers (outside the data model, which makes
    identifiers unique): validation looks up the first action of each name,
    the planner keeps the last. *)
Module Duplicated.
Definition pick (i : string) (deps : list string) : Action :=
  Chair.mk i "pick" [] "pick" deps.
Definition actions : list Action :=
  [pick "a" []; pick "b" []; pick "a" ["b"]; pick "b" ["a"]].
End Duplicated.

(** Two actions under one identifier: the planner keeps the last. *)
Module Twice.
Definition first : Action := Chair.mk "a" "pick" [] "first" [].
Definition second : Action := Chair.mk "a" "pick" [] "second" [].
Definition actions : list Action := [first; second].
Definition agents : list Agent := [Chair.A].
Definition result : PlanningResult :=
  {| stages := <[1 := [Chair.asg second [Chair.A] 1]]> ∅;
     action_dependencies := build_action_dependencies actions |}.
End Twice.

(** A roster that lists agent A twice, an action that needs two agents, and
    A as the recorded handler of its object. *)
Module Doubled.
Definition agents : list Agent := [Chair.A; Chair.A].
Definition lift : Action :=
  {| act_id := "1"; act_type := "pick"; objects := ["crate"];
     description := "Pick crate";
     required_agents := {| req_min := 2; req_max := 2 |};
     depends_on := []; transfers_objects_to := [] |}.
Definition actions : list Action := [lift].
Definition handlers : gmap string Agent := <["crate" := Chair.A]> ∅.
End Doubled.

(** ** Fuel *)

(** [r ⊑ r'] : more fuel turns the outcome [r] into [r']. *)
Definition refines {A} (r r' : Outcome A) : Prop := r = OutOfFuel ∨ r = r'.

Infix "⊑" := refines (at level 70).

(** ** Properties of a run of the planner *)

(** [st'] is a later state of the call than [st]: the stages assigned stay
    as they are, and the list of every stage only grows at its end. *)
Definition extends (st st' : PlanState) : Prop :=
  assigned_actions st ⊆ assigned_actions st'
  ∧ ∀ s, default [] (stage_assignments st !! s)
         `prefix_of` default [] (stage_assignments st' !! s).

(** What a part of the run owes: when it returns, a state that satisfies [J]
    and extends the one it started from; when it raises, an exception that
    satisfies [E]. *)
Definition run_ok (J : PlanState → Prop) (E : Exn → Prop) (st : PlanState)
    (r : Outcome PlanState) : Prop :=
  match r with
  | Done st' => J st' ∧ extends st st'
  | Raise e => E e
  | OutOfFuel => True
  end.

(** A call of [schedule_task], [rec], started for an unassigned input action
    with a desired stage that satisfies [D], keeps the invariants. *)
Definition call_ok (actions : list Action) (rh0 : gmap string Agent)
    (J : PlanState → Prop) (D : PlanState → Action → Z → Prop) (E : Exn → Prop)
    (rec : PlanState → Action → Z → Outcome PlanState) : Prop :=
  ∀ st task d,
    plan_inv actions rh0 st → J st → task ∈ actions →
    dict_mem (act_id task) (unassigned_actions st) → D st task d →
    run_ok (λ st', plan_inv actions rh0 st' ∧ J st') E st (rec st task d).

(** One assignment keeps [J], found at the first stage from the desired one
    on where the task finds agents, and gives the children of the task a
    desired stage that satisfies [D]. *)
Definition step_ok (actions : list Action) (agents : list Agent)
    (rd : gmap string (list Action)) (rh0 : gmap string Agent)
    (J : PlanState → Prop) (D : PlanState → Action → Z → Prop) (E : Exn → Prop) : Prop :=
  ∀ st task d s assigned,
    plan_inv actions rh0 st → J st → task ∈ actions →
    dict_mem (act_id task) (unassigned_actions st) → D st task d →
    d ≤ s → (∀ s', d ≤ s' < s → try_stage agents st task s' = None) →
    try_stage agents st task s = Some assigned →
    match assign st task s assigned with
    | Done st' => J st' ∧ ∀ c, c ∈ default [] (rd !! act_id task) → D st' c (s + 1)
    | Raise e => E e
    | OutOfFuel => True
    end.

(** The desired stage the fallback loop computes satisfies [D]. *)
Definition desired_ok (actions : list Action) (rh0 : gmap string Agent)
    (J : PlanState → Prop) (D : PlanState → Action → Z → Prop) : Prop :=
  ∀ st t d,
    plan_inv actions rh0 st → J st → t ∈ actions →
    deps_assigned (assigned_actions st) (depends_on t) →
    desired_stage (assigned_actions st) (depends_on t) = Done d → D st t d.


(** The stage numbers in use are 1, 2, ... up to the last without a gap, and
    every stage in use holds an assignment. *)
Definition contiguous (sa : gmap Z (list ActionAssignment)) : Prop :=
  (∀ s l, sa !! s = Some l → l ≠ [])
  ∧ ∀ s, is_Some (sa !! s) → 1 ≤ s ∧ ∀ s', 1 ≤ s' ≤ s → is_Some (sa !! s').

(** A desired stage that leaves no gap: stage 1, or the stage after one in
    use. *)
Definition starts_after (st : PlanState) (d : Z) : Prop :=
  1 ≤ d ∧ (d = 1 ∨ ¬ empty_stage st (d - 1)).

(** Stage [s] is later than the stage of at least one dependency of [a], if
    [a] has any. *)
Definition after_some_dependency (assigned : gmap string Z) (a : Action) (s : Z) : Prop :=
  depends_on a = [] ∨ ∃ dep s', dep ∈ depends_on a ∧ assigned !! dep = Some s' ∧ s' < s.

(** Every assigned action is after one of its dependencies. *)
Definition ordered (actions : list Action) (assigned : gmap string Z) : Prop :=
  ∀ a s, a ∈ actions → assigned !! act_id a = Some s → after_some_dependency assigned a s.

(** Every assignment takes its agents from the roster, each once if the
    roster repeats no agent. *)
Definition from_roster (agents : list Agent) (sa : gmap Z (list ActionAssignment)) : Prop :=
  ∀ s l asg,
    sa !! s = Some l → asg ∈ l →
    assigned_agents asg ⊆ agents ∧ (NoDup agents → NoDup (assigned_agents asg)).

(** The actions that list [i] as a dependency, in input order, once for
    each time they list it. *)
Definition dependents (actions : list Action) (i : string) : list Action :=
  a ← actions; dep ← depends_on a; if decide (dep = i) then [a] else [].

(** A cycle of the dependency relation, as [has_cycle] follows it, can be
    reached from the identifier [a]. *)
Definition reaches_cycle (actions : list Action) (a : string) : Prop :=
  ∃ c, rtc (edge actions) a c ∧ tc (edge actions) c c.


(** [l] is in descending order of [key]. *)
Definition descending {A} (key : A → nat) (l : list A) : Prop :=
  ∀ i j a b, (i < j)%nat → l !! i = Some a → l !! j = Some b → (key b ≤ key a)%nat.

(** ** Further inputs *)

(** A fetch that asks for no agent. *)
Module ZeroMin.
Definition idle : Action :=
  {| act_id := "1"; act_type := "fetch"; objects := ["crate"];
     description := "Fetch crate";
     required_agents := {| req_min := 0; req_max := 1 |};
     depends_on := []; transfers_objects_to := [] |}.
Definition actions : list Action := [idle].
Definition agents : list Agent := [Chair.A].
End ZeroMin.

(** A cycle between "B" and "C", reached from "A". *)
Module Tail.
Definition a : Action := Chair.mk "A" "fetch" [] "first" ["B"].
Definition b : Action := Chair.mk "B" "fetch" [] "second" ["C"].
Definition c : Action := Chair.mk "C" "fetch" [] "third" ["B"].
Definition actions : list Action := [a; b; c].
End Tail.

(** A cycle between "A" and "B", and the unknown identifier "Z". *)
Module Unknown.
Definition a : Action := Chair.mk "A" "fetch" [] "first" ["B"].
Definition b : Action := Chair.mk "B" "fetch" [] "second" ["A"; "Z"].
Definition actions : list Action := [a; b].
End Unknown.

(** Two agents; "Q" needs both, so it waits for stage 3, and "X", which
    depends on "Q" and "P", is started by "P" from stage 1. *)
Module Inversion.
Definition mk (i ty : string) (n : Z) (deps : list string) : Action :=
  {| act_id := i; act_type := ty; objects := []; description := i;
     required_agents := {| req_min := n; req_max := n |};
     depends_on := deps; transfers_objects_to := [] |}.
Definition f := mk "F" "fetch" 1 [].
Definition d := mk "D" "place" 1 ["F"].
Definition q := mk "Q" "fetch" 2 [].
Definition p := mk "P" "fetch" 1 [].
Definition x := mk "X" "attach" 1 ["Q"; "P"].
Definition actions : list Action := [f; d; q; p; x].
Definition agents : list Agent := [Chair.A; Chair.B].
Definition result : PlanningResult :=
  {| stages :=
       <[1 := [Chair.asg f [Chair.A] 1; Chair.asg p [Chair.B] 1]]>
       (<[2 := [Chair.asg d [Chair.A] 2; Chair.asg x [Chair.B] 2]]>
       (<[3 := [Chair.asg q [Chair.A; Chair.B] 3]]> ∅));
     action_dependencies := build_action_dependencies actions |}.
End Inversion.

(** A chain of three actions, listed last to first, and one agent. *)
Module Line.
Definition f := Inversion.mk "F" "fetch" 1 [].
Definition g := Inversion.mk "G" "attach" 1 ["F"].
Definition h := Inversion.mk "H" "attach" 1 ["G"].
Definition actions : list Action := [h; g; f].
Definition agents : list Agent := [Chair.A].
Definition result : PlanningResult :=
  {| stages :=
       <[1 := [Chair.asg f [Chair.A] 1]]>
       (<[2 := [Chair.asg g [Chair.A] 2]]>
       (<[3 := [Chair.asg h [Chair.A] 3]]> ∅));
     action_dependencies := build_action_dependencies actions |}.
End Line.

(** The chair plan with assignments added under the stage numbers 0 and
    -2. *)
Module LowStage.
Definition result : PlanningResult :=
  {| stages := <[0 := [Chair.asg Chair.a1 [Chair.B] 0]]>
               (<[-2 := [Chair.asg Chair.a2 [Chair.C] (-2)]]> Chair.plan);
     action_dependencies := action_dependencies Chair.result |}.
End LowStage.

(** A handler left by an earlier call with another roster. *)
Module Stale.
Definition former : Agent := {| agent_id := "Z"; constraints := [] |}.
Definition handlers : gmap string Agent := <["chair_back" := former]> ∅.
End Stale.

(** * Proofs *)

(** ** More fuel never changes an outcome *)

Lemma refines_refl {A} (r : Outcome A) : r ⊑ r.
Proof. by right. Qed.

Lemma refines_done {A} (r : Outcome A) x : Done x ⊑ r → r = Done x.
Proof. by intros [H|H]. Qed.

Lemma refines_final {A} (r r' : Outcome A) : r ⊑ r' → r ≠ OutOfFuel → r' = r.
Proof. by intros [H|H]. Qed.

Lemma refines_bind {A B} (m m' : Outcome A) (k k' : A → Outcome B) :
  m ⊑ m' → (∀ x, k x ⊑ k' x) → (m ≫= k) ⊑ (m' ≫= k').
Proof.
  intros [-> | ->] Hk; [by left|].
  destruct m'; simpl; [apply Hk | by right | by left].
Qed.

#[local] Hint Resolve refines_refl : core.

Section SchedulerFuel.
Context (agents : list Agent) (rd : gmap string (list Action)) (dc : gmap string nat).

Lemma find_stage_mono f f' st task s :
  (f ≤ f')%nat → find_stage agents f st task s ⊑ find_stage agents f' st task s.
Proof.
  revert f' s. induction f as [|f IH]; intros f' s Hle; [by left|].
  destruct f' as [|f']; [lia|]. simpl.
  destruct (try_stage _ _ _ _); [done|]. apply IH. lia.
Qed.

Lemma schedule_children_mono rec rec' cs stage st :
  (∀ st task d, rec st task d ⊑ rec' st task d) →
  schedule_children rec cs stage st ⊑ schedule_children rec' cs stage st.
Proof.
  intros Hrec. revert st. induction cs as [|c cs IH]; intros st; simpl; [done|].
  case_decide; [|done]. apply refines_bind; auto.
Qed.

Lemma schedule_task_mono f f' st task d :
  (f ≤ f')%nat →
  schedule_task agents rd dc f st task d ⊑ schedule_task agents rd dc f' st task d.
Proof.
  revert f' st task d. induction f as [|f IH]; intros f' st task d Hle; [by left|].
  destruct f' as [|f']; [lia|]. simpl.
  apply refines_bind; [apply find_stage_mono; lia|].
  intros [stage assigned]. apply refines_bind; [done|].
  intros st'. apply schedule_children_mono. intros. apply IH. lia.
Qed.

Lemma schedule_roots_mono f f' tasks st :
  (f ≤ f')%nat →
  schedule_roots agents rd dc f tasks st ⊑ schedule_roots agents rd dc f' tasks st.
Proof.
  intros Hle. revert st. induction tasks as [|t ts IH]; intros st; simpl; [done|].
  case_decide; [|done]. apply refines_bind; [by apply schedule_task_mono|done].
Qed.

Lemma schedule_available_mono f f' tasks st :
  (f ≤ f')%nat →
  schedule_available agents rd dc f tasks st ⊑ schedule_available agents rd dc f' tasks st.
Proof.
  intros Hle. revert st. induction tasks as [|t ts IH]; intros st; simpl; [done|].
  case_decide; [|done]. apply refines_bind; [done|].
  intros d. apply refines_bind; [by apply schedule_task_mono|done].
Qed.

Lemma schedule_remaining_mono f f' st :
  (f ≤ f')%nat →
  schedule_remaining agents rd dc f st ⊑ schedule_remaining agents rd dc f' st.
Proof.
  revert f' st. induction f as [|f IH]; intros f' st Hle; [by left|].
  destruct f' as [|f']; [lia|]. simpl.
  destruct (unassigned_actions st); [done|].
  destruct (available_actions st); [done|].
  apply refines_bind; [apply schedule_available_mono; lia|].
  intros st'. apply IH. lia.
Qed.
End SchedulerFuel.

Lemma plan_roots_mono f f' rh actions agents :
  (f ≤ f')%nat → plan_roots f rh actions agents ⊑ plan_roots f' rh actions agents.
Proof.
  intros Hle. unfold plan_roots. apply refines_bind; [done|].
  intros _. by apply schedule_roots_mono.
Qed.

Lemma plan_parallel_actions_mono f f' rh actions agents :
  (f ≤ f')%nat →
  plan_parallel_actions f rh actions agents ⊑ plan_parallel_actions f' rh actions agents.
Proof.
  intros Hle. unfold plan_parallel_actions.
  apply refines_bind; [by apply plan_roots_mono|].
  intros st. apply refines_bind; [by apply schedule_remaining_mono|done].
Qed.

(** Two runs that both finish agree. *)
Lemma plan_parallel_actions_det f f' rh actions agents r r' :
  plan_parallel_actions f rh actions agents = r → r ≠ OutOfFuel →
  plan_parallel_actions f' rh actions agents = r' → r' ≠ OutOfFuel →
  r = r'.
Proof.
  intros Hr Hfin Hr' Hfin'.
  destruct (Nat.le_ge_cases f f') as [Hle|Hle].
  - destruct (plan_parallel_actions_mono _ _ rh actions agents Hle) as [H|H]; congruence.
  - destruct (plan_parallel_actions_mono _ _ rh actions agents Hle) as [H|H]; congruence.
Qed.

(** ** The choice of agents within one stage *)

Lemma py_prefix_subseteq {A} n (l : list A) : py_prefix n l ⊆ l.
Proof.
  unfold py_prefix. case_decide; apply subseteq_take.
Qed.

Lemma py_prefix_length_ge {A} n (l : list A) :
  0 ≤ n → n ≤ Z.of_nat (length l) → Z.of_nat (length (py_prefix n l)) = n.
Proof.
  intros Hn Hl. unfold py_prefix. case_decide; [lia|]. rewrite length_take. lia.
Qed.

Lemma py_prefix_length_neg {A} n (l : list A) :
  n < 0 → length (py_prefix n l) = Z.to_nat (Z.of_nat (length l) + n).
Proof.
  intros Hn. unfold py_prefix. case_decide; [|lia]. rewrite length_take. lia.
Qed.

Section Preferred.
Context (rh : gmap string Agent) (free : list Agent).

Lemma preferred_step_subseteq acc obj :
  acc ⊆ free → preferred_step rh free acc obj ⊆ free.
Proof.
  intros Hacc. unfold preferred_step.
  destruct (rh !! obj) as [ag|]; [|done].
  case_decide as Hd; [|done].
  intros x [Hx|Hx%list_elem_of_singleton]%elem_of_app; [by apply Hacc|].
  subst. tauto.
Qed.

Lemma preferred_step_NoDup acc obj :
  NoDup acc → NoDup (preferred_step rh free acc obj).
Proof.
  intros Hacc. unfold preferred_step.
  destruct (rh !! obj) as [ag|]; [|done].
  case_decide as Hd; [|done].
  apply NoDup_app. split_and!; [done| |apply NoDup_singleton].
  intros x Hx ->%list_elem_of_singleton. tauto.
Qed.

Lemma preferred_fold_spec objs acc :
  acc ⊆ free → NoDup acc →
  foldl (preferred_step rh free) acc objs ⊆ free
  ∧ NoDup (foldl (preferred_step rh free) acc objs).
Proof.
  revert acc. induction objs as [|o objs IH]; intros acc Hs Hn; simpl; [done|].
  apply IH; [by apply preferred_step_subseteq|by apply preferred_step_NoDup].
Qed.

Lemma preferred_agents_subseteq objs : preferred_agents rh free objs ⊆ free.
Proof. apply preferred_fold_spec; [set_solver|constructor]. Qed.

Lemma preferred_agents_NoDup objs : NoDup (preferred_agents rh free objs).
Proof. apply preferred_fold_spec; [set_solver|constructor]. Qed.

(** Once the list is non-empty its head stays. *)
Lemma preferred_fold_head objs x acc :
  head (foldl (preferred_step rh free) (x :: acc) objs) = Some x.
Proof.
  revert acc. induction objs as [|o objs IH]; intros acc; simpl; [done|].
  unfold preferred_step at 2. destruct (rh !! o) as [ag|]; [|apply IH].
  case_decide; [|apply IH]. apply (IH (acc ++ [ag])).
Qed.
End Preferred.

Lemma preferred_others_length_le (pref free : list Agent) :
  NoDup pref → pref ⊆ free →
  (length pref + length (filter (λ a, a ∉ pref) free) ≤ length free)%nat.
Proof.
  intros Hn Hs.
  rewrite <-(Permutation_length (filter_app_complement (λ a, a ∈ pref) free)).
  rewrite length_app. apply Nat.add_le_mono_r.
  apply submseteq_length, NoDup_submseteq; [done|].
  intros x Hx. apply list_elem_of_filter. auto.
Qed.

Lemma preferred_others_length_ge (pref free : list Agent) :
  NoDup free →
  (length free ≤ length pref + length (filter (λ a, a ∉ pref) free))%nat.
Proof.
  intros Hn.
  rewrite <-(Permutation_length (filter_app_complement (λ a, a ∈ pref) free)).
  rewrite length_app. apply Nat.add_le_mono_r.
  apply submseteq_length, NoDup_submseteq; [by apply NoDup_filter|].
  by intros x [? _]%list_elem_of_filter.
Qed.

Section Choose.
Context (rh : gmap string Agent) (free : list Agent) (task : Action).

Lemma choose_agents_subseteq assigned :
  choose_agents rh free task = Some assigned → assigned ⊆ free.
Proof.
  unfold choose_agents. intros H.
  pose proof (preferred_agents_subseteq rh free (objects task)) as Hp.
  repeat case_decide; simplify_eq.
  - etrans; [apply py_prefix_subseteq|done].
  - intros x [Hx|Hx]%elem_of_app; [by apply Hp|].
    apply py_prefix_subseteq in Hx. by apply list_elem_of_filter in Hx as [_ ?].
Qed.

(** The list chosen has at least [min] agents, and exactly [min] unless
    [min] is negative. *)
Lemma choose_agents_length assigned :
  choose_agents rh free task = Some assigned →
  req_min (required_agents task) ≤ Z.of_nat (length assigned)
  ∧ (0 ≤ req_min (required_agents task) →
     Z.of_nat (length assigned) = req_min (required_agents task)).
Proof.
  unfold choose_agents. intros H.
  repeat case_decide; simplify_eq.
  - destruct (decide (req_min (required_agents task) < 0)) as [Hneg|Hpos].
    + split; lia.
    + rewrite py_prefix_length_ge; lia.
  - rewrite length_app, Nat2Z.inj_add, py_prefix_length_ge; lia.
Qed.

Lemma choose_agents_short :
  Z.of_nat (length free) < req_min (required_agents task) →
  choose_agents rh free task = None.
Proof.
  intros Hlt. unfold choose_agents.
  pose proof (preferred_others_length_le _ free
    (preferred_agents_NoDup rh free (objects task))
    (preferred_agents_subseteq rh free (objects task))).
  repeat case_decide; try done; lia.
Qed.

Lemma choose_agents_enough :
  NoDup free → req_min (required_agents task) ≤ Z.of_nat (length free) →
  is_Some (choose_agents rh free task).
Proof.
  intros Hn Hle. unfold choose_agents.
  pose proof (preferred_others_length_ge
    (preferred_agents rh free (objects task)) free Hn).
  repeat case_decide; try done; lia.
Qed.
End Choose.

(** ** The stage search *)

Section StageSearch.
Context (agents : list Agent).

Lemma free_qualified_length st ty s :
  (length (filter (λ a, can_do_action a ty)
             (get_free_agents s (stage_assignments st) agents))
   ≤ length (qualified agents ty))%nat.
Proof.
  unfold get_free_agents, qualified.
  induction agents as [|a l IH]; [done|].
  rewrite (filter_cons (λ a, agent_id a ∉ _)).
  case_decide.
  - rewrite !(filter_cons (λ a, can_do_action a ty)). case_decide; simpl; lia.
  - rewrite (filter_cons (λ a, can_do_action a ty) a l). case_decide; simpl; lia.
Qed.

Lemma get_free_agents_empty st s :
  empty_stage st s → get_free_agents s (stage_assignments st) agents = agents.
Proof.
  unfold empty_stage, get_free_agents, used_ids. intros ->. simpl.
  induction agents as [|a l IH]; [done|].
  rewrite filter_cons_True by set_solver. by f_equal.
Qed.

Lemma try_stage_unsatisfiable st task s :
  Z.of_nat (length (qualified agents (act_type task))) < req_min (required_agents task) →
  try_stage agents st task s = None.
Proof.
  intros Hlt. apply choose_agents_short.
  pose proof (free_qualified_length st (act_type task) s). lia.
Qed.

Lemma try_stage_empty st task s :
  NoDup agents → empty_stage st s →
  req_min (required_agents task) ≤ Z.of_nat (length (qualified agents (act_type task))) →
  is_Some (try_stage agents st task s).
Proof.
  intros Hn He Hle. unfold try_stage. rewrite get_free_agents_empty by done.
  apply choose_agents_enough; [by apply NoDup_filter|done].
Qed.

Lemma find_stage_all_fail fuel st task s :
  (∀ n : nat, try_stage agents st task (s + Z.of_nat n) = None) →
  find_stage agents fuel st task s = OutOfFuel.
Proof.
  revert s. induction fuel as [|fuel IH]; intros s Hfail; simpl; [done|].
  specialize (Hfail 0%nat) as H0. rewrite Z.add_0_r in H0. rewrite H0.
  apply IH. intros n. specialize (Hfail (S n)).
  by replace (s + 1 + Z.of_nat n) with (s + Z.of_nat (S n)) by lia.
Qed.

(** If some stage from [s] on succeeds, the search stops at the first such
    stage. *)
Lemma find_stage_first st task (n : nat) s :
  is_Some (try_stage agents st task (s + Z.of_nat n)) →
  ∃ (k : nat) assigned,
    (k ≤ n)%nat
    ∧ try_stage agents st task (s + Z.of_nat k) = Some assigned
    ∧ (∀ j : nat, (j < k)%nat → try_stage agents st task (s + Z.of_nat j) = None)
    ∧ ∀ fuel, (k < fuel)%nat →
        find_stage agents fuel st task s = Done (s + Z.of_nat k, assigned).
Proof.
  revert s. induction n as [|n IH]; intros s [assigned Hs].
  - exists 0%nat, assigned. split_and!; [done|done|intros; lia|].
    intros [|fuel] ?; [lia|]. simpl. rewrite Z.add_0_r in Hs |- *. by rewrite Hs.
  - destruct (try_stage agents st task s) as [assigned0|] eqn:H0.
    + exists 0%nat, assigned0. rewrite Z.add_0_r.
      split_and!; [lia|done|intros; lia|].
      intros [|fuel] ?; [lia|]. simpl. by rewrite H0.
    + destruct (IH (s + 1)) as (k & asg & Hk & Hk1 & Hk2 & Hk3).
      { exists assigned. by replace (s + 1 + Z.of_nat n) with (s + Z.of_nat (S n)) by lia. }
      exists (S k), asg.
      replace (s + Z.of_nat (S k)) with (s + 1 + Z.of_nat k) by lia.
      split_and!; [lia|done| |].
      * intros [|j] Hj; [by rewrite Z.add_0_r|].
        replace (s + Z.of_nat (S j)) with (s + 1 + Z.of_nat j) by lia.
        apply Hk2. lia.
      * intros [|fuel] ?; [lia|]. simpl. rewrite H0. apply Hk3. lia.
Qed.

(** A finite assignment map leaves free stages arbitrarily late. *)
Lemma empty_stage_exists st s : ∃ e, s ≤ e ∧ empty_stage st e.
Proof.
  unfold empty_stage.
  assert (∃ b, ∀ k, is_Some (stage_assignments st !! k) → k < b) as [b Hb].
  { induction (stage_assignments st) as [|k l m Hk IH] using map_ind.
    - exists 0. intros k [? Hk]. by rewrite lookup_empty in Hk.
    - destruct IH as [b Hb]. exists (Z.max b (k + 1)). intros k' Hk'.
      destruct (decide (k = k')) as [-> |Hne]; [lia|].
      rewrite lookup_insert_ne in Hk' by done. specialize (Hb _ Hk'). lia. }
  exists (Z.max s b). split; [lia|].
  destruct (stage_assignments st !! Z.max s b) eqn:He; [|done].
  specialize (Hb (Z.max s b)). rewrite He in Hb.
  specialize (Hb (mk_is_Some _ _ eq_refl)). lia.
Qed.
End StageSearch.

(** C7. An action that can never be satisfied -- every roster agent is
    disallowed from its type while it needs at least one agent, or its
    minimum exceeds the number of qualified roster agents -- makes the stage
    search of [schedule_task] run forever: from every state and every
    desired stage, each candidate stage fails and the next one is tried, so
    that no amount of fuel ends the search, and no exception is raised
    (the outcome is [OutOfFuel], never [Raise]). *)
Theorem stage_search_diverges agents task :
  (Forall (λ a, ¬ can_do_action a (act_type task)) agents
     ∧ 0 < req_min (required_agents task))
  ∨ Z.of_nat (length (qualified agents (act_type task))) < req_min (required_agents task) →
  ∀ st desired_stage,
    (∀ n : nat, try_stage agents st task (desired_stage + Z.of_nat n) = None)
    ∧ (∀ fuel, find_stage agents fuel st task desired_stage = OutOfFuel)
    ∧ (∀ rd dc fuel, schedule_task agents rd dc fuel st task desired_stage = OutOfFuel).
Proof.
  intros Hunsat st s.
  assert (Z.of_nat (length (qualified agents (act_type task)))
          < req_min (required_agents task)) as Hlt.
  { destruct Hunsat as [[Hall Hpos]|Hlt]; [|done].
    unfold qualified. replace (filter _ agents) with (@nil Agent); [simpl; lia|].
    symmetry. clear Hpos. induction Hall as [|a l Ha _ IH]; [done|].
    by rewrite filter_cons_False. }
  assert (∀ n : nat, try_stage agents st task (s + Z.of_nat n) = None) as Hfail.
  { intros n. by apply try_stage_unsatisfiable. }
  split_and!; [done|intros; by apply find_stage_all_fail|].
  intros rd dc [|fuel]; simpl; [done|].
  by rewrite find_stage_all_fail.
Qed.

(** C10, amended.  When the roster lists no agent twice and the action's
    minimum is at most the number of roster agents qualified for its type,
    the stage search terminates from every state and every desired stage: it stops at
    some stage [s], no later than any stage from the desired one on that
    holds no assignment (such a stage exists), with any fuel above the
    number of stages passed, and the assignment is appended to the list of
    stage [s]. *)
Theorem stage_search_terminates agents task st desired_stage :
  NoDup agents →
  req_min (required_agents task) ≤ Z.of_nat (length (qualified agents (act_type task))) →
  ∃ s assigned,
    desired_stage ≤ s
    ∧ (∃ e, desired_stage ≤ e ∧ empty_stage st e)
    ∧ (∀ e, desired_stage ≤ e → empty_stage st e → s ≤ e)
    ∧ (∀ fuel, (Z.to_nat (s - desired_stage) < fuel)%nat →
         find_stage agents fuel st task desired_stage = Done (s, assigned))
    ∧ stage_assignments (record_assignment st task s assigned) !! s
      = Some (default [] (stage_assignments st !! s)
              ++ [ {| action_id := act_id task; assigned_agents := assigned;
                      stage := s; asg_description := description task |} ]).
Proof.
  intros Hn Hle.
  destruct (empty_stage_exists st desired_stage) as (e & He1 & He2).
  destruct (find_stage_first agents st task (Z.to_nat (e - desired_stage)) desired_stage)
    as (k & assigned & Hk & Hk1 & Hk2 & Hk3).
  { replace (desired_stage + Z.of_nat (Z.to_nat (e - desired_stage))) with e by lia.
    by apply try_stage_empty. }
  exists (desired_stage + Z.of_nat k), assigned.
  split_and!; [lia|by exists e| | |].
  - intros e' He'1 He'2.
    destruct (decide (desired_stage + Z.of_nat k ≤ e')) as [|Hlt]; [done|].
    specialize (Hk2 (Z.to_nat (e' - desired_stage))).
    replace (desired_stage + Z.of_nat (Z.to_nat (e' - desired_stage))) with e' in Hk2 by lia.
    destruct (try_stage_empty agents st task e' Hn He'2 Hle) as [x Hx].
    rewrite Hk2 in Hx by lia. done.
  - intros fuel Hfuel. apply Hk3. lia.
  - simpl. by rewrite lookup_insert_eq.
Qed.

(** C10, as stated, fails for a roster that lists an agent twice.  The
    roster of [Doubled] has two agents qualified for the action, which needs
    two; A is the recorded handler of the crate, so [preferred] is [A], and
    [others], the free agents not in [preferred], is empty: every stage
    fails, the empty ones too, and the search never ends. *)
Lemma repeated_agent_search_never_ends :
  req_min (required_agents Doubled.lift)
  ≤ Z.of_nat (length (qualified Doubled.agents (act_type Doubled.lift)))
  ∧ (∀ s, empty_stage (initial_state Doubled.handlers Doubled.actions) s)
  ∧ (∀ s, try_stage Doubled.agents (initial_state Doubled.handlers Doubled.actions)
             Doubled.lift s = None)
  ∧ ∀ fuel desired_stage,
      find_stage Doubled.agents fuel (initial_state Doubled.handlers Doubled.actions)
        Doubled.lift desired_stage = OutOfFuel.
Proof.
  assert (∀ s, empty_stage (initial_state Doubled.handlers Doubled.actions) s) as Hempty.
  { intros s. unfold empty_stage. cbn. by rewrite lookup_empty. }
  assert (∀ s, try_stage Doubled.agents (initial_state Doubled.handlers Doubled.actions)
                 Doubled.lift s = None) as Hfail.
  { intros s. unfold try_stage. rewrite get_free_agents_empty by done. by vm_compute. }
  split_and!; [by vm_compute|done..|].
  intros fuel d. by apply find_stage_all_fail.
Qed.

Lemma stage_search_terminates_witness :
  NoDup Chair.agents
  ∧ req_min (required_agents (Chair.mk "1" "fetch" ["chair_back"] "Fetch chair back" []))
    ≤ Z.of_nat (length (qualified Chair.agents "fetch"))
  ∧ ∃ s assigned,
      1 ≤ s
      ∧ find_stage Chair.agents (S (Z.to_nat (s - 1)))
          (initial_state ∅ Chair.actions)
          (Chair.mk "1" "fetch" ["chair_back"] "Fetch chair back" []) 1
        = Done (s, assigned).
Proof.
  assert (NoDup Chair.agents) as Hn by (apply (bool_decide_unpack _); by vm_compute).
  assert (req_min (required_agents (Chair.mk "1" "fetch" ["chair_back"] "Fetch chair back" []))
    ≤ Z.of_nat (length (qualified Chair.agents "fetch"))) as Hle by (vm_compute; discriminate).
  split_and!; [done..|].
  destruct (stage_search_terminates Chair.agents
              (Chair.mk "1" "fetch" ["chair_back"] "Fetch chair back" [])
              (initial_state ∅ Chair.actions) 1 Hn Hle)
    as (s & assigned & Hs & _ & _ & Hfind & _).
  exists s, assigned. split; [done|]. apply Hfind. lia.
Defined.

Lemma stage_search_diverges_witness :
  let blocked := {| agent_id := "A"; constraints := ["can't_fetch"] |} in
  let task := Chair.mk "1" "fetch" ["chair_back"] "Fetch chair back" [] in
  (Forall (λ a, ¬ can_do_action a (act_type task)) [blocked]
   ∧ 0 < req_min (required_agents task))
  ∧ find_stage [blocked] 1000 (initial_state ∅ [task]) task 1 = OutOfFuel.
Proof.
  intros blocked task.
  assert (Forall (λ a, ¬ can_do_action a (act_type task)) [blocked]
          ∧ 0 < req_min (required_agents task)) as Hunsat.
  { split; [|done]. apply (bool_decide_unpack _). by vm_compute. }
  split; [done|].
  apply (stage_search_diverges [blocked] task (or_introl Hunsat)).
Defined.

(** ** Handler affinity *)

Lemma track_fold_lookup (first : Agent) (objs : list string) (rh : gmap string Agent) o :
  foldl (λ rh obj, <[obj := first]> rh) rh objs !! o
  = if decide (o ∈ objs) then Some first else rh !! o.
Proof.
  revert rh. induction objs as [|o' objs IH]; intros rh; cbn [foldl].
  - rewrite decide_False; [done|apply not_elem_of_nil].
  - rewrite IH. destruct (decide (o ∈ objs)) as [Hin|Hnin].
    + rewrite decide_True; [done|by right].
    + destruct (decide (o = o')) as [-> |Hne].
      * rewrite lookup_insert_eq. rewrite decide_True; [done|by left].
      * rewrite lookup_insert_ne by done.
        rewrite decide_False; [done|]. by intros [?|?]%elem_of_cons.
Qed.

Lemma track_objects_lookup rh objs first rest rh' o :
  track_objects rh objs (first :: rest) = Done rh' →
  rh' !! o = if decide (o ∈ objs) then Some first else rh !! o.
Proof.
  destruct objs as [|o' objs]; cbn [track_objects]; intros [= <-].
  - rewrite decide_False; [done|apply not_elem_of_nil].
  - apply (track_fold_lookup first (o' :: objs)).
Qed.

Lemma preferred_fold_skip rh free objs :
  (∀ o Y, o ∈ objs → rh !! o = Some Y → Y ∉ free) →
  foldl (preferred_step rh free) [] objs = [].
Proof.
  induction objs as [|o objs IH]; intros Hskip; simpl; [done|].
  unfold preferred_step at 2. destruct (rh !! o) as [Y|] eqn:HY.
  - rewrite decide_False; [apply IH; set_solver|].
    intros [HY' _]. eapply Hskip; [|done..]. set_solver.
  - apply IH. set_solver.
Qed.

Lemma choose_agents_first_handler rh free task X O before after :
  req_min (required_agents task) = 1 →
  objects task = before ++ O :: after →
  rh !! O = Some X → X ∈ free →
  (∀ o Y, o ∈ before → rh !! o = Some Y → Y ∉ free) →
  choose_agents rh free task = Some [X].
Proof.
  intros Hmin Hobjs HO HX Hskip.
  assert (∃ pref, preferred_agents rh free (objects task) = X :: pref) as [pref Hp].
  { unfold preferred_agents.
    rewrite Hobjs, foldl_app, preferred_fold_skip by done. cbn [foldl].
    assert (preferred_step rh free [] O = [X]) as ->.
    { unfold preferred_step. rewrite HO.
      rewrite decide_True; [done|]. split; [done|apply not_elem_of_nil]. }
    pose proof (preferred_fold_head rh free after X []) as Hhead.
    destruct (foldl _ [X] after) as [|Y pref]; [done|].
    injection Hhead as ->. by eexists. }
  unfold choose_agents. rewrite Hp, Hmin.
  rewrite decide_True by (simpl; lia). done.
Qed.

(** C6, amended.  When [X] is the first agent assigned to a fetch touching
    object [O], [X] becomes the recorded handler of [O].  In any later state
    in which [X] still is the recorded handler of [O], an action that
    requires exactly one agent and touches [O] is given [X] at a candidate
    stage where [X] is qualified and free, provided no object the action
    lists before [O] has a recorded handler that is qualified and free
    there. *)
Theorem affinity_first_free_handler agents st0 fetch s0 X rest st1 O :
  act_type fetch = "fetch" → O ∈ objects fetch →
  assign st0 fetch s0 (X :: rest) = Done st1 →
  recent_handler st1 !! O = Some X
  ∧ ∀ st task stage before after,
      recent_handler st !! O = Some X →
      req_min (required_agents task) = 1 →
      objects task = before ++ O :: after →
      X ∈ filter (λ a, can_do_action a (act_type task))
            (get_free_agents stage (stage_assignments st) agents) →
      (∀ o Y, o ∈ before → recent_handler st !! o = Some Y →
         Y ∉ filter (λ a, can_do_action a (act_type task))
               (get_free_agents stage (stage_assignments st) agents)) →
      try_stage agents st task stage = Some [X].
Proof.
  intros Hty HO Hassign. split.
  - unfold assign, update_object_tracking in Hassign. simpl in Hassign.
    rewrite decide_True in Hassign by done.
    destruct (track_objects _ _ _) as [rh'| |] eqn:Htrack; simplify_eq/=.
    rewrite (track_objects_lookup _ _ _ _ _ O Htrack). by rewrite decide_True.
  - intros st task stage before after Hrh Hmin Hobjs HX Hskip.
    by eapply choose_agents_first_handler.
Qed.

(** ** Dependency validation *)

Section Validation.
Context (actions : list Action).

Lemma lookup_action_Some aid x :
  lookup_action actions aid = Some x → x ∈ actions ∧ act_id x = aid.
Proof.
  unfold lookup_action. intros [Hin Hid]%find_some.
  split; [by apply list_elem_of_In|by apply bool_decide_eq_true in Hid].
Qed.

Lemma lookup_action_is_Some aid :
  aid ∈ action_ids actions → is_Some (lookup_action actions aid).
Proof.
  unfold action_ids, lookup_action.
  rewrite elem_of_list_to_set, list_elem_of_fmap. intros (x & -> & Hx).
  destruct (find _ actions) as [y|] eqn:Hfind; [done|].
  apply list_elem_of_In in Hx.
  pose proof (find_none _ _ Hfind x Hx) as Hf.
  by apply bool_decide_eq_false in Hf.
Qed.

Lemma lookup_action_unique x :
  unique_ids actions → x ∈ actions → lookup_action actions (act_id x) = Some x.
Proof.
  unfold unique_ids, lookup_action.
  induction actions as [|y l IH]; intros Hn Hx; [by apply not_elem_of_nil in Hx|].
  rewrite fmap_cons in Hn. apply NoDup_cons in Hn as [Hy Hn]. simpl.
  destruct (decide (act_id y = act_id x)) as [Heq|Hne].
  - rewrite bool_decide_eq_true_2 by done.
    apply elem_of_cons in Hx as [-> |Hx]; [done|].
    exfalso. apply Hy. rewrite Heq. apply list_elem_of_fmap. eauto.
  - rewrite bool_decide_eq_false_2 by done.
    apply elem_of_cons in Hx as [-> |Hx]; [done|]. by apply IH.
Qed.

Lemma edge_needs a d : edge actions a d → needs actions a d.
Proof. intros (x & [? ?]%lookup_action_Some & ?). by exists x. Qed.

Lemma needs_edge a d : unique_ids actions → needs actions a d → edge actions a d.
Proof.
  intros Hn (x & Hx & <- & Hd). exists x. split; [|done].
  by apply lookup_action_unique.
Qed.

Lemma tc_edge_needs a b : tc (edge actions) a b → tc (needs actions) a b.
Proof.
  induction 1 as [a b H|a b c H _ IH].
  - by apply tc_once, edge_needs.
  - eapply tc_l; [by apply edge_needs|done].
Qed.

Lemma tc_needs_edge a b :
  unique_ids actions → tc (needs actions) a b → tc (edge actions) a b.
Proof.
  intros Hn. induction 1 as [a b H|a b c H _ IH].
  - by apply tc_once, needs_edge.
  - eapply tc_l; [by apply needs_edge|done].
Qed.

(** *** The existence check *)

Lemma find_missing_None (ids : gset string) (deps : list string) :
  find (λ dep, bool_decide (dep ∉ ids)) deps = None ↔ ∀ dep, dep ∈ deps → dep ∈ ids.
Proof.
  induction deps as [|d deps IH]; simpl.
  - split; [intros _ dep Hd; by apply not_elem_of_nil in Hd|done].
  - destruct (decide (d ∈ ids)) as [Hd|Hd].
    + rewrite bool_decide_eq_false_2 by tauto. rewrite IH. set_solver.
    + rewrite bool_decide_eq_true_2 by done. split; [done|].
      intros H. exfalso. apply Hd, H. by left.
Qed.

Lemma first_missing_None (ids : gset string) l :
  first_missing ids l = None ↔ ∀ x dep, x ∈ l → dep ∈ depends_on x → dep ∈ ids.
Proof.
  induction l as [|a l IH]; simpl.
  - split; [intros _ x dep Hx; by apply not_elem_of_nil in Hx|done].
  - destruct (find _ (depends_on a)) as [d|] eqn:Hfind.
    + split; [done|]. intros H. exfalso.
      apply find_some in Hfind as [Hin Hd%bool_decide_eq_true].
      apply Hd, (H a); [by left|by apply list_elem_of_In].
    + rewrite IH. pose proof (proj1 (find_missing_None _ _) Hfind). set_solver.
Qed.

Lemma first_missing_Some (ids : gset string) l a dep :
  first_missing ids l = Some (a, dep) →
  ∃ x, x ∈ l ∧ act_id x = a ∧ dep ∈ depends_on x ∧ dep ∉ ids.
Proof.
  induction l as [|y l IH]; simpl; [done|].
  destruct (find _ (depends_on y)) as [d|] eqn:Hfind.
  - intros [= <- <-]. apply find_some in Hfind as [Hin Hd%bool_decide_eq_true].
    exists y. split_and!; [by left|done|by apply list_elem_of_In|done].
  - intros (x & ? & ?)%IH. exists x. split; [by right|done].
Qed.

Lemma first_missing_spec :
  first_missing (action_ids actions) actions = None ↔ ¬ has_missing_dependency actions.
Proof.
  rewrite first_missing_None. unfold has_missing_dependency. split.
  - intros H (x & dep & Hx & Hd & Hn). by apply Hn, (H x).
  - intros H x dep Hx Hd.
    destruct (decide (dep ∈ action_ids actions)); [done|].
    exfalso. apply H. by exists x, dep.
Qed.
End Validation.

(** *** The cycle check *)

Lemma size_list_to_set_le (l : list string) :
  (size (list_to_set l : gset string) ≤ length l)%nat.
Proof.
  induction l as [|x l IH].
  { by rewrite list_to_set_nil, size_empty. }
  rewrite list_to_set_cons, size_union_alt, size_singleton. cbn [length].
  assert (list_to_set l ∖ {[x]} ⊆ (list_to_set l : gset string)) as Hsub by set_solver.
  apply subseteq_size in Hsub. lia.
Qed.

Section DFS.
Context (actions : list Action).
Hypothesis Hclosed : ∀ a d, edge actions a d → d ∈ action_ids actions.

Lemma dfs_inv_closed V P b c :
  dfs_inv actions V P → tc (edge actions) b c → b ∈ V → b ∉ P → c ∈ V ∧ c ∉ P.
Proof.
  intros (_ & Hcl & _). induction 1 as [b c H|b c d H _ IH]; intros Hb1 Hb2.
  - by eapply Hcl.
  - destruct (Hcl b c) as [? ?]; auto.
Qed.

Lemma dfs_inv_enter V P aid :
  dfs_inv actions V P → aid ∉ V → dfs_inv actions (V ∪ {[aid]}) (P ∪ {[aid]}).
Proof.
  intros (Hsub & Hcl & Hac) Hnew. split_and!.
  - set_solver.
  - intros b d Hb1 Hb2 Hbd.
    assert (b ∈ V ∧ b ∉ P) as [HbV HbP] by set_solver.
    destruct (Hcl b d HbV HbP Hbd). set_solver.
  - intros b Hb1 Hb2. apply Hac; set_solver.
Qed.

Lemma dfs_inv_leave V P aid a :
  dfs_inv actions V (P ∪ {[aid]}) → aid ∉ P → aid ∈ V →
  lookup_action actions aid = Some a →
  (∀ d, d ∈ depends_on a → d ∈ V ∧ d ∉ P ∪ {[aid]}) →
  dfs_inv actions V P.
Proof.
  intros Hinv HaP HaV Ha Hdeps.
  assert (∀ d, edge actions aid d → d ∈ V ∧ d ∉ P ∪ {[aid]}) as Hout.
  { intros d (x & Hx & Hd). rewrite Ha in Hx. injection Hx as <-. by apply Hdeps. }
  pose proof Hinv as (Hsub & Hcl & Hac). split_and!.
  - set_solver.
  - intros b d Hb1 Hb2 Hbd. destruct (decide (b = aid)) as [-> |Hne].
    + destruct (Hout d Hbd). set_solver.
    + destruct (Hcl b d) as [? ?]; [done|set_solver|done|]. set_solver.
  - intros b Hb1 Hb2. destruct (decide (b = aid)) as [-> |Hne].
    + intros Hcyc.
      assert (aid ∈ V ∧ aid ∉ P ∪ {[aid]}) as [_ Hbad]; [|set_solver].
      inversion Hcyc as [? ? Hstep|? d ? Hstep Hrest]; subst.
      * by apply Hout.
      * destruct (Hout d Hstep). by eapply dfs_inv_closed.
    + apply Hac; set_solver.
Qed.

Lemma cycle_in_deps_ok rec n deps V P :
  has_cycle_ok actions rec n →
  dfs_inv actions V P →
  (∀ p d, p ∈ P → d ∈ deps → tc (edge actions) p d) →
  (∀ d, d ∈ deps → d ∈ action_ids actions) →
  (size (action_ids actions ∖ V) < n)%nat →
  ∃ (b : bool) V' P',
    cycle_in_deps rec deps V P = Done (b, V', P')
    ∧ if b then (∃ x, tc (edge actions) x x)
      else P' = P ∧ V ⊆ V' ∧ dfs_inv actions V' P
           ∧ ∀ d, d ∈ deps → d ∈ V' ∧ d ∉ P.
Proof.
  intros Hrec. revert V.
  induction deps as [|dep deps IH]; intros V Hinv Hpath Hids Hsize.
  - exists false, V, P. split_and!; [done..|].
    intros d Hd. by apply not_elem_of_nil in Hd.
  - destruct (Hrec dep V P) as (b & V1 & P1 & Hr & Hpost); [done| | |done|].
    { intros p Hp. apply Hpath; [done|by left]. }
    { apply Hids. by left. }
    cbn [cycle_in_deps]. rewrite Hr. cbn.
    destruct b; [by exists true, V1, P1|].
    destruct Hpost as (-> & Hsub & Hin & Hnp & Hinv1).
    destruct (IH V1) as (b & V2 & P2 & Hr2 & Hpost2); [done| | |..].
    { intros p d Hp Hd. apply Hpath; [done|by right]. }
    { intros d Hd. apply Hids. by right. }
    { assert (action_ids actions ∖ V1 ⊆ action_ids actions ∖ V) as Hle
        by (clear -Hsub; set_solver).
      apply subseteq_size in Hle. lia. }
    exists b, V2, P2. split; [done|]. destruct b; [done|].
    destruct Hpost2 as (-> & Hsub2 & Hinv2 & Hall).
    split_and!; [done|by etrans|done|].
    intros d [-> |Hd]%elem_of_cons; [|by apply Hall]. split; [by apply Hsub2|done].
Qed.

Lemma has_cycle_ok_fuel fuel : has_cycle_ok actions (has_cycle fuel actions) fuel.
Proof.
  induction fuel as [|fuel IH]; intros aid V P Hinv Hpath Hid Hsize; [lia|].
  cbn [has_cycle].
  destruct (decide (aid ∈ P)) as [HP|HP].
  { exists true, V, P. split; [done|]. exists aid. by apply Hpath. }
  destruct (decide (aid ∈ V)) as [HV|HV].
  { by exists false, V, P. }
  destruct (lookup_action_is_Some actions aid Hid) as [a Ha]. rewrite Ha.
  destruct (cycle_in_deps_ok (has_cycle fuel actions) fuel (depends_on a)
              (V ∪ {[aid]}) (P ∪ {[aid]}) IH)
    as (b & V' & P' & Hr & Hpost).
  - by apply dfs_inv_enter.
  - intros p d Hp Hd.
    assert (edge actions aid d) as Hstep by (by exists a).
    apply elem_of_union in Hp as [Hp| ->%elem_of_singleton].
    + eapply tc_r; [by apply Hpath|done].
    + by apply tc_once.
  - intros d Hd. apply (Hclosed aid). by exists a.
  - assert (action_ids actions ∖ (V ∪ {[aid]}) ⊂ action_ids actions ∖ V) as Hlt.
    { split; [set_solver|]. intros Hsub. specialize (Hsub aid). set_solver. }
    apply subset_size in Hlt. lia.
  - rewrite Hr. cbn. destruct b; [by exists true, V', P'|].
    destruct Hpost as (-> & Hsub & Hinv' & Hall).
    exists false, V', ((P ∪ {[aid]}) ∖ {[aid]}).
    assert ((P ∪ {[aid]}) ∖ {[aid]} = P) as -> by set_solver.
    split_and!; [done..|set_solver|set_solver|done|].
    eapply dfs_inv_leave; [done|done|set_solver|done|done].
Qed.

Lemma cycle_scan_ok todo V :
  dfs_inv actions V ∅ → todo ⊆ actions →
  (∃ a, cycle_scan (S (length actions)) actions todo V = Raise (CyclicDependency a)
        ∧ ∃ x, tc (edge actions) x x)
  ∨ (cycle_scan (S (length actions)) actions todo V = Done tt
     ∧ ∃ V', dfs_inv actions V' ∅ ∧ V ⊆ V' ∧ ∀ a, a ∈ todo → act_id a ∈ V').
Proof.
  revert V. induction todo as [|a todo IH]; intros V Hinv Htodo.
  - right. split; [done|]. exists V. split_and!; [done..|].
    intros a Ha. by apply not_elem_of_nil in Ha.
  - cbn [cycle_scan]. destruct (decide (act_id a ∈ V)) as [HV|HV].
    + destruct (IH V) as [Hl|(Hr & V' & ? & ? & Hall)]; [done|set_solver|by left|].
      right. split; [done|]. exists V'. split_and!; [done..|].
      intros x [-> |Hx]%elem_of_cons; [set_solver|by apply Hall].
    + destruct (has_cycle_ok_fuel (S (length actions)) (act_id a) V ∅)
        as (b & V1 & P1 & Hr & Hpost); [done|set_solver| |..].
      { apply elem_of_list_to_set, list_elem_of_fmap. exists a. set_solver. }
      { assert (action_ids actions ∖ V ⊆ action_ids actions) as Hle by set_solver.
        apply subseteq_size in Hle.
        pose proof (size_list_to_set_le (act_id <$> actions)) as Hlen.
        rewrite length_fmap in Hlen. unfold action_ids in *. lia. }
      rewrite Hr. cbn. destruct b; [left; by exists (act_id a)|].
      destruct Hpost as (-> & Hsub & Hin & _ & Hinv1).
      destruct (IH V1) as [Hl|(Hr1 & V' & ? & ? & Hall)]; [done|set_solver|by left|].
      right. split; [done|]. exists V'. split_and!; [done|set_solver|].
      intros x [-> |Hx]%elem_of_cons; [set_solver|by apply Hall].
Qed.

Lemma dfs_inv_empty : dfs_inv actions ∅ ∅.
Proof. split_and!; set_solver. Qed.

Lemma cycle_scan_spec :
  (∃ a, cycle_scan (S (length actions)) actions actions ∅ = Raise (CyclicDependency a)
        ∧ ∃ x, tc (edge actions) x x)
  ∨ (cycle_scan (S (length actions)) actions actions ∅ = Done tt
     ∧ ∀ x, ¬ tc (edge actions) x x).
Proof.
  destruct (cycle_scan_ok actions ∅) as [Hl|(Hr & V & (_ & _ & Hac) & _ & Hall)];
    [apply dfs_inv_empty|done|by left|].
  right. split; [done|]. intros x Hcyc.
  assert (∃ a, a ∈ actions ∧ act_id a = x) as (a & Ha & <-).
  { inversion Hcyc as [? ? (a & Hl & _)|? ? ? (a & Hl & _) _]; subst;
      apply lookup_action_Some in Hl; by exists a. }
  apply (Hac (act_id a)); [by apply Hall|set_solver|done].
Qed.
End DFS.

(** The three ways [validate_dependencies] ends. *)
Lemma validate_dependencies_cases actions :
  (has_missing_dependency actions
   ∧ ∃ a dep, validate_dependencies actions = Raise (MissingDependency a dep))
  ∨ (¬ has_missing_dependency actions
     ∧ (∃ x, tc (edge actions) x x)
     ∧ ∃ a, validate_dependencies actions = Raise (CyclicDependency a))
  ∨ (¬ has_missing_dependency actions
     ∧ (∀ x, ¬ tc (edge actions) x x)
     ∧ validate_dependencies actions = Done tt).
Proof.
  unfold validate_dependencies.
  destruct (first_missing _ actions) as [[a dep]|] eqn:Hfirst.
  - left. split; [|by exists a, dep].
    apply first_missing_Some in Hfirst as (x & ? & ? & ? & ?). by exists x, dep.
  - right. apply first_missing_spec in Hfirst.
    destruct (cycle_scan_spec actions) as [(a & Hr & Hcyc)|[Hr Hac]].
    + intros a d [x [Hx Hd]]%edge_needs.
      destruct (decide (d ∈ action_ids actions)) as [|Hn]; [done|].
      exfalso. apply Hfirst. exists x, d. tauto.
    + left. split_and!; [done..|by exists a].
    + by right.
Qed.

(** Validation always ends, and in one of three ways. *)
Lemma validate_dependencies_total actions :
  validate_dependencies actions = Done tt
  ∨ (∃ a dep, validate_dependencies actions = Raise (MissingDependency a dep))
  ∨ (∃ a, validate_dependencies actions = Raise (CyclicDependency a)).
Proof.
  destruct (validate_dependencies_cases actions)
    as [(_ & a & dep & Hr)|[(_ & _ & a & Hr)|(_ & _ & Hr)]]; eauto.
Qed.

(** The planner only goes on with identifiers that all exist. *)
Lemma validate_dependencies_Done actions :
  validate_dependencies actions = Done tt → ¬ has_missing_dependency actions.
Proof.
  destruct (validate_dependencies_cases actions)
    as [(_ & a & dep & ->)|[(_ & _ & a & ->)|(? & _ & _)]]; done.
Qed.

(** C5, amended.  [validate_dependencies] raises the missing-dependency
    error if and only if some action lists an identifier that names no
    action of the input.  When all listed identifiers exist it raises the
    cycle error if and only if there is a cycle in the dependency relation
    that follows every identifier to the first action that bears it, and it
    returns normally if there is none.  When no two actions share an
    identifier, that relation is the dependency relation on the action
    identifiers, so that the cycle error is raised if and only if the
    relation on the identifiers has a cycle.  The function only reads its
    input: the sets it updates are its own. *)
Theorem validate_dependencies_spec actions :
  ((∃ a dep, validate_dependencies actions = Raise (MissingDependency a dep))
     ↔ has_missing_dependency actions)
  ∧ (¬ has_missing_dependency actions →
       ((∃ a, validate_dependencies actions = Raise (CyclicDependency a))
          ↔ ∃ x, tc (edge actions) x x))
  ∧ (¬ has_missing_dependency actions → (∀ x, ¬ tc (edge actions) x x) →
       validate_dependencies actions = Done tt)
  ∧ (unique_ids actions →
       (cyclic actions ↔ ∃ x, tc (edge actions) x x)
       ∧ (¬ has_missing_dependency actions →
            ((∃ a, validate_dependencies actions = Raise (CyclicDependency a))
               ↔ cyclic actions))
       ∧ (¬ has_missing_dependency actions → ¬ cyclic actions →
            validate_dependencies actions = Done tt)).
Proof.
  assert (unique_ids actions → (cyclic actions ↔ ∃ x, tc (edge actions) x x)) as Hsame.
  { intros Huniq. split; intros [x Hx]; exists x;
      [by apply tc_needs_edge|by apply tc_edge_needs]. }
  destruct (validate_dependencies_cases actions)
    as [(Hmiss & a & dep & Hr)|[(Hno & [x Hcyc] & a & Hr)|(Hno & Hac & Hr)]].
  - split_and!; [split; eauto|done..|].
    intros Huniq. split_and!; [by apply Hsame|done..].
  - split_and!.
    + split; [|done]. intros (a' & dep & Hr'). congruence.
    + intros _. split; eauto.
    + intros _ Hac. by destruct (Hac x).
    + intros Huniq. split_and!; [by apply Hsame| |].
      * intros _. split; [intros _; apply Hsame; eauto|eauto].
      * intros _ Hacyclic. destruct Hacyclic. apply Hsame; eauto.
  - split_and!.
    + split; [|done]. intros (a' & dep & Hr'). congruence.
    + intros _. split; [|intros [x Hx]; by destruct (Hac x)].
      intros (a & Hr'). congruence.
    + done.
    + intros Huniq. split_and!; [by apply Hsame| |done].
      intros _. split; [intros (a & Hr'); congruence|].
      intros [x Hx]%Hsame; [|done]. by destruct (Hac x).
Qed.

(** ** The invariant of a planning call *)

Lemma dict_mem_del {V} k i (d : list (string * V)) :
  dict_mem k (dict_del i d) ↔ k ≠ i ∧ dict_mem k d.
Proof.
  unfold dict_mem, dict_del. rewrite !list_elem_of_fmap. split.
  - intros ([k' v] & -> & [Hne Hin]%list_elem_of_filter). split; [done|]. by exists (k', v).
  - intros (Hne & [k' v] & -> & Hin). exists (k', v). split; [done|].
    by apply list_elem_of_filter.
Qed.

Lemma dict_del_subseteq {V} i (d : list (string * V)) : dict_del i d ⊆ d.
Proof. apply list_subseteq_filter. Qed.

Lemma dict_set_elem_of {V} k (v : V) d k' v' :
  (k', v') ∈ dict_set k v d → (k', v') = (k, v) ∨ (k', v') ∈ d.
Proof.
  induction d as [|[k0 v0] d IH]; simpl.
  - intros ->%list_elem_of_singleton. by left.
  - case_decide; simpl in *; subst.
    + intros [-> |Hin]%elem_of_cons; [by left|right; by right].
    + intros [-> |Hin]%elem_of_cons; [right; by left|].
      destruct (IH Hin) as [Hl|Hr]; [by left|right; by right].
Qed.

Lemma dict_mem_set {V} k (v : V) d k' :
  dict_mem k' (dict_set k v d) ↔ k' = k ∨ dict_mem k' d.
Proof.
  unfold dict_mem. induction d as [|[k0 v0] d IH]; simpl.
  - rewrite list_elem_of_singleton. set_solver.
  - case_decide; simpl in *; subst.
    + rewrite !elem_of_cons. tauto.
    + rewrite !elem_of_cons, IH. tauto.
Qed.

Lemma build_unassigned_spec actions :
  (∀ k a, (k, a) ∈ build_unassigned actions → a ∈ actions ∧ act_id a = k)
  ∧ (∀ a, a ∈ actions → dict_mem (act_id a) (build_unassigned actions)).
Proof.
  unfold build_unassigned.
  assert (∀ d,
    (∀ k a, (k, a) ∈ foldl (λ d a, dict_set (act_id a) a d) d actions →
            (a ∈ actions ∧ act_id a = k) ∨ (k, a) ∈ d)
    ∧ (∀ k, (dict_mem k d ∨ k ∈ act_id <$> actions) →
            dict_mem k (foldl (λ d a, dict_set (act_id a) a d) d actions))) as H.
  { induction actions as [|x l IH]; intros d; cbn [foldl].
    - split; [by right|]. intros k [?|Hk]; [done|]. by apply not_elem_of_nil in Hk.
    - destruct (IH (dict_set (act_id x) x d)) as [IH1 IH2]. split.
      + intros k a [[? ?]|[[= -> ->]|?]%dict_set_elem_of]%IH1.
        * left. split; [by right|done].
        * left. split; [by left|done].
        * by right.
      + intros k Hk. apply IH2. rewrite dict_mem_set, fmap_cons, elem_of_cons in *. tauto. }
  destruct (H []) as [H1 H2]. split.
  - intros k a [?|Hk]%H1; [done|]. by apply not_elem_of_nil in Hk.
  - intros a Ha. apply H2. right. apply list_elem_of_fmap. eauto.
Qed.

Lemma insert_desc_elem_of {A} (key : A → nat) x y l :
  y ∈ insert_desc key x l ↔ y = x ∨ y ∈ l.
Proof.
  induction l as [|z l IH]; simpl.
  - rewrite list_elem_of_singleton, elem_of_nil. tauto.
  - case_decide; rewrite !elem_of_cons; [rewrite IH|]; tauto.
Qed.

Lemma sorted_desc_elem_of {A} (key : A → nat) y l :
  y ∈ sorted_desc key l ↔ y ∈ l.
Proof.
  unfold sorted_desc. induction l as [|x l IH]; simpl; [done|].
  rewrite insert_desc_elem_of, elem_of_cons, IH. tauto.
Qed.

Lemma build_reverse_dependencies_elem_of actions :
  ∀ i l c, build_reverse_dependencies actions !! i = Some l → c ∈ l → c ∈ actions.
Proof.
  unfold build_reverse_dependencies.
  assert (∀ (deps : list string) a (rd : gmap string (list Action)) (Q : Action → Prop),
    Q a → (∀ i l c, rd !! i = Some l → c ∈ l → Q c) →
    ∀ i l c,
      foldl (λ rd dep, <[dep := default [] (rd !! dep) ++ [a]]> rd) rd deps !! i = Some l →
      c ∈ l → Q c) as Hinner.
  { induction deps as [|dep deps IH]; intros a rd Q Ha Hrd; cbn [foldl]; [done|].
    apply IH; [done|]. intros i l c Hl Hc.
    destruct (decide (dep = i)) as [-> |Hne].
    - rewrite lookup_insert_eq in Hl. injection Hl as <-.
      apply elem_of_app in Hc as [Hc|Hc%list_elem_of_singleton]; [|by subst].
      destruct (rd !! i) as [l'|] eqn:Hi; simpl in Hc; [by eapply Hrd|].
      by apply not_elem_of_nil in Hc.
    - rewrite lookup_insert_ne in Hl by done. by eapply Hrd. }
  assert (∀ (rd : gmap string (list Action)) (Q : Action → Prop),
    (∀ a, a ∈ actions → Q a) → (∀ i l c, rd !! i = Some l → c ∈ l → Q c) →
    ∀ i l c,
      foldl (λ rd a, foldl (λ rd dep, <[dep := default [] (rd !! dep) ++ [a]]> rd)
                           rd (depends_on a)) rd actions !! i = Some l →
      c ∈ l → Q c) as Houter.
  { induction actions as [|a acts IH]; intros rd Q HQ Hrd; cbn [foldl]; [done|].
    apply IH; [intros; apply HQ; by right|].
    apply Hinner; [apply HQ; by left|done]. }
  apply (Houter ∅ (λ c, c ∈ actions)); [done|].
  intros i' l' c'. by rewrite lookup_empty.
Qed.

Lemma elem_of_used_ids x s (sa : gmap Z (list ActionAssignment)) :
  x ∈ used_ids s sa ↔ ∃ asg, asg ∈ default [] (sa !! s) ∧ x ∈ agent_ids asg.
Proof.
  unfold used_ids, agent_ids. rewrite elem_of_list_to_set, list_elem_of_In, in_flat_map.
  split; intros (asg & H1 & H2); exists asg; by rewrite ?list_elem_of_In in *.
Qed.

Lemma try_stage_spec agents st task s assigned :
  try_stage agents st task s = Some assigned →
  (∀ agent, agent ∈ assigned →
     agent ∈ agents
     ∧ can_do_action agent (act_type task)
     ∧ agent_id agent ∉ used_ids s (stage_assignments st))
  ∧ req_min (required_agents task) ≤ Z.of_nat (length assigned)
  ∧ (0 ≤ req_min (required_agents task) →
     Z.of_nat (length assigned) = req_min (required_agents task)).
Proof.
  unfold try_stage. intros Hchoose. split.
  - intros agent Hin. apply choose_agents_subseteq in Hchoose.
    apply Hchoose in Hin. unfold get_free_agents in Hin.
    apply list_elem_of_filter in Hin as [Hcan Hin].
    by apply list_elem_of_filter in Hin as [Hfree Hin].
  - by eapply choose_agents_length.
Qed.

Lemma find_stage_Done agents fuel st task d s assigned :
  find_stage agents fuel st task d = Done (s, assigned) →
  d ≤ s ∧ try_stage agents st task s = Some assigned.
Proof.
  revert d. induction fuel as [|fuel IH]; intros d; cbn [find_stage]; [done|].
  destruct (try_stage agents st task d) as [assigned'|] eqn:Htry.
  - intros [= <- <-]. split; [lia|done].
  - intros [Hle Hs]%IH. split; [lia|done].
Qed.

Lemma update_object_tracking_spec rh task assigned rh' :
  update_object_tracking rh task assigned = Done rh' →
  ∀ o, if decide (tracked task ∧ o ∈ objects task)
       then ∃ first, head assigned = Some first ∧ rh' !! o = Some first
       else rh' !! o = rh !! o.
Proof.
  assert (tracked task → track_objects rh (objects task) assigned = Done rh' →
    ∀ o, if decide (tracked task ∧ o ∈ objects task)
         then ∃ first, head assigned = Some first ∧ rh' !! o = Some first
         else rh' !! o = rh !! o) as Htrack.
  { intros Ht Hdone o. destruct assigned as [|first rest].
    - destruct (objects task) as [|o' objs]; simplify_eq/=.
      rewrite decide_False; [done|]. intros [_ Ho]. by apply not_elem_of_nil in Ho.
    - rewrite (track_objects_lookup _ _ _ _ _ o Hdone).
      destruct (decide (o ∈ objects task)).
      + rewrite decide_True by done. by exists first.
      + rewrite decide_False by tauto. done. }
  unfold update_object_tracking.
  destruct (decide (act_type task = "fetch")) as [Hf|Hf].
  { apply Htrack. by left. }
  destruct (decide (act_type task = "attach")) as [Ha|Ha].
  { apply Htrack. by right. }
  intros [= <-] o. rewrite decide_False; [done|]. intros [[?|?] _]; done.
Qed.

Section Invariant.
Context (actions : list Action) (agents : list Agent).
Context (rd : gmap string (list Action)) (dc : gmap string nat).
Context (rh0 : gmap string Agent).
Hypothesis Hrd : ∀ i l c, rd !! i = Some l → c ∈ l → c ∈ actions.

Lemma assign_preserves st task s assigned st' :
  plan_inv actions rh0 st →
  task ∈ actions →
  dict_mem (act_id task) (unassigned_actions st) →
  try_stage agents st task s = Some assigned →
  assign st task s assigned = Done st' →
  plan_inv actions rh0 st'.
Proof.
  intros Hinv Htask Hmem Htry Hassign.
  apply try_stage_spec in Htry as (Hagents & Hlen1 & Hlen2).
  unfold assign in Hassign. cbn in Hassign.
  destruct (update_object_tracking _ task assigned) as [rh'| |] eqn:Hupd;
    simplify_eq/=.
  pose proof (update_object_tracking_spec _ _ _ _ Hupd) as Hrh. clear Hupd.
  pose proof (inv_fresh _ _ _ Hinv _ Hmem) as Hfresh.
  set (new := {| action_id := act_id task; assigned_agents := assigned;
                 stage := s; asg_description := description task |}).
  set (sa' := <[s := default [] (stage_assignments st !! s) ++ [new]]>
                (stage_assignments st)).
  assert (made_for task new) as Hmade.
  { by split_and!; [done..|apply Hagents]. }
  assert (∀ o, is_Some (recent_handler st !! o) → is_Some (rh' !! o)) as Hkept.
  { intros o Ho. specialize (Hrh o). case_decide; [|by rewrite Hrh].
    destruct Hrh as (first & _ & ->). done. }
  assert (∀ o ag, written_by actions (stage_assignments st) o ag →
                  written_by actions sa' o ag) as Hmono.
  { intros o ag (s0 & l & asg & a & Hl & Hin & Ha & Hm & Ht & Ho & Hh).
    destruct (decide (s = s0)) as [-> |Hne].
    - exists s0, (l ++ [new]), asg, a. unfold sa'. rewrite lookup_insert_eq, Hl.
      split_and!; try done. apply elem_of_app; by left.
    - exists s0, l, asg, a. unfold sa'. by rewrite lookup_insert_ne. }
  assert (∀ o first, tracked task → o ∈ objects task → head assigned = Some first →
                     written_by actions sa' o first) as Hwritten.
  { intros o first Ht Ho Hhead. eexists s, _, new, task. unfold sa'.
    rewrite lookup_insert_eq. split_and!; try done.
    apply elem_of_app. right. by apply list_elem_of_singleton. }
  assert (∀ asg, asg ∈ default [] (stage_assignments st !! s) →
                 action_id asg ≠ act_id task) as Hother.
  { intros asg Hin Heq.
    destruct (stage_assignments st !! s) as [l|] eqn:Hl; simpl in Hin;
      [|by apply not_elem_of_nil in Hin].
    destruct (inv_assignment _ _ _ Hinv _ _ _ Hl Hin) as (_ & Ha & _). congruence. }
  split; cbn.
  - intros k a Hin. apply (inv_unassigned _ _ _ Hinv). by apply dict_del_subseteq in Hin.
  - intros a Ha. destruct (decide (act_id a = act_id task)) as [Heq|Hne].
    + right. rewrite Heq, lookup_insert_eq. done.
    + destruct (inv_partition _ _ _ Hinv a Ha) as [Hin|Hin].
      * left. by apply dict_mem_del.
      * right. by rewrite lookup_insert_ne.
  - intros k [Hne Hin]%dict_mem_del. rewrite lookup_insert_ne by done.
    by apply (inv_fresh _ _ _ Hinv).
  - intros s' l asg Hl Hin.
    assert (asg = new ∧ s' = s
            ∨ ∃ l', stage_assignments st !! s' = Some l' ∧ asg ∈ l') as [[-> ->]|Hold].
    { destruct (decide (s = s')) as [-> |Hne].
      - rewrite lookup_insert_eq in Hl. injection Hl as <-.
        apply elem_of_app in Hin as [Hin|Hin%list_elem_of_singleton]; [|by left].
        right. destruct (stage_assignments st !! s') as [l'|]; simpl in Hin; [by eauto|].
        by apply not_elem_of_nil in Hin.
      - rewrite lookup_insert_ne in Hl by done. right. eauto. }
    + split_and!; [done|by rewrite lookup_insert_eq|].
      exists task. split_and!; [done..|]. intros Ht o Ho.
      specialize (Hrh o). rewrite decide_True in Hrh by done.
      destruct Hrh as (first & Hhead & ->). exists first. split; [done|].
      by apply Hwritten.
    + destruct Hold as (l' & Hl' & Hin').
      destruct (inv_assignment _ _ _ Hinv _ _ _ Hl' Hin') as (? & Ha & a & ? & ? & Hobj).
      split_and!; [done| |].
      * rewrite lookup_insert_ne; [done|]. intros Heq. congruence.
      * exists a. split_and!; [done..|]. intros Ht o Ho.
        destruct (Hobj Ht o Ho) as (ag & Hag & Hw).
        specialize (Hrh o). case_decide as Hnow.
        -- destruct Hrh as (first & Hhead & ->), Hnow. exists first. split; [done|].
           by apply Hwritten.
        -- exists ag. split; [congruence|by apply Hmono].
  - intros s' l Hl. destruct (decide (s = s')) as [-> |Hne].
    + rewrite lookup_insert_eq in Hl. injection Hl as <-.
      rewrite fmap_app. apply NoDup_app. split_and!.
      * destruct (stage_assignments st !! s') as [l'|] eqn:Hl'; simpl; [|constructor].
        by eapply (inv_nodup _ _ _ Hinv).
      * intros i (asg & -> & Hin)%list_elem_of_fmap Hi.
        apply list_elem_of_singleton in Hi. by eapply Hother.
      * apply NoDup_singleton.
    + rewrite lookup_insert_ne in Hl by done. by eapply (inv_nodup _ _ _ Hinv).
  - intros s' l Hl. destruct (decide (s = s')) as [-> |Hne].
    + rewrite lookup_insert_eq in Hl. injection Hl as <-.
      assert (stage_disjoint (default [] (stage_assignments st !! s'))) as Hdis.
      { destruct (stage_assignments st !! s') as [l'|] eqn:Hl'; simpl.
        - by eapply (inv_disjoint _ _ _ Hinv).
        - intros i j ? ? ? _ Hi. by rewrite lookup_nil in Hi. }
      assert (∀ asg x, asg ∈ default [] (stage_assignments st !! s') →
                x ∈ agent_ids asg → x ∉ agent_ids new) as Hnew.
      { intros asg x Hin Hx (agent & -> & Hag)%list_elem_of_fmap.
        destruct (Hagents agent Hag) as (_ & _ & Hfree).
        apply Hfree, elem_of_used_ids. eauto. }
      intros i j asg1 asg2 x Hij H1 H2 Hx1 Hx2.
      apply lookup_snoc_Some in H1 as [[Hi1 H1]|[Hi1 <-]];
        apply lookup_snoc_Some in H2 as [[Hi2 H2]|[Hi2 <-]].
      * by eapply (Hdis i j).
      * apply (Hnew asg1 x); [by eapply list_elem_of_lookup_2|done..].
      * apply (Hnew asg2 x); [by eapply list_elem_of_lookup_2|done..].
      * lia.
    + rewrite lookup_insert_ne in Hl by done. by eapply (inv_disjoint _ _ _ Hinv).
  - intros i s' Hi. destruct (decide (act_id task = i)) as [<- |Hne].
    + rewrite lookup_insert_eq in Hi. injection Hi as <-.
      eexists _, new. rewrite lookup_insert_eq. split_and!; [done| |done].
      apply elem_of_app. right. by apply list_elem_of_singleton.
    + rewrite lookup_insert_ne in Hi by done.
      destruct (inv_assigned _ _ _ Hinv _ _ Hi) as (l & asg & Hl & Hin & Hid).
      destruct (decide (s = s')) as [-> |Hne'].
      * eexists _, asg. rewrite lookup_insert_eq. split_and!; [done| |done].
        rewrite Hl. simpl. apply elem_of_app. by left.
      * exists l, asg. by rewrite lookup_insert_ne.
  - intros o Ho. by apply Hkept, (inv_handlers_kept _ _ _ Hinv).
  - intros o Ho. specialize (Hrh o). rewrite decide_False in Hrh.
    + rewrite Hrh. by apply (inv_handlers_frame _ _ _ Hinv).
    + intros [_ Hin]. by apply (Ho task).
  - intros o ag Hag. specialize (Hrh o). case_decide as Hnow.
    + destruct Hrh as (first & Hhead & Hfirst), Hnow. right.
      assert (first = ag) as -> by congruence. by apply Hwritten.
    + rewrite Hrh in Hag.
      destruct (inv_handlers_origin _ _ _ Hinv _ _ Hag) as [?|?]; [by left|].
      right. by apply Hmono.
Qed.
End Invariant.

Section InvariantRun.
Context (actions : list Action) (agents : list Agent).
Context (rd : gmap string (list Action)) (dc : gmap string nat).
Context (rh0 : gmap string Agent).
Hypothesis Hrd : ∀ i l c, rd !! i = Some l → c ∈ l → c ∈ actions.

Lemma schedule_children_preserves rec cs s st st' :
  keeps_inv actions rh0 rec → cs ⊆ actions →
  plan_inv actions rh0 st →
  schedule_children rec cs s st = Done st' →
  plan_inv actions rh0 st'.
Proof.
  intros Hrec. revert st.
  induction cs as [|c cs IH]; intros st Hcs Hinv; cbn [schedule_children].
  - by intros [= <-].
  - case_decide as Hc; [|apply IH; [set_solver|done]].
    destruct (rec st c (s + 1)) as [st1| |] eqn:Hr; cbn; [|done..].
    apply IH; [set_solver|]. apply (Hrec st c (s + 1) st1); [done|set_solver|tauto|done].
Qed.

Lemma schedule_task_preserves fuel :
  keeps_inv actions rh0 (schedule_task agents rd dc fuel).
Proof.
  induction fuel as [|fuel IH]; intros st task d st' Hinv Htask Hmem; [done|].
  cbn [schedule_task].
  destruct (find_stage agents fuel st task d) as [[s assigned]| |] eqn:Hfind;
    cbn; [|done..].
  apply find_stage_Done in Hfind as [_ Htry].
  destruct (assign st task s assigned) as [st1| |] eqn:Hassign; cbn; [|done..].
  apply schedule_children_preserves; [done| |by eapply assign_preserves].
  intros c Hc%sorted_desc_elem_of.
  destruct (rd !! act_id task) as [l|] eqn:Hl; simpl in Hc; [by eapply Hrd|].
  by apply not_elem_of_nil in Hc.
Qed.

Lemma schedule_roots_preserves fuel tasks st st' :
  tasks ⊆ actions → plan_inv actions rh0 st →
  schedule_roots agents rd dc fuel tasks st = Done st' →
  plan_inv actions rh0 st'.
Proof.
  revert st. induction tasks as [|t ts IH]; intros st Hts Hinv; cbn [schedule_roots].
  - by intros [= <-].
  - case_decide as Ht; [|apply IH; [set_solver|done]].
    destruct (schedule_task agents rd dc fuel st t 1) as [st1| |] eqn:Hr; cbn; [|done..].
    apply IH; [set_solver|].
    apply (schedule_task_preserves fuel st t 1 st1); [done|set_solver|done..].
Qed.

Lemma schedule_available_preserves fuel tasks st st' :
  tasks ⊆ actions → plan_inv actions rh0 st →
  schedule_available agents rd dc fuel tasks st = Done st' →
  plan_inv actions rh0 st'.
Proof.
  revert st. induction tasks as [|t ts IH]; intros st Hts Hinv; cbn [schedule_available].
  - by intros [= <-].
  - case_decide as Ht; [|apply IH; [set_solver|done]].
    destruct (desired_stage _ _) as [d| |]; cbn; [|done..].
    destruct (schedule_task agents rd dc fuel st t d) as [st1| |] eqn:Hr; cbn; [|done..].
    apply IH; [set_solver|].
    apply (schedule_task_preserves fuel st t d st1); [done|set_solver|done..].
Qed.

Lemma available_actions_subseteq st :
  plan_inv actions rh0 st → available_actions st ⊆ actions.
Proof.
  intros Hinv a [_ Ha]%list_elem_of_filter.
  apply list_elem_of_fmap in Ha as ([k a'] & -> & Hin).
  by apply (inv_unassigned _ _ _ Hinv) in Hin as [? _].
Qed.

Lemma schedule_remaining_preserves fuel st st' :
  plan_inv actions rh0 st →
  schedule_remaining agents rd dc fuel st = Done st' →
  plan_inv actions rh0 st' ∧ unassigned_actions st' = [].
Proof.
  revert st. induction fuel as [|fuel IH]; intros st Hinv; [done|].
  cbn [schedule_remaining].
  destruct (unassigned_actions st) as [|kv un] eqn:Hun.
  { by intros [= <-]. }
  pose proof (available_actions_subseteq st Hinv) as Hav.
  destruct (available_actions st) as [|a av]; [done|].
  destruct (schedule_available _ _ _ _ _ _) as [st1| |] eqn:Hr; cbn; [|done..].
  apply IH. eapply schedule_available_preserves; [|done..].
  intros x Hx%sorted_desc_elem_of. by apply Hav.
Qed.
End InvariantRun.

Lemma initial_state_inv actions rh : plan_inv actions rh (initial_state rh actions).
Proof.
  destruct (build_unassigned_spec actions) as [H1 H2].
  split; cbn; try done.
  - intros a Ha. left. by apply H2.
  - intros o ag Ho. by left.
Qed.

(** The state in which a call of [plan_parallel_actions] returns. *)
Lemma plan_parallel_actions_Done fuel rh actions agents r rh' :
  plan_parallel_actions fuel rh actions agents = Done (r, rh') →
  ∃ st, plan_inv actions rh st
        ∧ unassigned_actions st = []
        ∧ stages r = stage_assignments st
        ∧ action_dependencies r = build_action_dependencies actions
        ∧ rh' = recent_handler st
        ∧ validate_dependencies actions = Done tt.
Proof.
  unfold plan_parallel_actions, plan_roots.
  destruct (validate_dependencies actions) as [[]| |] eqn:Hval; cbn; [|done..].
  destruct (schedule_roots _ _ _ _ _ _) as [st1| |] eqn:Hroots; cbn; [|done..].
  destruct (schedule_remaining _ _ _ _ _) as [st2| |] eqn:Hrem; cbn; [|done..].
  intros [= <- <-]. exists st2.
  apply schedule_roots_preserves with (actions := actions) (rh0 := rh) in Hroots.
  - apply schedule_remaining_preserves with (actions := actions) (rh0 := rh) in Hrem
      as [Hinv Hun]; [done|apply build_reverse_dependencies_elem_of|done].
  - apply build_reverse_dependencies_elem_of.
  - intros a Ha%sorted_desc_elem_of. unfold root_tasks in Ha.
    by apply list_elem_of_filter in Ha as [_ ?].
  - apply initial_state_inv.
Qed.

(** ** Properties of every result *)

Lemma plan_stages_disjoint fuel rh actions agents r rh' :
  plan_parallel_actions fuel rh actions agents = Done (r, rh') →
  stages_disjoint (stages r).
Proof.
  intros (st & Hinv & _ & -> & _)%plan_parallel_actions_Done.
  apply (inv_disjoint _ _ _ Hinv).
Qed.

Lemma plan_assigned_once fuel rh actions agents r rh' a :
  plan_parallel_actions fuel rh actions agents = Done (r, rh') →
  a ∈ actions → assigned_once r (act_id a).
Proof.
  intros (st & Hinv & Hun & Hst & _)%plan_parallel_actions_Done Ha.
  destruct (inv_partition _ _ _ Hinv a Ha) as [Hmem|[s Hs]].
  { unfold dict_mem in Hmem. rewrite Hun in Hmem. by apply not_elem_of_nil in Hmem. }
  destruct (inv_assigned _ _ _ Hinv _ _ Hs) as (l & asg & Hl & Hin & Hid).
  apply list_elem_of_lookup in Hin as [i Hi].
  exists s, i, asg. unfold assignment_at. rewrite Hst.
  split_and!; [by exists l|done| |].
  - apply (inv_assignment _ _ _ Hinv s l asg Hl). by eapply list_elem_of_lookup_2.
  - intros s' i' asg' (l' & Hl' & Hi') Hid'.
    destruct (inv_assignment _ _ _ Hinv s' l' asg' Hl') as (_ & Hs' & _).
    { by eapply list_elem_of_lookup_2. }
    assert (s' = s) as -> by congruence. split; [done|].
    assert (l' = l) as -> by congruence.
    eapply (NoDup_lookup (action_id <$> l)); [by eapply (inv_nodup _ _ _ Hinv)|..].
    + by rewrite list_lookup_fmap, Hi'.
    + rewrite list_lookup_fmap, Hi. simpl. congruence.
Qed.

Lemma plan_assignment_made_for fuel rh actions agents r rh' s i asg :
  plan_parallel_actions fuel rh actions agents = Done (r, rh') →
  assignment_at r s i asg →
  ∃ a, a ∈ actions ∧ made_for a asg
       ∧ (tracked a → ∀ o, o ∈ objects a →
          ∃ ag, rh' !! o = Some ag ∧ written_by actions (stages r) o ag).
Proof.
  intros (st & Hinv & _ & Hst & _ & -> & _)%plan_parallel_actions_Done (l & Hl & Hi).
  rewrite Hst in Hl |- *.
  destruct (inv_assignment _ _ _ Hinv s l asg Hl) as (_ & _ & H); [|done].
  by eapply list_elem_of_lookup_2.
Qed.

(** C3. In every result of [plan_parallel_actions], two different
    assignments of one stage have no agent identifier in common. *)
Theorem agents_disjoint_within_stage fuel rh actions agents r rh' :
  plan_parallel_actions fuel rh actions agents = Done (r, rh') →
  stages_disjoint (stages r).
Proof. apply plan_stages_disjoint. Qed.

(** ** Which exceptions can be raised where *)

Lemma find_stage_no_raise agents fuel st task d e :
  find_stage agents fuel st task d ≠ Raise e.
Proof.
  revert d. induction fuel as [|fuel IH]; intros d; cbn [find_stage]; [done|].
  destruct (try_stage agents st task d); [done|apply IH].
Qed.

Lemma assign_raise st task s assigned e :
  assign st task s assigned = Raise e → e = IndexError.
Proof.
  unfold assign, update_object_tracking, track_objects. cbn.
  repeat case_decide;
    destruct (objects task), assigned; cbn; intros; by simplify_eq.
Qed.

Section Raises.
Context (agents : list Agent) (rd : gmap string (list Action)) (dc : gmap string nat).

Lemma schedule_children_raise rec cs s st e :
  (∀ st task d e, rec st task d = Raise e → e = IndexError) →
  schedule_children rec cs s st = Raise e → e = IndexError.
Proof.
  intros Hrec. revert st. induction cs as [|c cs IH]; intros st; cbn [schedule_children].
  - done.
  - case_decide; [|apply IH].
    destruct (rec st c (s + 1)) as [st1| |] eqn:Hr; cbn; [apply IH| |done].
    intros [= <-]. by eapply Hrec.
Qed.

Lemma schedule_task_raise fuel st task d e :
  schedule_task agents rd dc fuel st task d = Raise e → e = IndexError.
Proof.
  revert st task d e. induction fuel as [|fuel IH]; intros st task d e; [done|].
  cbn [schedule_task].
  destruct (find_stage agents fuel st task d) as [[s assigned]|e'|] eqn:Hfind; cbn;
    [|by apply find_stage_no_raise in Hfind|done].
  destruct (assign st task s assigned) as [st1| |] eqn:Hassign; cbn; [| |done].
  - by apply schedule_children_raise.
  - intros [= <-]. by eapply assign_raise.
Qed.

Lemma schedule_roots_raise fuel tasks st e :
  schedule_roots agents rd dc fuel tasks st = Raise e → e = IndexError.
Proof.
  revert st. induction tasks as [|t ts IH]; intros st; cbn [schedule_roots]; [done|].
  case_decide; [|apply IH].
  destruct (schedule_task agents rd dc fuel st t 1) as [st1| |] eqn:Hr; cbn;
    [apply IH| |done].
  intros [= <-]. by eapply schedule_task_raise.
Qed.

Lemma dep_stages_raise assigned deps e :
  dep_stages assigned deps = Raise e → e = KeyError.
Proof.
  induction deps as [|dep deps IH]; cbn [dep_stages]; [done|].
  destruct (assigned !! dep); [|by intros [= <-]].
  destruct (dep_stages assigned deps); cbn; [done| |done].
  intros [= <-]. by apply IH.
Qed.

Lemma schedule_available_raise fuel tasks st e :
  schedule_available agents rd dc fuel tasks st = Raise e →
  e = IndexError ∨ e = KeyError.
Proof.
  revert st. induction tasks as [|t ts IH]; intros st; cbn [schedule_available]; [done|].
  case_decide; [|apply IH].
  unfold desired_stage.
  destruct (dep_stages _ _) as [ss| |] eqn:Hss; cbn; [| |done].
  - assert (∀ d, (schedule_task agents rd dc fuel st t d
                    ≫= schedule_available agents rd dc fuel ts) = Raise e →
                 e = IndexError ∨ e = KeyError) as Hgo.
    { intros d. destruct (schedule_task agents rd dc fuel st t d) as [st1| |] eqn:Hr;
        cbn; [apply IH| |done].
      intros [= <-]. left. by eapply schedule_task_raise. }
    destruct ss; cbn; apply Hgo.
  - intros [= <-]. right. by eapply dep_stages_raise.
Qed.

(** *** Starvation *)

Lemma schedule_remaining_starvation fuel st ids :
  schedule_remaining agents rd dc fuel st = Raise (SchedulingStarvation ids) →
  ∃ st', rtc (scan_step agents rd dc) st st' ∧ starved st'
         ∧ ids = (unassigned_actions st').*1.
Proof.
  revert st. induction fuel as [|fuel IH]; intros st; [done|].
  cbn [schedule_remaining].
  destruct (unassigned_actions st) as [|kv un] eqn:Hun; [done|].
  destruct (available_actions st) as [|a av] eqn:Hav.
  - intros [= <-]. exists st. unfold starved. rewrite Hun, Hav. by split_and!.
  - destruct (schedule_available _ _ _ _ _ _) as [st1|e|] eqn:Hr; cbn; [| |done].
    + intros (st' & Hsteps & Hst')%IH. exists st'. split; [|done].
      eapply rtc_l; [|done]. unfold scan_step. rewrite Hun, Hav.
      split_and!; [done..|]. by exists fuel.
    + intros [= ->]. by apply schedule_available_raise in Hr as [?|?].
Qed.

Lemma scans_starvation st st' :
  rtc (scan_step agents rd dc) st st' → starved st' →
  ∃ fuel, schedule_remaining agents rd dc fuel st
          = Raise (SchedulingStarvation (unassigned_actions st').*1).
Proof.
  intros Hsteps [Hun Hav].
  induction Hsteps as [st|st st1 st' (Hun1 & Hav1 & fa & Ha) _ IH].
  - exists 1%nat. cbn. rewrite Hav. by destruct (unassigned_actions st).
  - destruct (IH Hun Hav) as [fb Hb].
    exists (S (Nat.max fa fb)). cbn [schedule_remaining].
    destruct (unassigned_actions st); [done|].
    destruct (available_actions st) as [|a av] eqn:Hav'; [done|].
    rewrite (refines_done _ _
      (eq_ind _ (λ r, r ⊑ _) (schedule_available_mono agents rd dc fa (Nat.max fa fb) _ st
         (Nat.le_max_l _ _)) _ Ha)).
    cbn.
    destruct (schedule_remaining_mono agents rd dc fb (Nat.max fa fb) st1
                (Nat.le_max_r _ _)) as [Ht|Heq]; congruence.
Qed.
End Raises.

Lemma plan_roots_no_starvation fuel rh actions agents ids :
  plan_roots fuel rh actions agents ≠ Raise (SchedulingStarvation ids).
Proof.
  unfold plan_roots.
  destruct (validate_dependencies_cases actions)
    as [(_ & a & dep & ->)|[(_ & _ & a & ->)|(_ & _ & ->)]]; cbn; [done..|].
  intros Hr. by apply schedule_roots_raise in Hr.
Qed.

Lemma plan_starvation_iff rh actions agents ids :
  (∃ fuel, plan_parallel_actions fuel rh actions agents = Raise (SchedulingStarvation ids))
  ↔ ∃ st, fallback_scan rh actions agents st ∧ starved st
          ∧ ids = (unassigned_actions st).*1.
Proof.
  unfold fallback_scan, plan_parallel_actions. split.
  - intros [fuel Hr].
    destruct (plan_roots fuel rh actions agents) as [st0|e|] eqn:Hroots; cbn in Hr;
      [| |done].
    + destruct (schedule_remaining _ _ _ _ _) as [st1|e|] eqn:Hrem; cbn in Hr; [done| |done].
      injection Hr as ->.
      apply schedule_remaining_starvation in Hrem as (st' & ? & ? & ?).
      exists st'. split_and!; [|done..]. exists st0. split; [by exists fuel|done].
    + injection Hr as ->. by apply plan_roots_no_starvation in Hroots.
  - intros (st & (st0 & [fa Ha] & Hsteps) & Hst & ->).
    destruct (scans_starvation _ _ _ _ _ Hsteps Hst) as [fb Hb].
    exists (Nat.max fa fb).
    destruct (plan_roots_mono fa (Nat.max fa fb) rh actions agents (Nat.le_max_l _ _))
      as [Ht|Heq]; [congruence|]. rewrite <-Heq, Ha. cbn.
    destruct (schedule_remaining_mono agents (build_reverse_dependencies actions)
                (build_dependency_count (build_reverse_dependencies actions) actions)
                fb (Nat.max fa fb) st0 (Nat.le_max_r _ _)) as [Ht|Heq']; [congruence|].
    by rewrite <-Heq', Hb.
Qed.

(** ** The [max] field is never read *)

Section MaxUnused.
Context (f : Action → Z).
Abbreviation g := (with_max f).
Abbreviation gl := (fmap (M:=list) (with_max f)).

Lemma with_max_ids (l : list Action) : act_id <$> (g <$> l) = act_id <$> l.
Proof. rewrite <-list_fmap_compose. by apply list_fmap_ext. Qed.

Lemma first_missing_with_max ids (l : list Action) :
  first_missing ids (g <$> l) = first_missing ids l.
Proof. induction l as [|a l IH]; cbn; [done|]. by rewrite IH. Qed.

Lemma lookup_action_with_max (l : list Action) aid :
  lookup_action (g <$> l) aid = g <$> lookup_action l aid.
Proof.
  unfold lookup_action. induction l as [|a l IH]; cbn; [done|].
  by destruct (bool_decide (act_id a = aid)).
Qed.

Lemma cycle_in_deps_ext rec rec' deps V P :
  (∀ aid V P, rec aid V P = rec' aid V P) →
  cycle_in_deps rec deps V P = cycle_in_deps rec' deps V P.
Proof.
  intros Hrec. revert V P. induction deps as [|d deps IH]; intros V P; cbn; [done|].
  rewrite Hrec. destruct (rec' d V P) as [[[[] ?] ?]| |]; cbn; auto.
Qed.

Lemma has_cycle_with_max fuel (l : list Action) aid V P :
  has_cycle fuel (g <$> l) aid V P = has_cycle fuel l aid V P.
Proof.
  revert aid V P. induction fuel as [|fuel IH]; intros aid V P; cbn [has_cycle]; [done|].
  repeat case_decide; try done.
  rewrite lookup_action_with_max. destruct (lookup_action l aid) as [a|]; cbn; [|done].
  by rewrite (cycle_in_deps_ext _ (has_cycle fuel l)).
Qed.

Lemma cycle_scan_with_max fuel (l todo : list Action) V :
  cycle_scan fuel (g <$> l) (g <$> todo) V = cycle_scan fuel l todo V.
Proof.
  revert V. induction todo as [|a todo IH]; intros V; cbn; [done|].
  case_decide; [done|]. rewrite has_cycle_with_max.
  destruct (has_cycle fuel l (act_id a) V ∅) as [[[[] ?] ?]| |]; cbn; auto.
Qed.

Lemma validate_dependencies_with_max (l : list Action) :
  validate_dependencies (g <$> l) = validate_dependencies l.
Proof.
  unfold validate_dependencies, action_ids.
  by rewrite with_max_ids, first_missing_with_max, length_fmap, cycle_scan_with_max.
Qed.

Lemma build_reverse_dependencies_with_max (l : list Action) :
  build_reverse_dependencies (g <$> l) = gl <$> build_reverse_dependencies l.
Proof.
  unfold build_reverse_dependencies.
  assert (∀ a deps (rd : gmap string (list Action)),
    foldl (λ rd dep, <[dep := default [] (rd !! dep) ++ [g a]]> rd) (gl <$> rd) deps
    = gl <$> foldl (λ rd dep, <[dep := default [] (rd !! dep) ++ [a]]> rd) rd deps)
    as Hinner.
  { intros a deps. induction deps as [|dep deps IH]; intros rd; cbn [foldl]; [done|].
    rewrite <-IH. f_equal. rewrite fmap_insert, lookup_fmap. f_equal.
    rewrite fmap_app. f_equal. by destruct (rd !! dep). }
  assert (∀ rd : gmap string (list Action),
    foldl (λ rd a, foldl (λ rd dep, <[dep := default [] (rd !! dep) ++ [a]]> rd)
                         rd (depends_on a)) (gl <$> rd) (g <$> l)
    = gl <$> foldl (λ rd a, foldl (λ rd dep, <[dep := default [] (rd !! dep) ++ [a]]> rd)
                                      rd (depends_on a)) rd l) as Houter.
  { induction l as [|a l' IH]; intros rd; cbn [foldl fmap list_fmap]; [done|].
    rewrite <-IH. f_equal. apply Hinner. }
  rewrite <-Houter. by rewrite fmap_empty.
Qed.

Lemma build_dependency_count_with_max (rd : gmap string (list Action)) (l : list Action) :
  build_dependency_count (gl <$> rd) (g <$> l) = build_dependency_count rd l.
Proof.
  unfold build_dependency_count. generalize (∅ : gmap string nat).
  induction l as [|a l IH]; intros dc; cbn [foldl fmap list_fmap]; [done|].
  rewrite IH. do 2 f_equal. cbn. rewrite lookup_fmap.
  destruct (rd !! act_id a); cbn; [by rewrite length_fmap|done].
Qed.

Lemma dict_set_with_max k a (d : list (string * Action)) :
  dict_set k (g a) (prod_map id g <$> d) = prod_map id g <$> dict_set k a d.
Proof.
  induction d as [|[k' a'] d IH]; cbn; [done|].
  case_decide; cbn; [done|]. by rewrite IH.
Qed.

Lemma build_unassigned_with_max (l : list Action) :
  build_unassigned (g <$> l) = prod_map id g <$> build_unassigned l.
Proof.
  unfold build_unassigned.
  change (@nil (string * Action)) with (prod_map id g <$> @nil (string * Action)) at 1.
  generalize (@nil (string * Action)).
  induction l as [|a l IH]; intros d; cbn [foldl fmap list_fmap]; [done|].
  rewrite <-IH. f_equal. apply (dict_set_with_max (act_id a)).
Qed.

Lemma build_action_dependencies_with_max (l : list Action) :
  build_action_dependencies (g <$> l) = build_action_dependencies l.
Proof.
  unfold build_action_dependencies. generalize (∅ : gmap string (list string)).
  induction l as [|a l IH]; intros m; cbn [foldl fmap list_fmap]; [done|]. by rewrite IH.
Qed.

Lemma insert_desc_with_max (key : Action → nat) a (l : list Action) :
  (∀ x, key (g x) = key x) →
  insert_desc key (g a) (g <$> l) = g <$> insert_desc key a l.
Proof.
  intros Hkey. induction l as [|b l IH]; cbn; [done|].
  rewrite !Hkey. case_decide; cbn; [by rewrite IH|done].
Qed.

Lemma sorted_desc_with_max (key : Action → nat) (l : list Action) :
  (∀ x, key (g x) = key x) →
  sorted_desc key (g <$> l) = g <$> sorted_desc key l.
Proof.
  intros Hkey. unfold sorted_desc. induction l as [|a l IH]; cbn; [done|].
  rewrite IH. by apply insert_desc_with_max.
Qed.

Lemma root_tasks_with_max (l : list Action) : root_tasks (g <$> l) = g <$> root_tasks l.
Proof.
  unfold root_tasks. induction l as [|a l IH]; [done|].
  rewrite fmap_cons, !filter_cons. cbn. rewrite IH. by case_decide.
Qed.

Lemma dict_keys_with_max (d : list (string * Action)) :
  (prod_map id g <$> d).*1 = d.*1.
Proof. rewrite <-list_fmap_compose. by apply list_fmap_ext; intros ? [? ?]. Qed.

Lemma dict_mem_with_max k st :
  dict_mem k (unassigned_actions (map_unassigned g st))
  ↔ dict_mem k (unassigned_actions st).
Proof. unfold dict_mem. cbn. by rewrite dict_keys_with_max. Qed.

Lemma dict_del_with_max k (d : list (string * Action)) :
  dict_del k (prod_map id g <$> d) = prod_map id g <$> dict_del k d.
Proof.
  unfold dict_del. induction d as [|[k' a] d IH]; [done|].
  rewrite fmap_cons, !filter_cons. cbn. rewrite IH. by case_decide.
Qed.

Lemma available_actions_with_max st :
  available_actions (map_unassigned g st) = g <$> available_actions st.
Proof.
  unfold available_actions. cbn.
  induction (unassigned_actions st) as [|[k a] d IH]; [done|].
  rewrite !fmap_cons, !filter_cons. cbn. rewrite IH. by case_decide.
Qed.

Section Run.
Context (agents : list Agent) (rd : gmap string (list Action)) (dc : gmap string nat).

Lemma find_stage_with_max fuel st task d :
  find_stage agents fuel (map_unassigned g st) (g task) d
  = find_stage agents fuel st task d.
Proof.
  revert d. induction fuel as [|fuel IH]; intros d; cbn [find_stage]; [done|].
  change (try_stage agents (map_unassigned g st) (g task) d)
    with (try_stage agents st task d).
  destruct (try_stage agents st task d); [done|apply IH].
Qed.

Lemma assign_with_max st task s assigned :
  assign (map_unassigned g st) (g task) s assigned
  = map_unassigned g <$> assign st task s assigned.
Proof.
  unfold assign.
  change (update_object_tracking
            (recent_handler (record_assignment (map_unassigned g st) (g task) s assigned))
            (g task) assigned)
    with (update_object_tracking (recent_handler st) task assigned).
  change (update_object_tracking
            (recent_handler (record_assignment st task s assigned)) task assigned)
    with (update_object_tracking (recent_handler st) task assigned).
  destruct (update_object_tracking (recent_handler st) task assigned); cbn; [|done..].
  unfold map_unassigned, set_recent_handler, record_assignment. cbn.
  by rewrite <-dict_del_with_max.
Qed.

Lemma schedule_children_with_max rec rec' (cs : list Action) s st :
  (∀ st task d, rec' (map_unassigned g st) (g task) d = map_unassigned g <$> rec st task d) →
  schedule_children rec' (g <$> cs) s (map_unassigned g st)
  = map_unassigned g <$> schedule_children rec cs s st.
Proof.
  intros Hrec. revert st.
  induction cs as [|c cs IH]; intros st; cbn [schedule_children fmap list_fmap]; [done|].
  rewrite (decide_ext _ (dict_mem (act_id c) (unassigned_actions st)
                         ∧ deps_assigned (assigned_actions st) (depends_on c)))
    by (by rewrite dict_mem_with_max).
  case_decide; [|apply IH].
  rewrite Hrec. destruct (rec st c (s + 1)); cbn; [apply IH|done..].
Qed.

Lemma schedule_task_with_max fuel st task d :
  schedule_task agents (gl <$> rd) dc fuel (map_unassigned g st) (g task) d
  = map_unassigned g <$> schedule_task agents rd dc fuel st task d.
Proof.
  revert st task d. induction fuel as [|fuel IH]; intros st task d; [done|].
  cbn [schedule_task]. rewrite find_stage_with_max.
  destruct (find_stage agents fuel st task d) as [[s assigned]| |]; cbn; [|done..].
  rewrite assign_with_max.
  destruct (assign st task s assigned) as [st1| |]; cbn; [|done..].
  rewrite lookup_fmap.
  replace (default [] (gl <$> rd !! act_id task))
    with (g <$> default [] (rd !! act_id task)) by (by destruct (rd !! act_id task)).
  rewrite sorted_desc_with_max by done.
  by apply schedule_children_with_max.
Qed.

Lemma schedule_roots_with_max fuel (tasks : list Action) st :
  schedule_roots agents (gl <$> rd) dc fuel (g <$> tasks) (map_unassigned g st)
  = map_unassigned g <$> schedule_roots agents rd dc fuel tasks st.
Proof.
  revert st.
  induction tasks as [|t ts IH]; intros st; cbn [schedule_roots fmap list_fmap]; [done|].
  rewrite (decide_ext _ (dict_mem (act_id t) (unassigned_actions st)))
    by apply dict_mem_with_max.
  case_decide; [|apply IH].
  rewrite schedule_task_with_max.
  destruct (schedule_task agents rd dc fuel st t 1); cbn; [apply IH|done..].
Qed.

Lemma schedule_available_with_max fuel (tasks : list Action) st :
  schedule_available agents (gl <$> rd) dc fuel (g <$> tasks) (map_unassigned g st)
  = map_unassigned g <$> schedule_available agents rd dc fuel tasks st.
Proof.
  revert st.
  induction tasks as [|t ts IH]; intros st; cbn [schedule_available fmap list_fmap]; [done|].
  rewrite (decide_ext _ (dict_mem (act_id t) (unassigned_actions st)))
    by apply dict_mem_with_max.
  case_decide; [|apply IH].
  change (desired_stage (assigned_actions (map_unassigned g st)) (depends_on (g t)))
    with (desired_stage (assigned_actions st) (depends_on t)).
  destruct (desired_stage (assigned_actions st) (depends_on t)) as [d| |]; cbn; [|done..].
  rewrite schedule_task_with_max.
  destruct (schedule_task agents rd dc fuel st t d); cbn; [apply IH|done..].
Qed.

Lemma schedule_remaining_with_max fuel st :
  schedule_remaining agents (gl <$> rd) dc fuel (map_unassigned g st)
  = map_unassigned g <$> schedule_remaining agents rd dc fuel st.
Proof.
  revert st. induction fuel as [|fuel IH]; intros st; [done|].
  cbn [schedule_remaining]. rewrite available_actions_with_max.
  cbn [unassigned_actions map_unassigned].
  destruct (unassigned_actions st) as [|kv un] eqn:Hun; cbn [fmap list_fmap]; [done|].
  destruct (available_actions st) as [|a av] eqn:Hav; cbn [fmap list_fmap].
  - change (prod_map id g kv :: (prod_map id g <$> un))
      with (prod_map id g <$> (kv :: un)).
    by rewrite dict_keys_with_max.
  - change (g a :: (g <$> av)) with (g <$> (a :: av)).
    rewrite sorted_desc_with_max by done.
    rewrite schedule_available_with_max.
    destruct (schedule_available _ _ _ _ _ st); cbn; [apply IH|done..].
Qed.
End Run.

Lemma plan_parallel_actions_with_max fuel rh (actions : list Action) agents :
  plan_parallel_actions fuel rh (g <$> actions) agents
  = plan_parallel_actions fuel rh actions agents.
Proof.
  unfold plan_parallel_actions, plan_roots.
  rewrite validate_dependencies_with_max, build_reverse_dependencies_with_max,
    build_dependency_count_with_max, root_tasks_with_max, build_action_dependencies_with_max.
  destruct (validate_dependencies actions) as [[]| |]; cbn; [|done..].
  rewrite sorted_desc_with_max by done.
  change (initial_state rh (g <$> actions))
    with {| recent_handler := rh; assigned_actions := ∅; stage_assignments := ∅;
            unassigned_actions := build_unassigned (g <$> actions) |}.
  rewrite build_unassigned_with_max.
  change {| recent_handler := rh; assigned_actions := ∅; stage_assignments := ∅;
            unassigned_actions := prod_map id g <$> build_unassigned actions |}
    with (map_unassigned g (initial_state rh actions)).
  rewrite schedule_roots_with_max.
  destruct (schedule_roots _ _ _ _ _ (initial_state rh actions)) as [st1| |]; cbn; [|done..].
  rewrite schedule_remaining_with_max.
  by destruct (schedule_remaining _ _ _ _ st1).
Qed.
End MaxUnused.

(** ** The chair assembly *)

(** Closes [x = y] between closed terms by evaluating [x]. *)
Ltac by_evaluation :=
  lazymatch goal with |- ?x = ?y => vm_cast_no_check (eq_refl y) end.

Lemma chair_validates : validate_dependencies Chair.actions = Done tt.
Proof. by vm_compute. Qed.

Lemma chair_run n :
  plan_parallel_actions (4 + n)%nat ∅ Chair.actions Chair.agents
  = Done (Chair.result, Chair.handlers).
Proof.
  assert (plan_parallel_actions 4 ∅ Chair.actions Chair.agents
          = Done (Chair.result, Chair.handlers)) as H4 by by_evaluation.
  apply refines_done. rewrite <-H4. apply plan_parallel_actions_mono. lia.
Qed.

Lemma chair_run_again n :
  plan_parallel_actions (4 + n)%nat Chair.handlers Chair.actions Chair.agents
  = Done (Chair.result_again, Chair.handlers_again).
Proof.
  assert (plan_parallel_actions 4 Chair.handlers Chair.actions Chair.agents
          = Done (Chair.result_again, Chair.handlers_again)) as H4 by by_evaluation.
  apply refines_done. rewrite <-H4. apply plan_parallel_actions_mono. lia.
Qed.

Lemma chair_run_unique fuel r rh' :
  plan_parallel_actions fuel ∅ Chair.actions Chair.agents = Done (r, rh') →
  r = Chair.result ∧ rh' = Chair.handlers.
Proof.
  intros Hr.
  pose proof (plan_parallel_actions_det fuel 4 ∅ Chair.actions Chair.agents _ _
                Hr ltac:(done) (chair_run 0) ltac:(done)) as Heq.
  by injection Heq as -> ->.
Qed.

(** The table of the chair plan. *)
Lemma chair_in_stage s i :
  in_stage Chair.result s i →
  (s, i) ∈ [(1, "1"); (1, "2"); (1, "3"); (2, "7"); (2, "8"); (2, "4");
            (3, "9"); (3, "5"); (3, "6"); (4, "10"); (4, "11")].
Proof.
  intros (asg & Hin & <-). cbn in Hin. unfold Chair.plan in Hin.
  repeat (rewrite lookup_insert in Hin; case_decide;
          [subst; cbn in Hin; set_unfold; destruct_or!; subst; cbn; tauto|]).
  rewrite lookup_empty in Hin. by apply not_elem_of_nil in Hin.
Qed.

Lemma chair_in_stage_at s a ags :
  Chair.asg a ags s ∈ default [] (Chair.plan !! s) → in_stage Chair.result s (act_id a).
Proof. intros Hin. by exists (Chair.asg a ags s). Qed.

Lemma chair_stage_facts :
  in_stage Chair.result 1 "1" ∧ in_stage Chair.result 1 "2" ∧ in_stage Chair.result 1 "3"
  ∧ in_stage Chair.result 2 "4" ∧ in_stage Chair.result 3 "5" ∧ in_stage Chair.result 3 "6"
  ∧ in_stage Chair.result 2 "7" ∧ in_stage Chair.result 2 "8".
Proof.
  split_and!.
  - apply (chair_in_stage_at 1 Chair.a1 [Chair.A]). vm_compute. set_solver.
  - apply (chair_in_stage_at 1 Chair.a2 [Chair.B]). vm_compute. set_solver.
  - apply (chair_in_stage_at 1 Chair.a3 [Chair.C]). vm_compute. set_solver.
  - apply (chair_in_stage_at 2 Chair.a4 [Chair.B]). vm_compute. set_solver.
  - apply (chair_in_stage_at 3 Chair.a5 [Chair.A]). vm_compute. set_solver.
  - apply (chair_in_stage_at 3 Chair.a6 [Chair.C]). vm_compute. set_solver.
  - apply (chair_in_stage_at 2 Chair.a7 [Chair.A]). vm_compute. set_solver.
  - apply (chair_in_stage_at 2 Chair.a8 [Chair.C]). vm_compute. set_solver.
Qed.

Lemma chair_stage_unique s i k :
  (k, i) ∈ [(1, "1"); (1, "2"); (1, "3"); (2, "4"); (3, "5"); (3, "6"); (2, "7"); (2, "8")] →
  in_stage Chair.result s i → s = k.
Proof.
  intros Hk Hin%chair_in_stage. set_unfold. destruct_or!; simplify_eq; done.
Qed.

(** C1, at the chair assembly of the [__main__] block.  The input passes
    validation and the planner returns, with attach "8" in stage 2, the
    stage of attach "7" on which it depends: the recursion of
    [schedule_task] starts a child one stage after the parent that made it
    ready (fetch "3", stage 1), not after the latest of its dependencies. *)
Theorem chair_attach_not_after_dependency :
  validate_dependencies Chair.actions = Done tt
  ∧ (∀ n, plan_parallel_actions (4 + n)%nat ∅ Chair.actions Chair.agents
          = Done (Chair.result, Chair.handlers))
  ∧ Chair.a8 ∈ Chair.actions
  ∧ "7" ∈ depends_on Chair.a8
  ∧ in_stage Chair.result 2 (act_id Chair.a8)
  ∧ in_stage Chair.result 2 "7"
  ∧ ¬ stages_respect_dependencies Chair.actions Chair.result.
Proof.
  destruct chair_stage_facts as (_ & _ & _ & _ & _ & _ & H7 & H8).
  assert (Chair.a8 ∈ Chair.actions) as Hin by (unfold Chair.actions; set_solver).
  assert ("7" ∈ depends_on Chair.a8) as Hdep by (cbn; set_solver).
  split_and!; [apply chair_validates|apply chair_run|done..|].
  intros Hresp. specialize (Hresp Chair.a8 "7" 2 2 Hin Hdep H8 H7). lia.
Qed.

(** C2, as stated, fails: the planner returns for the chair, and what it
    returns is not the expected plan. *)
Lemma chair_fetches_not_all_in_stage_1 :
  (∃ fuel r rh',
     plan_parallel_actions fuel ∅ Chair.actions Chair.agents = Done (r, rh'))
  ∧ ¬ ∃ fuel r rh',
        plan_parallel_actions fuel ∅ Chair.actions Chair.agents = Done (r, rh')
        ∧ Chair.expected r.
Proof.
  split.
  - exists 4%nat, Chair.result, Chair.handlers. apply (chair_run 0).
  - intros (fuel & r & rh' & [-> _]%chair_run_unique & Hall & _).
    assert (in_stage Chair.result 1 "4") as H4 by (apply Hall; set_solver).
    assert (1 = 2); [|done].
    eapply (chair_stage_unique 1 "4" 2); [set_solver|done].
Qed.

(** C2, amended.  On the chair assembly, in a fresh process, the planner
    returns, and in what it returns the fetches "1", "2" and "3" are in
    stage 1 and the fetches "4", "5" and "6" are in later stages (with three
    agents and one agent for each fetch, a stage holds at most three of
    them); no two assignments of a stage share an agent; and the back/seat
    attach "7" is placed, at a stage no earlier than 2. *)
Theorem chair_plan :
  (∃ fuel r rh',
     plan_parallel_actions fuel ∅ Chair.actions Chair.agents = Done (r, rh'))
  ∧ ∀ fuel r rh',
      plan_parallel_actions fuel ∅ Chair.actions Chair.agents = Done (r, rh') →
      (∀ i, i ∈ ["1"; "2"; "3"] → in_stage r 1 i ∧ ∀ s, in_stage r s i → s = 1)
      ∧ (∀ i, i ∈ ["4"; "5"; "6"] →
           (∃ s, in_stage r s i) ∧ ∀ s, in_stage r s i → 2 ≤ s)
      ∧ stages_disjoint (stages r)
      ∧ (∃ s, in_stage r s "7")
      ∧ ∀ s, in_stage r s "7" → 2 ≤ s.
Proof.
  split.
  { exists 4%nat, Chair.result, Chair.handlers. apply (chair_run 0). }
  intros fuel r rh' Hrun.
  pose proof (plan_stages_disjoint _ _ _ _ _ _ Hrun) as Hdis.
  apply chair_run_unique in Hrun as [-> _].
  destruct chair_stage_facts as (H1 & H2 & H3 & H4 & H5 & H6 & H7 & _).
  split_and!; [| |done|by exists 2|].
  - intros i Hi. set_unfold in Hi. split.
    + destruct_or!; by subst.
    + intros s. apply chair_stage_unique. set_unfold. destruct_or!; subst; tauto.
  - intros i Hi. set_unfold in Hi. split.
    + destruct_or!; subst; [by exists 2|by exists 3|by exists 3].
    + intros s Hs.
      destruct_or!; subst;
        [rewrite (chair_stage_unique s "4" 2)|rewrite (chair_stage_unique s "5" 3)
        |rewrite (chair_stage_unique s "6" 3)]; try done; set_solver.
  - intros s Hs. rewrite (chair_stage_unique s "7" 2); [done|set_solver|done].
Qed.

(** C6, as stated, fails in the chair run.  Fetch "2" gives the chair seat to
    agent B.  When the attach "7", which needs one agent and touches the
    chair seat, is attempted at stage 2, B is qualified and free there; the
    agent chosen is A, the handler of the chair back, which "7" lists
    first. *)
Lemma chair_attach_not_by_seat_fetcher :
  schedule_task Chair.agents (build_reverse_dependencies Chair.actions)
    (build_dependency_count (build_reverse_dependencies Chair.actions) Chair.actions)
    2 (initial_state ∅ Chair.actions) Chair.a1 1 = Done Chair.st1
  ∧ find_stage Chair.agents 1 Chair.st1 Chair.a2 1 = Done (1, [Chair.B])
  ∧ assign Chair.st1 Chair.a2 1 [Chair.B] = Done Chair.st2
  ∧ act_type Chair.a2 = "fetch"
  ∧ "chair_seat" ∈ objects Chair.a2
  ∧ req_min (required_agents Chair.a7) = 1
  ∧ "chair_seat" ∈ objects Chair.a7
  ∧ Chair.B ∈ filter (λ a, can_do_action a (act_type Chair.a7))
                (get_free_agents 2 (stage_assignments Chair.st2) Chair.agents)
  ∧ try_stage Chair.agents Chair.st2 Chair.a7 2 = Some [Chair.A]
  ∧ Chair.asg Chair.a7 [Chair.A] 2 ∈ default [] (stages Chair.result !! 2)
  ∧ Chair.A ≠ Chair.B.
Proof.
  split_and!; try (by vm_compute); try (cbn; set_solver).
Qed.

Lemma affinity_first_free_handler_witness :
  (act_type Chair.a1 = "fetch"
   ∧ "chair_back" ∈ objects Chair.a1
   ∧ assign (initial_state ∅ Chair.actions) Chair.a1 1 [Chair.A] = Done Chair.st1)
  ∧ recent_handler Chair.st1 !! "chair_back" = Some Chair.A
  ∧ try_stage Chair.agents Chair.st2 Chair.a7 2 = Some [Chair.A].
Proof.
  assert (act_type Chair.a1 = "fetch") as Hty by done.
  assert ("chair_back" ∈ objects Chair.a1) as Hobj by (cbn; set_solver).
  assert (assign (initial_state ∅ Chair.actions) Chair.a1 1 [Chair.A] = Done Chair.st1)
    as Hassign by by_evaluation.
  destruct (affinity_first_free_handler Chair.agents _ _ _ _ _ _ _ Hty Hobj Hassign)
    as [Hrh Hnext].
  split_and!; [done..|].
  apply (Hnext Chair.st2 Chair.a7 2 [] ["chair_seat"]).
  - by vm_compute.
  - done.
  - done.
  - vm_compute. set_solver.
  - intros o Y Ho. by apply not_elem_of_nil in Ho.
Defined.

Lemma agents_disjoint_within_stage_witness :
  plan_parallel_actions 4 ∅ Chair.actions Chair.agents = Done (Chair.result, Chair.handlers)
  ∧ stages_disjoint (stages Chair.result).
Proof.
  assert (plan_parallel_actions 4 ∅ Chair.actions Chair.agents
          = Done (Chair.result, Chair.handlers)) as Hrun by by_evaluation.
  split; [done|].
  exact (agents_disjoint_within_stage 4 ∅ Chair.actions Chair.agents _ _ Hrun).
Defined.

(** ** The minimum requirement *)

(** C4, as stated, fails for a negative [min]: the slice [preferred[:-1]] of
    the empty list is empty, so the assignment has no agent, which is more
    than [min] and not equal to it. *)
Lemma negative_minimum_not_met :
  plan_parallel_actions 3 ∅ NegativeMin.actions NegativeMin.agents
  = Done (NegativeMin.result, ∅)
  ∧ assignment_at NegativeMin.result 1 0 (Chair.asg NegativeMin.odd [] 1)
  ∧ Z.of_nat (length (assigned_agents (Chair.asg NegativeMin.odd [] 1)))
    ≠ req_min (required_agents NegativeMin.odd).
Proof.
  split_and!; [by vm_compute| |done].
  eexists. split; [by vm_compute|done].
Qed.

(** C4, amended.  In every result of [plan_parallel_actions], every
    assignment is that of an input action with its identifier, its agent
    list is at least as long as the action's [min], and exactly as long
    whenever [min] is not negative; no agent of the list has the constraint
    ["can't_<type>"]; and the result is the same whatever the [max] fields
    hold. *)
Theorem assignment_meets_minimum fuel rh actions agents r rh' :
  plan_parallel_actions fuel rh actions agents = Done (r, rh') →
  (∀ s i asg,
     assignment_at r s i asg →
     ∃ a, a ∈ actions
          ∧ act_id a = action_id asg
          ∧ req_min (required_agents a) ≤ Z.of_nat (length (assigned_agents asg))
          ∧ (0 ≤ req_min (required_agents a) →
             Z.of_nat (length (assigned_agents asg)) = req_min (required_agents a))
          ∧ ∀ agent, agent ∈ assigned_agents asg →
                     "can't_" +:+ act_type a ∉ constraints agent)
  ∧ ∀ f, plan_parallel_actions fuel rh (with_max f <$> actions) agents = Done (r, rh').
Proof.
  intros Hrun. split.
  - intros s i asg Hat.
    destruct (plan_assignment_made_for _ _ _ _ _ _ _ _ _ Hrun Hat)
      as (a & Ha & (Hid & _ & Hge & Heq & Hcan) & _).
    exists a. by split_and!.
  - intros f. by rewrite plan_parallel_actions_with_max.
Qed.

Lemma assignment_meets_minimum_witness :
  plan_parallel_actions 4 ∅ Chair.actions Chair.agents = Done (Chair.result, Chair.handlers)
  ∧ plan_parallel_actions 4 ∅ (with_max (λ _, 3) <$> Chair.actions) Chair.agents
    = Done (Chair.result, Chair.handlers).
Proof.
  assert (plan_parallel_actions 4 ∅ Chair.actions Chair.agents
          = Done (Chair.result, Chair.handlers)) as Hrun by by_evaluation.
  split; [done|].
  exact (proj2 (assignment_meets_minimum 4 ∅ Chair.actions Chair.agents _ _ Hrun) (λ _, 3)).
Defined.

(** ** Validation, on the example of the specification *)

Lemma validate_dependencies_spec_witness :
  unique_ids Cycle.actions
  ∧ ¬ has_missing_dependency Cycle.actions
  ∧ cyclic Cycle.actions
  ∧ ∃ a, validate_dependencies Cycle.actions = Raise (CyclicDependency a).
Proof.
  assert (unique_ids Cycle.actions) as Huniq.
  { apply (bool_decide_unpack _). by vm_compute. }
  assert (¬ has_missing_dependency Cycle.actions) as Hno.
  { apply first_missing_spec. by vm_compute. }
  assert (cyclic Cycle.actions) as Hcyc.
  { exists "A". apply tc_l with "B"; [|apply tc_once].
    - exists Cycle.a. unfold Cycle.actions. cbn. set_solver.
    - exists Cycle.b. unfold Cycle.actions. cbn. set_solver. }
  split_and!; [done..|].
  destruct (validate_dependencies_spec Cycle.actions) as (_ & _ & _ & Hu).
  destruct (Hu Huniq) as (_ & Hiff & _).
  by apply Hiff.
Defined.

(** C5, as stated, fails when two actions share an identifier: in
    [Duplicated.actions] every listed identifier exists and the dependency
    relation on the identifiers has the cycle "a", "b", "a", but the search
    follows each identifier to the first action that bears it, which has no
    dependency, and validation returns normally. *)
Lemma duplicated_cycle_not_detected :
  ¬ has_missing_dependency Duplicated.actions
  ∧ cyclic Duplicated.actions
  ∧ validate_dependencies Duplicated.actions = Done tt
  ∧ ¬ ∃ a, validate_dependencies Duplicated.actions = Raise (CyclicDependency a).
Proof.
  assert (validate_dependencies Duplicated.actions = Done tt) as Hr by by_evaluation.
  split_and!; [| |done|].
  - apply first_missing_spec. by vm_compute.
  - exists "a". apply tc_l with "b"; [|apply tc_once].
    + exists (Duplicated.pick "a" ["b"]). unfold Duplicated.actions. cbn. set_solver.
    + exists (Duplicated.pick "b" ["a"]). unfold Duplicated.actions. cbn. set_solver.
  - intros [a Hr']. congruence.
Qed.

(** ** The handlers outlive the call *)

(** C8.  [plan_parallel_actions] never resets [recent_handler]: when a call
    returns, every entry it found is still there, entries of objects no
    input action touches are unchanged, every entry is either the one found
    or the first agent of one of the call's fetch or attach assignments
    touching the object, and every object of an assigned fetch or attach
    action has an entry of the latter kind.  The next call reads what is
    left: planning the chair a second time, with the handlers the first call
    left behind, gives another result than in a fresh process. *)
Theorem recent_handler_persists :
  (∀ fuel rh actions agents r rh',
     plan_parallel_actions fuel rh actions agents = Done (r, rh') →
     (∀ o, is_Some (rh !! o) → is_Some (rh' !! o))
     ∧ (∀ o, (∀ a, a ∈ actions → o ∉ objects a) → rh' !! o = rh !! o)
     ∧ (∀ o ag, rh' !! o = Some ag →
          rh !! o = Some ag ∨ written_by actions (stages r) o ag)
     ∧ (∀ s i asg,
          assignment_at r s i asg →
          ∃ a, a ∈ actions ∧ act_id a = action_id asg
               ∧ (tracked a → ∀ o, o ∈ objects a →
                  ∃ ag, rh' !! o = Some ag ∧ written_by actions (stages r) o ag)))
  ∧ (∀ n, plan_parallel_actions (4 + n)%nat ∅ Chair.actions Chair.agents
          = Done (Chair.result, Chair.handlers))
  ∧ (∀ n, plan_parallel_actions (4 + n)%nat Chair.handlers Chair.actions Chair.agents
          = Done (Chair.result_again, Chair.handlers_again))
  ∧ Chair.result_again ≠ Chair.result.
Proof.
  split_and!; [|apply chair_run|apply chair_run_again|].
  - intros fuel rh actions agents r rh' Hrun. split_and!.
    + apply plan_parallel_actions_Done in Hrun as (st & Hinv & _ & _ & _ & -> & _).
      apply (inv_handlers_kept _ _ _ Hinv).
    + apply plan_parallel_actions_Done in Hrun as (st & Hinv & _ & _ & _ & -> & _).
      apply (inv_handlers_frame _ _ _ Hinv).
    + apply plan_parallel_actions_Done in Hrun as (st & Hinv & _ & -> & _ & -> & _).
      apply (inv_handlers_origin _ _ _ Hinv).
    + intros s i asg Hat.
      destruct (plan_assignment_made_for _ _ _ _ _ _ _ _ _ Hrun Hat)
        as (a & Ha & (Hid & _) & Htr).
      exists a. by split_and!.
  - intros Heq.
    assert (stages Chair.result_again !! 1 = stages Chair.result !! 1) as H1
      by (by rewrite Heq).
    vm_compute in H1. discriminate.
Qed.

(** ** Completeness and starvation *)

Lemma schedule_task_unsatisfiable agents rd dc fuel st task d :
  Z.of_nat (length (qualified agents (act_type task))) < req_min (required_agents task) →
  schedule_task agents rd dc fuel st task d = OutOfFuel.
Proof.
  intros Hlt. destruct fuel as [|fuel]; [done|]. cbn [schedule_task].
  rewrite find_stage_all_fail; [done|].
  intros n. by apply try_stage_unsatisfiable.
Qed.

(** C9, as stated, fails where the stage search does not end: the call for
    one fetch that needs two agents, given one agent, neither returns nor
    raises. *)
Lemma understaffed_call_never_ends :
  ¬ returns_or_raises ∅ Understaffed.actions Understaffed.agents.
Proof.
  intros [fuel Hend]. apply Hend.
  unfold plan_parallel_actions, plan_roots.
  assert (validate_dependencies Understaffed.actions = Done tt) as -> by by_evaluation.
  assert (root_tasks Understaffed.actions = [Understaffed.heavy]) as -> by by_evaluation.
  cbn [mbind Outcome_bind sorted_desc foldr insert_desc schedule_roots].
  rewrite decide_True by (apply (bool_decide_unpack _); by vm_compute).
  rewrite schedule_task_unsatisfiable; [done|]. by vm_compute.
Qed.


(** ** Starvation needs repeated identifiers *)

Lemma plan_roots_Done fuel rh actions agents st :
  plan_roots fuel rh actions agents = Done st →
  plan_inv actions rh st ∧ validate_dependencies actions = Done tt.
Proof.
  unfold plan_roots.
  destruct (validate_dependencies actions) as [[]| |] eqn:Hval; cbn; [|done..].
  intros Hroots. split; [|done].
  apply schedule_roots_preserves with (actions := actions) (rh0 := rh) in Hroots; [done|..].
  - apply build_reverse_dependencies_elem_of.
  - intros a Ha%sorted_desc_elem_of. unfold root_tasks in Ha.
    by apply list_elem_of_filter in Ha as [_ ?].
  - apply initial_state_inv.
Qed.

Lemma scan_step_preserves actions agents rh st st' :
  scan_step agents (build_reverse_dependencies actions)
    (build_dependency_count (build_reverse_dependencies actions) actions) st st' →
  plan_inv actions rh st → plan_inv actions rh st'.
Proof.
  intros (_ & _ & fuel & Hrun) Hinv.
  eapply schedule_available_preserves; [apply build_reverse_dependencies_elem_of| |done..].
  intros a Ha%sorted_desc_elem_of. by eapply available_actions_subseteq.
Qed.

Lemma fallback_scan_inv rh actions agents st :
  fallback_scan rh actions agents st →
  plan_inv actions rh st ∧ validate_dependencies actions = Done tt.
Proof.
  intros (st0 & [fuel [Hinv Hval]%plan_roots_Done] & Hsteps). split; [|done].
  induction Hsteps as [|st1 st2 st3 Hstep _ IH]; [done|].
  apply IH. by eapply scan_step_preserves.
Qed.

Lemma needs_sn actions x :
  ¬ has_missing_dependency actions → ¬ cyclic actions → sn (needs actions) x.
Proof.
  intros Hno Hac. apply tc_finite_sn.
  - intros y Hy. apply Hac. by exists y.
  - exists (elements (action_ids actions)). intros y Hy. apply elem_of_elements.
    assert (∃ z, needs actions z y) as (z & a & Ha & _ & Hdep).
    { clear -Hy. induction Hy as [x y H|x y z H _ IH]; [by exists x|done]. }
    destruct (decide (y ∈ action_ids actions)) as [|Hmiss]; [done|].
    exfalso. apply Hno. by exists a, y.
Qed.

(** A scan of the fallback loop finds a ready action whenever actions are
    left, if all dependencies exist and there is no cycle. *)
Lemma starved_cyclic actions rh st :
  ¬ has_missing_dependency actions → ¬ cyclic actions →
  plan_inv actions rh st → starved st → False.
Proof.
  intros Hno Hac Hinv [Hleft Hnone].
  assert (∀ k, sn (needs actions) k → dict_mem k (unassigned_actions st) → False) as Hsn.
  { intros k Hk. induction Hk as [k _ IH]. intros Hmem.
    apply list_elem_of_fmap in Hmem as ([k' a] & -> & Hin).
    destruct (inv_unassigned _ _ _ Hinv _ _ Hin) as [Ha Hid].
    assert (¬ deps_assigned (assigned_actions st) (depends_on a)) as Hnot.
    { intros Hready.
      assert (a ∈ available_actions st) as Hav; [|rewrite Hnone in Hav; by apply not_elem_of_nil in Hav].
      apply list_elem_of_filter. split; [done|].
      apply list_elem_of_fmap. by exists (k', a). }
    apply not_Forall_Exists in Hnot; [|apply _].
    apply Exists_exists in Hnot as (dep & Hdep & Hunassigned).
    assert (dep ∈ action_ids actions) as Hexists.
    { destruct (decide (dep ∈ action_ids actions)) as [|Hmiss]; [done|].
      exfalso. apply Hno. by exists a, dep. }
    apply elem_of_list_to_set, list_elem_of_fmap in Hexists as (a' & -> & Ha').
    destruct (inv_partition _ _ _ Hinv a' Ha') as [Hmem'|Hsome]; [|done].
    apply (IH (act_id a')); [|done]. by exists a. }
  destruct (unassigned_actions st) as [|[k a] rest] eqn:Hun; [done|].
  apply (Hsn k); [by apply needs_sn|].
  unfold dict_mem. rewrite ?Hun. cbn. by left.
Qed.

(** On an input with unique identifiers the starvation error is never
    raised: it is validation that rejects what could starve. *)
Lemma starvation_needs_repeated_ids fuel rh actions agents ids :
  unique_ids actions →
  plan_parallel_actions fuel rh actions agents ≠ Raise (SchedulingStarvation ids).
Proof.
  intros Huniq Hraise.
  destruct (proj1 (plan_starvation_iff rh actions agents ids)) as (st & Hscan & Hst & _).
  { by exists fuel. }
  apply fallback_scan_inv in Hscan as [Hinv Hval].
  destruct (validate_dependencies_cases actions)
    as [(_ & a & dep & Hr)|[(_ & _ & a & Hr)|(Hno & Hac & _)]]; [congruence..|].
  eapply starved_cyclic; [done| |done..].
  intros [x Hx]. by apply (Hac x), tc_needs_edge.
Qed.

(** ** A call ends when the roster can staff every action *)

Lemma ends_final {A} (run : nat → Outcome A) (Q : A → Prop) :
  (∀ f f', (f ≤ f')%nat → run f ⊑ run f') →
  ends run Q →
  ∃ fuel r, r ≠ OutOfFuel
            ∧ (∀ x, r = Done x → Q x)
            ∧ ∀ f, (fuel ≤ f)%nat → run f = r.
Proof.
  intros Hmono [fuel Hfuel]. exists fuel, (run fuel). split_and!.
  - intros Heq. by rewrite Heq in Hfuel.
  - intros x Heq. by rewrite Heq in Hfuel.
  - intros f Hle. apply refines_final; [by apply Hmono|].
    intros Heq. by rewrite Heq in Hfuel.
Qed.

Lemma ends_intro {A} (run : nat → Outcome A) (Q : A → Prop) fuel r :
  run fuel = r → r ≠ OutOfFuel → (∀ x, r = Done x → Q x) → ends run Q.
Proof.
  intros <- Hfin HQ. exists fuel. destruct (run fuel); [by apply HQ|done|done].
Qed.

Lemma assign_no_fuel st task s assigned : assign st task s assigned ≠ OutOfFuel.
Proof.
  unfold assign, update_object_tracking, track_objects. cbn.
  repeat case_decide; destruct (objects task), assigned; by cbn.
Qed.

Lemma assign_length st task s assigned st' :
  dict_mem (act_id task) (unassigned_actions st) →
  assign st task s assigned = Done st' →
  (length (unassigned_actions st') < length (unassigned_actions st))%nat.
Proof.
  intros Hmem Hassign. unfold assign in Hassign. cbn in Hassign.
  destruct (update_object_tracking _ task assigned); simplify_eq/=.
  apply list_elem_of_fmap in Hmem as (kv & Hk & Hin).
  apply (length_filter_lt _ _ kv); [done|]. intros Hne. by apply Hne.
Qed.

Section Termination.
Context (actions : list Action) (agents : list Agent).
Context (rd : gmap string (list Action)) (dc : gmap string nat).
Context (rh0 : gmap string Agent).
Hypothesis Hrd : ∀ i l c, rd !! i = Some l → c ∈ l → c ∈ actions.
Hypothesis Hcap : capacity agents actions.

Lemma find_stage_ends st task d :
  task ∈ actions →
  ∃ fuel s assigned,
    try_stage agents st task s = Some assigned
    ∧ ∀ f, (fuel ≤ f)%nat → find_stage agents f st task d = Done (s, assigned).
Proof.
  intros Htask. destruct Hcap as [Hn Hmin].
  destruct (empty_stage_exists st d) as (e & He1 & He2).
  destruct (find_stage_first agents st task (Z.to_nat (e - d)) d)
    as (k & assigned & _ & Hk1 & _ & Hk3).
  { replace (d + Z.of_nat (Z.to_nat (e - d))) with e by lia.
    apply try_stage_empty; [done..|by apply Hmin]. }
  exists (S k), (d + Z.of_nat k), assigned. split; [done|].
  intros f Hf. apply Hk3. lia.
Qed.

Lemma schedule_children_ends n cs s st :
  task_ends actions agents rd dc rh0 n → cs ⊆ actions →
  (length (unassigned_actions st) ≤ n)%nat →
  plan_inv actions rh0 st →
  ends (λ f, schedule_children (schedule_task agents rd dc f) cs s st)
       (λ st', (length (unassigned_actions st') ≤ length (unassigned_actions st))%nat
               ∧ plan_inv actions rh0 st').
Proof.
  intros Htask. revert st.
  induction cs as [|c cs IH]; intros st Hcs Hlen Hinv.
  { by exists 0%nat. }
  assert (cs ⊆ actions) as Hcs' by set_solver.
  cbn [schedule_children]. case_decide as Hc; [|by apply IH].
  destruct (ends_final _ _ (λ f f' H, schedule_task_mono agents rd dc f f' st c (s + 1) H)
              (Htask st c (s + 1) Hlen Hinv ltac:(set_solver) (proj1 Hc)))
    as (f1 & r1 & Hfin1 & HQ1 & Hrun1).
  destruct r1 as [st1|e|]; [|by exists f1; rewrite Hrun1|done].
  destruct (HQ1 st1 eq_refl) as [Hlt Hinv1].
  destruct (ends_final _ _
              (λ f f' H, schedule_children_mono _ _ cs s st1
                           (λ st task d, schedule_task_mono agents rd dc f f' st task d H))
              (IH st1 Hcs' ltac:(lia) Hinv1))
    as (f2 & r2 & Hfin2 & HQ2 & Hrun2).
  apply (ends_intro _ _ (Nat.max f1 f2) r2); [|done|].
  - rewrite Hrun1 by lia. cbn. apply Hrun2. lia.
  - intros st' ->. destruct (HQ2 st' eq_refl). split; [lia|done].
Qed.

Lemma schedule_task_ends n : task_ends actions agents rd dc rh0 n.
Proof.
  induction n as [|n IH]; intros st task d Hlen Hinv Htask Hmem.
  { destruct (unassigned_actions st); [|cbn in Hlen; lia].
    by apply not_elem_of_nil in Hmem. }
  destruct (find_stage_ends st task d Htask) as (f1 & s & assigned & Htry & Hfind).
  destruct (assign st task s assigned) as [st1|e|] eqn:Hassign.
  - pose proof (assign_length _ _ _ _ _ Hmem Hassign) as Hlt.
    pose proof (assign_preserves actions agents rh0 _ _ _ _ _ Hinv Htask Hmem Htry Hassign)
      as Hinv1.
    assert (sorted_desc (priority dc) (default [] (rd !! act_id task)) ⊆ actions)
      as Hchildren.
    { intros c Hc%sorted_desc_elem_of.
      destruct (rd !! act_id task) as [l|] eqn:Hl; simpl in Hc; [by eapply Hrd|].
      by apply not_elem_of_nil in Hc. }
    assert (length (unassigned_actions st1) ≤ n)%nat as Hlen1 by lia.
    destruct (ends_final _ _
                (λ f f' H, schedule_children_mono _ _
                   (sorted_desc (priority dc) (default [] (rd !! act_id task))) s st1
                   (λ st task d, schedule_task_mono agents rd dc f f' st task d H))
                (schedule_children_ends n _ s st1 IH Hchildren Hlen1 Hinv1))
      as (f2 & r2 & Hfin2 & HQ2 & Hrun2).
    apply (ends_intro _ _ (S (Nat.max f1 f2)) r2); [|done|].
    + cbn [schedule_task]. rewrite Hfind by lia. cbn. rewrite Hassign. cbn.
      apply Hrun2. lia.
    + intros st' ->. destruct (HQ2 st' eq_refl). split; [lia|done].
  - apply (ends_intro _ _ (S f1) (Raise e)); [|done..].
    cbn [schedule_task]. rewrite Hfind by lia. cbn. by rewrite Hassign.
  - by apply assign_no_fuel in Hassign.
Qed.

Lemma schedule_roots_ends tasks st :
  tasks ⊆ actions → plan_inv actions rh0 st →
  ends (λ f, schedule_roots agents rd dc f tasks st) (plan_inv actions rh0).
Proof.
  revert st. induction tasks as [|t ts IH]; intros st Hts Hinv.
  { by exists 0%nat. }
  assert (ts ⊆ actions) as Hts' by set_solver.
  cbn [schedule_roots]. case_decide as Ht; [|by apply IH].
  destruct (ends_final _ _ (λ f f' H, schedule_task_mono agents rd dc f f' st t 1 H)
              (schedule_task_ends _ st t 1 (Nat.le_refl _) Hinv ltac:(set_solver) Ht))
    as (f1 & r1 & Hfin1 & HQ1 & Hrun1).
  destruct r1 as [st1|e|]; [|by exists f1; rewrite Hrun1|done].
  destruct (HQ1 st1 eq_refl) as [_ Hinv1].
  destruct (ends_final _ _
              (λ f f' H, schedule_roots_mono agents rd dc f f' ts st1 H) (IH st1 Hts' Hinv1))
    as (f2 & r2 & Hfin2 & HQ2 & Hrun2).
  apply (ends_intro _ _ (Nat.max f1 f2) r2); [|done..].
  rewrite Hrun1 by lia. cbn. apply Hrun2. lia.
Qed.

Lemma schedule_available_ends tasks st :
  tasks ⊆ actions → plan_inv actions rh0 st →
  ends (λ f, schedule_available agents rd dc f tasks st)
       (λ st', (length (unassigned_actions st') ≤ length (unassigned_actions st))%nat
               ∧ (∀ t ts, tasks = t :: ts → dict_mem (act_id t) (unassigned_actions st) →
                  (length (unassigned_actions st') < length (unassigned_actions st))%nat)
               ∧ plan_inv actions rh0 st').
Proof.
  revert st. induction tasks as [|t ts IH]; intros st Hts Hinv.
  { exists 0%nat. by split_and!. }
  assert (ts ⊆ actions) as Hts' by set_solver.
  cbn [schedule_available]. case_decide as Ht.
  - destruct (desired_stage (assigned_actions st) (depends_on t)) as [d|e|] eqn:Hd;
      [|by exists 0%nat|].
    + destruct (ends_final _ _ (λ f f' H, schedule_task_mono agents rd dc f f' st t d H)
                  (schedule_task_ends _ st t d (Nat.le_refl _) Hinv ltac:(set_solver) Ht))
        as (f1 & r1 & Hfin1 & HQ1 & Hrun1).
      destruct r1 as [st1|e|]; [|by exists f1; cbn; rewrite Hrun1|done].
      destruct (HQ1 st1 eq_refl) as [Hlt Hinv1].
      destruct (ends_final _ _
                  (λ f f' H, schedule_available_mono agents rd dc f f' ts st1 H)
                  (IH st1 Hts' Hinv1))
        as (f2 & r2 & Hfin2 & HQ2 & Hrun2).
      apply (ends_intro _ _ (Nat.max f1 f2) r2); [|done|].
      * cbn. rewrite Hrun1 by lia. cbn. apply Hrun2. lia.
      * intros st' ->. destruct (HQ2 st' eq_refl) as (Hle & _ & Hinv').
        split_and!; [lia| |done]. intros; lia.
    + exfalso. unfold desired_stage in Hd.
      destruct (dep_stages _ _) as [[|? ?]| |] eqn:Hs; cbn in Hd; try done.
      clear -Hs. revert Hs. generalize (depends_on t).
      intros deps. induction deps as [|dep deps IHd]; cbn; [done|].
      destruct (assigned_actions st !! dep); [|done].
      destruct (dep_stages _ deps); cbn; [done..|]. intros _. by apply IHd.
  - destruct (IH st Hts' Hinv) as [f Hf]. exists f.
    destruct (schedule_available agents rd dc f ts st) as [st'| |]; [|done..].
    destruct Hf as (Hle & _ & Hinv'). split_and!; [done| |done].
    intros t' ts' [= <- <-] Hmem. done.
Qed.

Lemma schedule_remaining_ends n st :
  (length (unassigned_actions st) ≤ n)%nat →
  plan_inv actions rh0 st →
  ends (λ f, schedule_remaining agents rd dc f st) (plan_inv actions rh0).
Proof.
  revert st. induction n as [|n IH]; intros st Hlen Hinv.
  { exists 1%nat. cbn. by destruct (unassigned_actions st); [|cbn in Hlen; lia]. }
  destruct (unassigned_actions st) as [|kv un] eqn:Hun.
  { exists 1%nat. cbn. by rewrite Hun. }
  destruct (available_actions st) as [|a av] eqn:Hav.
  { exists 1%nat. cbn. by rewrite Hun, Hav. }
  pose proof (available_actions_subseteq actions rh0 st Hinv) as Hsub.
  assert (sorted_desc (priority dc) (a :: av) ⊆ actions) as Hsorted.
  { intros x Hx%sorted_desc_elem_of. apply Hsub. by rewrite Hav. }
  destruct (ends_final _ _
              (λ f f' H, schedule_available_mono agents rd dc f f' _ st H)
              (schedule_available_ends _ st Hsorted Hinv))
    as (f1 & r1 & Hfin1 & HQ1 & Hrun1).
  destruct r1 as [st1|e|]; [| |done].
  - destruct (HQ1 st1 eq_refl) as (_ & Hstrict & Hinv1).
    assert (length (unassigned_actions st1) < length (unassigned_actions st))%nat as Hlt.
    { destruct (sorted_desc (priority dc) (a :: av)) as [|t ts] eqn:Hs.
      - assert (a ∈ sorted_desc (priority dc) (a :: av)) as Hin
          by (apply sorted_desc_elem_of; by left).
        rewrite Hs in Hin. by apply not_elem_of_nil in Hin.
      - apply (Hstrict t ts eq_refl).
        assert (t ∈ available_actions st) as Ht.
        { rewrite Hav. apply (sorted_desc_elem_of (priority dc)). rewrite Hs. by left. }
        apply list_elem_of_filter in Ht as [_ Ht].
        apply list_elem_of_fmap in Ht as ([k t'] & -> & Hin).
        destruct (inv_unassigned _ _ _ Hinv _ _ Hin) as [_ Hid]. cbn in *.
        apply list_elem_of_fmap. by exists (k, t'). }
    assert (length (unassigned_actions st1) ≤ n)%nat as Hlen1.
    { rewrite ?Hun in Hlt. cbn in Hlen, Hlt. lia. }
    destruct (ends_final _ _
                (λ f f' H, schedule_remaining_mono agents rd dc f f' st1 H)
                (IH st1 Hlen1 Hinv1))
      as (f2 & r2 & Hfin2 & HQ2 & Hrun2).
    apply (ends_intro _ _ (S (Nat.max f1 f2)) r2); [|done..].
    cbn [schedule_remaining]. rewrite Hun, Hav. rewrite Hrun1 by lia. cbn.
    apply Hrun2. lia.
  - apply (ends_intro _ _ (S f1) (Raise e)); [|done..].
    cbn [schedule_remaining]. rewrite Hun, Hav. by rewrite Hrun1.
Qed.
End Termination.

(** With enough capacity every call ends, by returning or by raising. *)
Lemma plan_parallel_actions_ends rh actions agents :
  capacity agents actions → returns_or_raises rh actions agents.
Proof.
  intros Hcap. unfold returns_or_raises, plan_parallel_actions.
  pose proof (build_reverse_dependencies_elem_of actions) as Hrd.
  destruct (validate_dependencies_total actions) as [Hval|[(a & dep & Hval)|(a & Hval)]];
    [|exists 0%nat; unfold plan_roots; by rewrite Hval..].
  assert (∀ f, plan_roots f rh actions agents
               = schedule_roots agents (build_reverse_dependencies actions)
                   (build_dependency_count (build_reverse_dependencies actions) actions) f
                   (sorted_desc
                      (priority (build_dependency_count (build_reverse_dependencies actions)
                                   actions))
                      (root_tasks actions))
                   (initial_state rh actions)) as Hroots.
  { intros f. unfold plan_roots. by rewrite Hval. }
  destruct (ends_final _ _
              (λ f f' H, schedule_roots_mono agents _ _ f f' _ (initial_state rh actions) H)
              (schedule_roots_ends actions agents _
                 (build_dependency_count (build_reverse_dependencies actions) actions)
                 rh Hrd Hcap
                 (sorted_desc
                    (priority (build_dependency_count (build_reverse_dependencies actions)
                                 actions))
                    (root_tasks actions))
                 (initial_state rh actions)
                 ltac:(intros x Hx%sorted_desc_elem_of; unfold root_tasks in Hx;
                       by apply list_elem_of_filter in Hx as [_ ?])
                 (initial_state_inv actions rh)))
    as (f1 & r1 & Hfin1 & HQ1 & Hrun1).
  destruct r1 as [st1|e|]; [|exists f1; by rewrite Hroots, Hrun1|done].
  destruct (ends_final _ _
              (λ f f' H, schedule_remaining_mono agents _ _ f f' st1 H)
              (schedule_remaining_ends actions agents _
                 (build_dependency_count (build_reverse_dependencies actions) actions)
                 rh Hrd Hcap _ st1 (Nat.le_refl _) (HQ1 st1 eq_refl)))
    as (f2 & r2 & Hfin2 & HQ2 & Hrun2).
  exists (Nat.max f1 f2). rewrite Hroots, Hrun1 by lia. cbn. rewrite Hrun2 by lia.
  by destruct r2.
Qed.

(** ** Completeness *)

Lemma unique_ids_inj actions a b :
  unique_ids actions → a ∈ actions → b ∈ actions → act_id a = act_id b → a = b.
Proof.
  intros Huniq Ha Hb Heq.
  pose proof (lookup_action_unique actions a Huniq Ha) as H1.
  pose proof (lookup_action_unique actions b Huniq Hb) as H2.
  rewrite Heq in H1. congruence.
Qed.

(** With two actions under one identifier the planner returns a plan that
    leaves the first of them out: the one assignment of the identifier is
    that of the second. *)
Lemma repeated_identifier_leaves_action_out :
  plan_parallel_actions 3 ∅ Twice.actions Twice.agents = Done (Twice.result, ∅)
  ∧ Twice.first ∈ Twice.actions
  ∧ assigned_once Twice.result (act_id Twice.first)
  ∧ ¬ ∃ s i asg, assignment_at Twice.result s i asg ∧ made_for Twice.first asg.
Proof.
  assert (plan_parallel_actions 3 ∅ Twice.actions Twice.agents = Done (Twice.result, ∅))
    as Hrun by by_evaluation.
  split_and!; [done|unfold Twice.actions; set_solver| |].
  - apply (plan_assigned_once _ _ _ _ _ _ _ Hrun). unfold Twice.actions. set_solver.
  - intros (s & i & asg & (l & Hl & Hi) & _ & Hdescr & _).
    cbn in Hl. destruct (decide (s = 1)) as [-> |Hne].
    + rewrite lookup_insert_eq in Hl. injection Hl as <-.
      destruct i as [|i]; [|by destruct i].
      cbn in Hi. injection Hi as <-. cbn in Hdescr. discriminate.
    + rewrite lookup_insert_ne, lookup_empty in Hl by done. discriminate.
Qed.

(** C9, amended.  A call of [plan_parallel_actions] ends, by returning or by
    raising, whenever the roster repeats no agent and every action's minimum
    is at most the number of roster agents qualified for its type (without
    that the stage search can run forever).  Whenever a call returns, every
    action identifier of the input has exactly one assignment in the result,
    at one stage and one place of that stage's list, and every assignment is
    that of an input action; when no two input actions share an identifier,
    every input action has exactly one assignment, made for it, and none is
    left out (with a shared identifier an action can be left out).  The call
    raises the starvation error with the identifiers [ids] if and only if
    some scan of the fallback loop finds actions left unassigned, none of
    them with all its dependencies assigned, and [ids] are the identifiers
    left; this needs a shared identifier: when no two input actions share
    one, the starvation error is never raised. *)
Theorem plan_complete_or_starved rh actions agents :
  (capacity agents actions → returns_or_raises rh actions agents)
  ∧ (∀ fuel r rh',
       plan_parallel_actions fuel rh actions agents = Done (r, rh') →
       (∀ a, a ∈ actions → assigned_once r (act_id a))
       ∧ (∀ s i asg, assignment_at r s i asg → ∃ a, a ∈ actions ∧ made_for a asg)
       ∧ (unique_ids actions →
          ∀ a, a ∈ actions →
            ∃ s i asg,
              assignment_at r s i asg ∧ made_for a asg ∧ stage asg = s
              ∧ ∀ s' i' asg',
                  assignment_at r s' i' asg' → action_id asg' = act_id a →
                  s' = s ∧ i' = i))
  ∧ (∀ ids,
       (∃ fuel, plan_parallel_actions fuel rh actions agents
                = Raise (SchedulingStarvation ids))
       ↔ ∃ st, fallback_scan rh actions agents st ∧ starved st
               ∧ ids = (unassigned_actions st).*1)
  ∧ (unique_ids actions →
     ∀ fuel ids,
       plan_parallel_actions fuel rh actions agents ≠ Raise (SchedulingStarvation ids)).
Proof.
  split_and!.
  - apply plan_parallel_actions_ends.
  - intros fuel r rh' Hrun. split_and!.
    + intros a Ha. by eapply plan_assigned_once.
    + intros s i asg Hat.
      destruct (plan_assignment_made_for _ _ _ _ _ _ _ _ _ Hrun Hat) as (a & Ha & Hmade & _).
      by exists a.
    + intros Huniq a Ha.
      destruct (plan_assigned_once _ _ _ _ _ _ a Hrun Ha)
        as (s & i & asg & Hat & Hid & Hs & Honce).
      exists s, i, asg. split_and!; [done| |done..].
      destruct (plan_assignment_made_for _ _ _ _ _ _ _ _ _ Hrun Hat) as (a' & Ha' & Hmade & _).
      assert (a' = a) as ->; [|done].
      apply (unique_ids_inj actions); [done..|]. destruct Hmade as [Hid' _]. congruence.
  - apply plan_starvation_iff.
  - intros Huniq fuel ids. by apply starvation_needs_repeated_ids.
Qed.

Lemma plan_complete_or_starved_witness :
  (capacity Chair.agents Chair.actions ∧ returns_or_raises ∅ Chair.actions Chair.agents)
  ∧ (unique_ids Chair.actions
     ∧ plan_parallel_actions 4 ∅ Chair.actions Chair.agents
       = Done (Chair.result, Chair.handlers)
     ∧ ∀ a, a ∈ Chair.actions →
            ∃ s i asg, assignment_at Chair.result s i asg ∧ made_for a asg)
  ∧ plan_parallel_actions 1 ∅ Duplicated.actions Chair.agents
    = Raise (SchedulingStarvation ["a"; "b"])
  ∧ ∃ st, fallback_scan ∅ Duplicated.actions Chair.agents st ∧ starved st
          ∧ ["a"; "b"] = (unassigned_actions st).*1.
Proof.
  assert (capacity Chair.agents Chair.actions) as Hcap.
  { split; [apply (bool_decide_unpack _); by vm_compute|].
    intros a Ha. unfold Chair.actions in Ha.
    set_unfold. destruct_or!; subst; by vm_compute. }
  assert (unique_ids Chair.actions) as Huniq.
  { apply (bool_decide_unpack _). by vm_compute. }
  assert (plan_parallel_actions 4 ∅ Chair.actions Chair.agents
          = Done (Chair.result, Chair.handlers)) as Hchair by by_evaluation.
  assert (plan_parallel_actions 1 ∅ Duplicated.actions Chair.agents
          = Raise (SchedulingStarvation ["a"; "b"])) as Hrun by by_evaluation.
  split_and!; [done| |done|done| |done|].
  - by apply (proj1 (plan_complete_or_starved ∅ Chair.actions Chair.agents)).
  - intros a Ha.
    destruct (proj1 (proj2 (plan_complete_or_starved ∅ Chair.actions Chair.agents))
                4%nat _ _ Hchair) as (_ & _ & Hall).
    destruct (Hall Huniq a Ha) as (s & i & asg & Hat & Hmade & _).
    exists s, i, asg. exact (conj Hat Hmade).
  - apply (proj1 (proj2 (proj2 (plan_complete_or_starved ∅ Duplicated.actions Chair.agents)))
             ["a"; "b"]).
    by exists 1%nat.
Defined.

(** * Further proofs *)

(** ** A run of the planner, step by step *)

Lemma extends_refl st : extends st st.
Proof. split; [|intros s]; reflexivity. Qed.

Lemma extends_trans st1 st2 st3 : extends st1 st2 → extends st2 st3 → extends st1 st3.
Proof.
  intros [H1 H2] [H3 H4]. split; [by etrans|]. intros s. etrans; [apply H2|apply H4].
Qed.

Lemma assign_extends actions rh0 st task s assigned st' :
  plan_inv actions rh0 st →
  dict_mem (act_id task) (unassigned_actions st) →
  assign st task s assigned = Done st' → extends st st'.
Proof.
  intros Hinv Hmem Hassign. unfold assign in Hassign. cbn in Hassign.
  destruct (update_object_tracking _ task assigned) as [rh'| |]; simplify_eq/=.
  split; cbn.
  - apply insert_subseteq. by apply (inv_fresh _ _ _ Hinv).
  - intros s'. destruct (decide (s = s')) as [-> |Hne].
    + rewrite lookup_insert_eq. cbn. by apply prefix_app_r.
    + by rewrite lookup_insert_ne.
Qed.

Lemma find_stage_Done_first agents fuel st task d s assigned :
  find_stage agents fuel st task d = Done (s, assigned) →
  d ≤ s
  ∧ try_stage agents st task s = Some assigned
  ∧ ∀ s', d ≤ s' < s → try_stage agents st task s' = None.
Proof.
  revert d. induction fuel as [|fuel IH]; intros d; cbn [find_stage]; [done|].
  destruct (try_stage agents st task d) as [assigned'|] eqn:Htry.
  - intros [= <- <-]. split_and!; [lia|done|intros; lia].
  - intros (Hle & Hs & Hfail)%IH. split_and!; [lia|done|].
    intros s' Hs'. destruct (decide (s' = d)) as [-> |Hne]; [done|]. apply Hfail. lia.
Qed.

Lemma deps_assigned_extends st st' deps :
  extends st st' → deps_assigned (assigned_actions st) deps →
  deps_assigned (assigned_actions st') deps.
Proof.
  intros [Hsub _] Hdeps. unfold deps_assigned. eapply Forall_impl; [done|].
  intros dep [s Hs]. exists s. by eapply lookup_weaken.
Qed.

Lemma dep_stages_Done assigned deps :
  deps_assigned assigned deps →
  ∃ ss, dep_stages assigned deps = Done ss
        ∧ Forall2 (λ dep s, assigned !! dep = Some s) deps ss.
Proof.
  induction 1 as [|dep deps [s Hs] _ (ss & Hss & Hall)]; cbn [dep_stages].
  - by exists [].
  - rewrite Hs, Hss. cbn. exists (s :: ss). split; [done|]. by constructor.
Qed.

Lemma foldl_max_spec s ss :
  foldl Z.max s ss ∈ s :: ss ∧ ∀ x, x ∈ s :: ss → x ≤ foldl Z.max s ss.
Proof.
  revert s. induction ss as [|y ss IH]; intros s; cbn [foldl].
  - split; [by left|]. intros x ->%list_elem_of_singleton. lia.
  - destruct (IH (Z.max s y)) as [Hin Hmax]. split.
    + apply elem_of_cons in Hin as [Heq|Hin]; [|set_solver].
      rewrite Heq. destruct (Z.max_spec s y) as [[_ ->]|[_ ->]]; set_solver.
    + intros x Hx.
      assert (x ≤ Z.max s y ∨ x ∈ ss) as [Hle|Hin'].
      { set_unfold. destruct Hx as [-> |[-> |Hx]]; [left; lia|left; lia|by right]. }
      * etrans; [done|]. apply Hmax. by left.
      * apply Hmax. by right.
Qed.

Lemma desired_stage_Done assigned deps :
  deps_assigned assigned deps →
  ∃ d, desired_stage assigned deps = Done d
       ∧ (deps = [] ∧ d = 1
          ∨ (∃ dep, dep ∈ deps ∧ assigned !! dep = Some (d - 1))
            ∧ ∀ dep s, dep ∈ deps → assigned !! dep = Some s → s < d).
Proof.
  intros (ss & Hss & Hall)%dep_stages_Done. unfold desired_stage. rewrite Hss. cbn.
  destruct Hall as [|dep s deps ss Hs Hall]; [exists 1; by split; [|left]|].
  exists (foldl Z.max s ss + 1). split; [done|]. right.
  destruct (foldl_max_spec s ss) as [Hin Hmax]. split.
  - replace (foldl Z.max s ss + 1 - 1) with (foldl Z.max s ss) by lia.
    apply elem_of_cons in Hin as [-> |Hin]; [exists dep; split; [by left|done]|].
    apply list_elem_of_lookup in Hin as [i Hi].
    destruct (Forall2_lookup_r _ _ _ _ _ Hall Hi) as (dep' & Hdep' & Heq).
    exists dep'. split; [right; by eapply list_elem_of_lookup_2|done].
  - intros dep' s' Hdep' Hs'.
    assert (s' ∈ s :: ss) as Hin'.
    { apply elem_of_cons in Hdep' as [-> |Hdep'];
        [assert (s' = s) as -> by congruence; by left|right].
      apply list_elem_of_lookup in Hdep' as [i Hi].
      destruct (Forall2_lookup_l _ _ _ _ _ Hall Hi) as (s'' & Hs'' & Heq).
      assert (s'' = s') as -> by congruence. by eapply list_elem_of_lookup_2. }
    specialize (Hmax _ Hin'). lia.
Qed.

Section GenericRun.
Context (actions : list Action) (agents : list Agent).
Context (rd : gmap string (list Action)) (dc : gmap string nat).
Context (rh0 : gmap string Agent).
Context (J : PlanState → Prop) (D : PlanState → Action → Z → Prop) (E : Exn → Prop).
Hypothesis Hrd : ∀ i l c, rd !! i = Some l → c ∈ l → c ∈ actions.
Hypothesis D_stable : ∀ st st' c d, extends st st' → D st c d → D st' c d.
Hypothesis J_step : step_ok actions agents rd rh0 J D E.

Lemma schedule_children_run rec cs s st :
  call_ok actions rh0 J D E rec → cs ⊆ actions →
  plan_inv actions rh0 st → J st → (∀ c, c ∈ cs → D st c (s + 1)) →
  run_ok (λ st', plan_inv actions rh0 st' ∧ J st') E st (schedule_children rec cs s st).
Proof.
  intros Hrec. revert st.
  induction cs as [|c cs IH]; intros st Hcs Hinv HJ HD; cbn [schedule_children].
  { split; [done|apply extends_refl]. }
  assert (cs ⊆ actions) as Hcs' by set_solver.
  case_decide as Hc; [|apply IH; [done..|intros; apply HD; by right]].
  pose proof (Hrec st c (s + 1) Hinv HJ ltac:(set_solver) (proj1 Hc)
                (HD c ltac:(by left))) as Hcall.
  destruct (rec st c (s + 1)) as [st1|e|]; cbn in *; [|done..].
  destruct Hcall as [[Hinv1 HJ1] Hext].
  specialize (IH st1 Hcs' Hinv1 HJ1).
  destruct (schedule_children rec cs s st1) as [st2|e|]; cbn in *.
  - destruct IH as [? Hext2].
    { intros c' Hc'. eapply D_stable; [done|]. apply HD. by right. }
    split; [done|by eapply extends_trans].
  - apply IH. intros c' Hc'. eapply D_stable; [done|]. apply HD. by right.
  - done.
Qed.

Lemma schedule_task_run fuel :
  call_ok actions rh0 J D E (schedule_task agents rd dc fuel).
Proof.
  induction fuel as [|fuel IH]; intros st task d Hinv HJ Htask Hmem HD; [done|].
  cbn [schedule_task].
  destruct (find_stage agents fuel st task d) as [[s assigned]|e|] eqn:Hfind;
    cbn; [|by apply find_stage_no_raise in Hfind|done].
  apply find_stage_Done_first in Hfind as (Hle & Htry & Hfail).
  pose proof (J_step st task d s assigned Hinv HJ Htask Hmem HD Hle Hfail Htry) as Hstep.
  destruct (assign st task s assigned) as [st1|e|] eqn:Hassign; cbn; [|done..].
  destruct Hstep as [HJ1 HD1].
  pose proof (assign_preserves actions agents rh0 _ _ _ _ _ Hinv Htask Hmem Htry Hassign)
    as Hinv1.
  pose proof (assign_extends _ _ _ _ _ _ _ Hinv Hmem Hassign) as Hext.
  assert (sorted_desc (priority dc) (default [] (rd !! act_id task)) ⊆ actions) as Hchildren.
  { intros c Hc%sorted_desc_elem_of.
    destruct (rd !! act_id task) as [l|] eqn:Hl; simpl in Hc; [by eapply Hrd|].
    by apply not_elem_of_nil in Hc. }
  pose proof (schedule_children_run _ _ s st1 IH Hchildren Hinv1 HJ1) as Hrun.
  destruct (schedule_children _ _ s st1) as [st2|e|]; cbn in *.
  - destruct Hrun as [? Hext2].
    { intros c Hc%sorted_desc_elem_of. by apply HD1. }
    split; [done|by eapply extends_trans].
  - apply Hrun. intros c Hc%sorted_desc_elem_of. by apply HD1.
  - done.
Qed.

Lemma schedule_roots_run fuel tasks st :
  (∀ st t, depends_on t = [] → D st t 1) →
  tasks ⊆ actions → Forall (λ t, depends_on t = []) tasks →
  plan_inv actions rh0 st → J st →
  run_ok (λ st', plan_inv actions rh0 st' ∧ J st') E st
         (schedule_roots agents rd dc fuel tasks st).
Proof.
  intros D_root.
  revert st. induction tasks as [|t ts IH]; intros st Hts Hroots Hinv HJ;
    cbn [schedule_roots].
  { split; [done|apply extends_refl]. }
  assert (ts ⊆ actions) as Hts' by set_solver.
  apply Forall_cons in Hroots as [Ht Hroots].
  case_decide as Hmem; [|by apply IH].
  pose proof (schedule_task_run fuel st t 1 Hinv HJ ltac:(set_solver) Hmem
                (D_root st t Ht)) as Hcall.
  destruct (schedule_task agents rd dc fuel st t 1) as [st1|e|]; cbn in *; [|done..].
  destruct Hcall as [[Hinv1 HJ1] Hext].
  specialize (IH st1 Hts' Hroots Hinv1 HJ1).
  destruct (schedule_roots agents rd dc fuel ts st1) as [st2|e|]; cbn in *; [|done..].
  destruct IH as [? Hext2]. split; [done|by eapply extends_trans].
Qed.

Lemma schedule_available_run fuel tasks st :
  desired_ok actions rh0 J D →
  tasks ⊆ actions →
  Forall (λ t, deps_assigned (assigned_actions st) (depends_on t)) tasks →
  plan_inv actions rh0 st → J st →
  run_ok (λ st', plan_inv actions rh0 st' ∧ J st') E st
         (schedule_available agents rd dc fuel tasks st).
Proof.
  intros D_desired.
  revert st. induction tasks as [|t ts IH]; intros st Hts Hready Hinv HJ;
    cbn [schedule_available].
  { split; [done|apply extends_refl]. }
  assert (ts ⊆ actions) as Hts' by set_solver.
  apply Forall_cons in Hready as [Ht Hready].
  case_decide as Hmem; [|by apply IH].
  destruct (desired_stage_Done _ _ Ht) as (d & Hd & _). rewrite Hd. cbn.
  pose proof (schedule_task_run fuel st t d Hinv HJ ltac:(set_solver) Hmem
                (D_desired st t d Hinv HJ ltac:(set_solver) Ht Hd)) as Hcall.
  destruct (schedule_task agents rd dc fuel st t d) as [st1|e|]; cbn in *; [|done..].
  destruct Hcall as [[Hinv1 HJ1] Hext].
  assert (Forall (λ t, deps_assigned (assigned_actions st1) (depends_on t)) ts) as Hready1.
  { eapply Forall_impl; [done|]. intros t'. by apply deps_assigned_extends. }
  specialize (IH st1 Hts' Hready1 Hinv1 HJ1).
  destruct (schedule_available agents rd dc fuel ts st1) as [st2|e|]; cbn in *; [|done..].
  destruct IH as [? Hext2]. split; [done|by eapply extends_trans].
Qed.

Lemma schedule_remaining_run fuel st :
  desired_ok actions rh0 J D →
  plan_inv actions rh0 st → J st →
  match schedule_remaining agents rd dc fuel st with
  | Done st' => plan_inv actions rh0 st' ∧ J st' ∧ extends st st'
                ∧ unassigned_actions st' = []
  | Raise e => (∃ ids, e = SchedulingStarvation ids) ∨ E e
  | OutOfFuel => True
  end.
Proof.
  intros D_desired.
  revert st. induction fuel as [|fuel IH]; intros st Hinv HJ; [done|].
  cbn [schedule_remaining].
  destruct (unassigned_actions st) as [|kv un] eqn:Hun.
  { split_and!; [done..|apply extends_refl|done]. }
  pose proof (available_actions_subseteq actions rh0 st Hinv) as Hav.
  assert (Forall (λ t, deps_assigned (assigned_actions st) (depends_on t))
                 (available_actions st)) as Hready.
  { apply Forall_forall. by intros t [? _]%list_elem_of_filter. }
  destruct (available_actions st) as [|a av]; [left; by eexists|].
  assert (sorted_desc (priority dc) (a :: av) ⊆ actions) as Hsub.
  { intros x Hx%sorted_desc_elem_of. by apply Hav. }
  assert (Forall (λ t, deps_assigned (assigned_actions st) (depends_on t))
                 (sorted_desc (priority dc) (a :: av))) as Hready'.
  { apply Forall_forall. intros x Hx%sorted_desc_elem_of.
    by eapply Forall_forall in Hready. }
  pose proof (schedule_available_run fuel _ st D_desired Hsub Hready' Hinv HJ) as Hrun.
  destruct (schedule_available _ _ _ _ _ _) as [st1|e|]; cbn in Hrun |- *; [| |done].
  - destruct Hrun as [[Hinv1 HJ1] Hext].
    specialize (IH st1 Hinv1 HJ1).
    destruct (schedule_remaining agents rd dc fuel st1) as [st2|e|]; [|done..].
    destruct IH as (? & ? & Hext2 & ?). split_and!; [done..|by eapply extends_trans|done].
  - by right.
Qed.
End GenericRun.

Lemma plan_parallel_actions_run actions agents rh
    (J : PlanState → Prop) (D : PlanState → Action → Z → Prop) (E : Exn → Prop) fuel :
  (∀ st st' c d, extends st st' → D st c d → D st' c d) →
  step_ok actions agents (build_reverse_dependencies actions) rh J D E →
  (∀ st t, depends_on t = [] → D st t 1) →
  desired_ok actions rh J D →
  J (initial_state rh actions) →
  match plan_parallel_actions fuel rh actions agents with
  | Done (r, rh') =>
      ∃ st, plan_inv actions rh st ∧ J st
            ∧ unassigned_actions st = []
            ∧ stages r = stage_assignments st
            ∧ rh' = recent_handler st
  | Raise e =>
      validate_dependencies actions = Raise e
      ∨ (∃ ids, e = SchedulingStarvation ids)
      ∨ E e
  | OutOfFuel => True
  end.
Proof.
  intros D_stable J_step D_root D_desired J0.
  unfold plan_parallel_actions, plan_roots.
  destruct (validate_dependencies actions) as [[]|e|] eqn:Hval; cbn; [|by left|done].
  pose proof (build_reverse_dependencies_elem_of actions) as Hrd.
  assert (sorted_desc
            (priority (build_dependency_count (build_reverse_dependencies actions) actions))
            (root_tasks actions) ⊆ actions) as Hsub.
  { intros a Ha%sorted_desc_elem_of. unfold root_tasks in Ha.
    by apply list_elem_of_filter in Ha as [_ ?]. }
  assert (Forall (λ t, depends_on t = [])
            (sorted_desc
               (priority (build_dependency_count (build_reverse_dependencies actions)
                            actions))
               (root_tasks actions))) as Hnodeps.
  { apply Forall_forall. intros a Ha%sorted_desc_elem_of. unfold root_tasks in Ha.
    by apply list_elem_of_filter in Ha as [[? _] _]. }
  pose proof (schedule_roots_run actions agents _
                (build_dependency_count (build_reverse_dependencies actions) actions)
                rh J D E Hrd D_stable J_step fuel _ (initial_state rh actions)
                D_root Hsub Hnodeps (initial_state_inv actions rh) J0) as Hroots.
  destruct (schedule_roots _ _ _ _ _ _) as [st1|e|]; cbn in Hroots |- *; [|by auto|done].
  destruct Hroots as [[Hinv1 HJ1] _].
  pose proof (schedule_remaining_run actions agents _
                (build_dependency_count (build_reverse_dependencies actions) actions)
                rh J D E Hrd D_stable J_step fuel st1 D_desired Hinv1 HJ1) as Hrem.
  destruct (schedule_remaining _ _ _ _ _) as [st2|e|]; cbn in Hrem |- *; [| |done].
  - destruct Hrem as (? & ? & _ & ?). by exists st2.
  - destruct Hrem as [?|?]; auto.
Qed.

(** ** Which exceptions a call can raise *)



(** ** The stages in use *)

Lemma elem_of_preferred_fold rh free objs acc x :
  x ∈ foldl (preferred_step rh free) acc objs
  ↔ x ∈ acc ∨ (x ∈ free ∧ ∃ o, o ∈ objs ∧ rh !! o = Some x).
Proof.
  revert acc. induction objs as [|o objs IH]; intros acc; cbn [foldl].
  { split; [by left|]. intros [?|(_ & o & Ho & _)]; [done|]. by apply not_elem_of_nil in Ho. }
  rewrite IH. unfold preferred_step.
  destruct (rh !! o) as [ag|] eqn:Hag.
  - case_decide as Hd.
    + rewrite elem_of_app, list_elem_of_singleton. split.
      * intros [[?| ->]|(? & o' & ? & ?)]; [by left| |].
        -- right. split; [tauto|]. exists o. split; [by left|done].
        -- right. split; [done|]. exists o'. split; [by right|done].
      * intros [?|(? & o' & [-> |?]%elem_of_cons & Ho')]; [by left;left| |].
        -- left. right. congruence.
        -- right. split; [done|]. by exists o'.
    + split.
      * intros [?|(? & o' & ? & ?)]; [by left|].
        right. split; [done|]. exists o'. split; [by right|done].
      * intros [?|(Hx & o' & [-> |?]%elem_of_cons & Ho')]; [by left| |].
        -- left. assert (ag = x) as -> by congruence.
           destruct (decide (x ∈ acc)); [done|]. exfalso. apply Hd. by split.
        -- right. split; [done|]. by exists o'.
  - split.
    + intros [?|(? & o' & ? & ?)]; [by left|].
      right. split; [done|]. exists o'. split; [by right|done].
    + intros [?|(Hx & o' & [-> |?]%elem_of_cons & Ho')]; [by left|congruence|].
      right. split; [done|]. by exists o'.
Qed.

Lemma elem_of_preferred_agents rh free objs x :
  x ∈ preferred_agents rh free objs ↔ x ∈ free ∧ ∃ o, o ∈ objs ∧ rh !! o = Some x.
Proof.
  unfold preferred_agents. rewrite elem_of_preferred_fold, elem_of_nil. tauto.
Qed.

Lemma length_filter_le {A} (P Q : A → Prop) `{!∀ x, Decision (P x)} `{!∀ x, Decision (Q x)}
    (l : list A) :
  (∀ x, x ∈ l → P x → Q x) → (length (filter P l) ≤ length (filter Q l))%nat.
Proof.
  induction l as [|x l IH]; intros HPQ; [done|].
  rewrite !filter_cons.
  specialize (IH (λ y Hy, HPQ y (list_elem_of_further _ _ _ Hy))).
  pose proof (HPQ x (list_elem_of_here _ _)).
  repeat case_decide; cbn; try lia. tauto.
Qed.

(** More free agents never make the choice fail. *)
Lemma choose_agents_mono rh task (G G' : Agent → Prop)
    `{!∀ x, Decision (G x)} `{!∀ x, Decision (G' x)} (l : list Agent) :
  (∀ x, G x → G' x) →
  is_Some (choose_agents rh (filter G l) task) →
  is_Some (choose_agents rh (filter G' l) task).
Proof.
  intros HG. unfold choose_agents.
  set (p := preferred_agents rh (filter G l) (objects task)).
  set (p' := preferred_agents rh (filter G' l) (objects task)).
  assert (p ⊆ p') as Hsub.
  { intros x [[? ?]%list_elem_of_filter ?]%elem_of_preferred_agents.
    apply elem_of_preferred_agents. split; [|done]. apply list_elem_of_filter. auto. }
  assert (length p ≤ length p')%nat as Hp.
  { apply submseteq_length, NoDup_submseteq; [apply preferred_agents_NoDup|done]. }
  assert (length (filter (λ a, a ∉ p) (filter G l))
          ≤ length (filter (λ a, a ∉ p') (filter G' l)))%nat as Ho.
  { rewrite !list_filter_filter. apply length_filter_le.
    intros x Hx [Hnp HGx]. split; [|by apply HG].
    intros [_ Hh]%elem_of_preferred_agents. apply Hnp.
    apply elem_of_preferred_agents. split; [|done]. by apply list_elem_of_filter. }
  repeat case_decide; try done; lia.
Qed.

(** A task that finds agents in some stage finds agents in a stage that
    holds no assignment. *)
Lemma try_stage_empty_succeeds agents st task s e :
  is_Some (try_stage agents st task s) → empty_stage st e →
  is_Some (try_stage agents st task e).
Proof.
  unfold try_stage. intros Hs He. rewrite (get_free_agents_empty agents st e He).
  unfold get_free_agents in Hs. rewrite list_filter_filter in Hs.
  revert Hs. apply choose_agents_mono. tauto.
Qed.

Lemma starts_after_extends st st' d : extends st st' → starts_after st d → starts_after st' d.
Proof.
  intros [_ Hpre] [Hd1 Hd2]. split; [done|].
  destruct Hd2 as [?|Hne]; [by left|right].
  unfold empty_stage in *. intros He. apply Hne.
  specialize (Hpre (d - 1)). rewrite He in Hpre. by apply prefix_nil_inv.
Qed.

Lemma contiguous_step actions agents rd rh :
  step_ok actions agents rd rh (λ st, contiguous (stage_assignments st))
    (λ st _ d, starts_after st d) (λ _, True).
Proof.
  intros st task d s assigned Hinv [Hne Hkeys] Htask Hmem [Hd1 Hd2] Hle Hfail Htry.
  unfold assign. cbn.
  destruct (update_object_tracking _ task assigned) as [rh'| |]; cbn; [|done..].
  assert (∀ s', 1 ≤ s' < s → is_Some (stage_assignments st !! s')) as Hbelow.
  { intros s' Hs'. destruct (decide (s' < d)) as [Hlt|Hge].
    - destruct Hd2 as [-> |Hused]; [lia|].
      assert (is_Some (stage_assignments st !! (d - 1))) as Hsome.
      { unfold empty_stage in Hused.
        destruct (stage_assignments st !! (d - 1)); [done|]. by exfalso. }
      apply (Hkeys _ Hsome). lia.
    - destruct (stage_assignments st !! s') as [l|] eqn:Hl; [done|]. exfalso.
      assert (empty_stage st s') as He by (unfold empty_stage; by rewrite Hl).
      destruct (try_stage_empty_succeeds agents st task s s') as [x Hx]; [done..|].
      rewrite Hfail in Hx by lia. done. }
  split.
  - split.
    + intros s' l Hl. destruct (decide (s = s')) as [-> |Hns].
      * rewrite lookup_insert_eq in Hl. injection Hl as <-.
        by destruct (default [] (stage_assignments st !! s')).
      * rewrite lookup_insert_ne in Hl by done. by eapply Hne.
    + intros s' Hs'.
      assert (1 ≤ s' ∧ ∀ s'', 1 ≤ s'' ≤ s' → s'' = s ∨ is_Some (stage_assignments st !! s''))
        as [H1 H2].
      { destruct (decide (s = s')) as [<- |Hns].
        - split; [lia|]. intros s'' ?. destruct (decide (s'' = s)); [by left|right].
          apply Hbelow. lia.
        - rewrite lookup_insert_ne in Hs' by done.
          destruct (Hkeys _ Hs') as [? Hb]. split; [done|]. intros; right; by apply Hb. }
      split; [done|]. intros s'' Hs''.
      destruct (H2 s'' Hs'') as [-> |Hold]; [by rewrite lookup_insert_eq|].
      destruct (decide (s = s'')) as [-> |?]; [by rewrite lookup_insert_eq|].
      by rewrite lookup_insert_ne.
  - intros c _. split; [lia|]. right. replace (s + 1 - 1) with s by lia.
    unfold empty_stage. cbn. rewrite lookup_insert_eq. cbn.
    by destruct (default [] (stage_assignments st !! s)).
Qed.

Lemma contiguous_desired actions rh :
  desired_ok actions rh (λ st, contiguous (stage_assignments st))
    (λ st _ d, starts_after st d).
Proof.
  intros st t d Hinv [Hne Hkeys] Ht Hready Hd.
  destruct (desired_stage_Done _ _ Hready) as (d' & Hd' & Hcases).
  assert (d' = d) as -> by congruence.
  destruct Hcases as [[_ ->]|[(dep & _ & Hdep) _]]; [split; [lia|by left]|].
  destruct (inv_assigned _ _ _ Hinv _ _ Hdep) as (l & asg & Hl & Hin & _).
  destruct (Hkeys (d - 1)) as [H1 _]; [by rewrite Hl|].
  split; [lia|]. right. unfold empty_stage. rewrite Hl. cbn.
  intros ->. by apply not_elem_of_nil in Hin.
Qed.

Lemma plan_contiguous fuel rh actions agents r rh' :
  plan_parallel_actions fuel rh actions agents = Done (r, rh') →
  contiguous (stages r).
Proof.
  intros Hrun.
  pose proof (plan_parallel_actions_run actions agents rh
                (λ st, contiguous (stage_assignments st))
                (λ st _ d, starts_after st d) (λ _, True) fuel
                (λ st st' _ d, starts_after_extends st st' d)
                (contiguous_step actions agents _ rh)
                (λ st t _, conj (Z.le_refl 1) (or_introl eq_refl))
                (contiguous_desired actions rh)) as H.
  rewrite Hrun in H. destruct H as (st & _ & Hc & _ & -> & _); [|done].
  split; [intros s l Hl|intros s [l Hl]]; cbn in Hl; by rewrite lookup_empty in Hl.
Qed.

Lemma max_stage_spec r :
  (stages r = ∅ ∧ max_stage r = 0)
  ∨ (is_Some (stages r !! max_stage r)
     ∧ ∀ k, is_Some (stages r !! k) → k ≤ max_stage r).
Proof.
  unfold max_stage.
  destruct (map_to_list (stages r)) as [|[k l] kvs] eqn:Hlist.
  { left. split; [|done]. by apply map_to_list_empty_iff. }
  right. cbn.
  assert (∀ k', is_Some (stages r !! k') ↔ k' ∈ k :: kvs.*1) as Hkeys.
  { intros k'. change (k :: kvs.*1) with (((k, l) :: kvs).*1). rewrite <-Hlist.
    rewrite list_elem_of_fmap. split.
    - intros [l' Hl']. exists (k', l'). split; [done|]. by apply elem_of_map_to_list.
    - intros ([k'' l'] & -> & Hin%elem_of_map_to_list). by exists l'. }
  destruct (foldl_max_spec k (kvs.*1)) as [Hin Hmax].
  split; [by apply Hkeys|]. intros k' Hk'. by apply Hmax, Hkeys.
Qed.

Lemma contiguous_range r s :
  contiguous (stages r) → is_Some (stages r !! s) ↔ 1 ≤ s ≤ max_stage r.
Proof.
  intros [_ Hkeys].
  destruct (max_stage_spec r) as [[Hempty H0]|[Hmax Hle]].
  - rewrite Hempty, H0, lookup_empty. split; [by intros [? ?]|lia].
  - split.
    + intros Hs. split; [by apply Hkeys|by apply Hle].
    + intros Hs. by apply (Hkeys _ Hmax).
Qed.

(** ** The reverse dependencies *)

Lemma reverse_dependencies_inner (a : Action) (i : string) deps (rd : gmap string (list Action)) :
  default [] (foldl (λ rd dep, <[dep := default [] (rd !! dep) ++ [a]]> rd) rd deps !! i)
  = default [] (rd !! i) ++ (dep ← deps; if decide (dep = i) then [a] else []).
Proof.
  revert rd. induction deps as [|dep deps IH]; intros rd; cbn [foldl].
  { by rewrite app_nil_r. }
  rewrite IH. cbn. destruct (decide (dep = i)) as [-> |Hne].
  - rewrite lookup_insert_eq. cbn. by rewrite <-app_assoc.
  - by rewrite lookup_insert_ne.
Qed.

Lemma reverse_dependencies_outer (i : string) actions (rd : gmap string (list Action)) :
  default []
    (foldl (λ rd a,
              foldl (λ rd dep, <[dep := default [] (rd !! dep) ++ [a]]> rd) rd (depends_on a))
           rd actions !! i)
  = default [] (rd !! i) ++ dependents actions i.
Proof.
  revert rd. induction actions as [|a actions IH]; intros rd; cbn [foldl].
  { by rewrite app_nil_r. }
  rewrite IH, reverse_dependencies_inner. unfold dependents. cbn.
  by rewrite <-app_assoc.
Qed.

Lemma build_reverse_dependencies_lookup actions i :
  default [] (build_reverse_dependencies actions !! i) = dependents actions i.
Proof.
  unfold build_reverse_dependencies. by rewrite reverse_dependencies_outer, lookup_empty.
Qed.

Lemma elem_of_dependents actions i c :
  c ∈ dependents actions i ↔ c ∈ actions ∧ i ∈ depends_on c.
Proof.
  unfold dependents. rewrite list_elem_of_bind. split.
  - intros (a & (dep & Hc & Hdep)%list_elem_of_bind & Ha).
    case_decide; [|by apply not_elem_of_nil in Hc].
    apply list_elem_of_singleton in Hc. by subst.
  - intros [Hc Hi]. exists c. split; [|done].
    apply list_elem_of_bind. exists i. split; [|done].
    rewrite decide_True by done. by left.
Qed.

Lemma build_dependency_count_lookup (rd : gmap string (list Action)) actions a :
  a ∈ actions →
  build_dependency_count rd actions !! act_id a
  = Some (length (default [] (rd !! act_id a))).
Proof.
  unfold build_dependency_count.
  assert (∀ (dc : gmap string nat),
    (a ∈ actions
     ∨ dc !! act_id a = Some (length (default [] (rd !! act_id a)))) →
    foldl (λ dc a, <[act_id a := length (default [] (rd !! act_id a))]> dc) dc actions
      !! act_id a
    = Some (length (default [] (rd !! act_id a)))) as H.
  { induction actions as [|x l IH]; intros dc Hdc; cbn [foldl].
    - destruct Hdc as [Hin|?]; [by apply not_elem_of_nil in Hin|done].
    - apply IH. destruct (decide (act_id x = act_id a)) as [Heq|Hne].
      + right. by rewrite Heq, lookup_insert_eq.
      + destruct Hdc as [[-> |?]%elem_of_cons|?]; [done|by left|].
        right. by rewrite lookup_insert_ne. }
  intros Ha. apply H. by left.
Qed.

(** ** The order of the stages *)

Lemma ordered_step actions agents rh :
  unique_ids actions →
  step_ok actions agents (build_reverse_dependencies actions) rh
    (λ st, ordered actions (assigned_actions st))
    (λ st task d, after_some_dependency (assigned_actions st) task d) (λ _, True).
Proof.
  intros Huniq st task d s assigned Hinv Hord Htask Hmem HD Hle _ _.
  unfold assign. cbn.
  destruct (update_object_tracking _ task assigned) as [rh'| |]; cbn; [|done..].
  pose proof (inv_fresh _ _ _ Hinv _ Hmem) as Hfresh.
  assert (∀ a s0, after_some_dependency (assigned_actions st) a s0 →
                  after_some_dependency (<[act_id task := s]> (assigned_actions st)) a s0)
    as Hkeep.
  { intros a s0 [?|(dep & s' & ? & Hdep & ?)]; [by left|right].
    exists dep, s'. split_and!; [done| |done].
    rewrite lookup_insert_ne; [done|]. intros <-. congruence. }
  split.
  - intros a s0 Ha Hs0. destruct (decide (act_id a = act_id task)) as [Heq|Hne].
    + rewrite Heq, lookup_insert_eq in Hs0. injection Hs0 as <-.
      assert (a = task) as -> by by eapply unique_ids_inj.
      apply Hkeep. destruct HD as [?|(dep & s' & ? & ? & ?)]; [by left|right].
      exists dep, s'. split_and!; [done..|lia].
    + rewrite lookup_insert_ne in Hs0 by done. by apply Hkeep, Hord.
  - intros c Hc. rewrite build_reverse_dependencies_lookup in Hc.
    apply elem_of_dependents in Hc as [_ Hdep]. right.
    exists (act_id task), s. split_and!; [done|by rewrite lookup_insert_eq|lia].
Qed.

Lemma plan_ordered fuel rh actions agents r rh' :
  unique_ids actions →
  plan_parallel_actions fuel rh actions agents = Done (r, rh') →
  ∃ st, plan_inv actions rh st ∧ ordered actions (assigned_actions st)
        ∧ stages r = stage_assignments st.
Proof.
  intros Huniq Hrun.
  pose proof (plan_parallel_actions_run actions agents rh
                (λ st, ordered actions (assigned_actions st))
                (λ st task d, after_some_dependency (assigned_actions st) task d)
                (λ _, True) fuel) as H.
  rewrite Hrun in H. destruct H as (st & ? & ? & _ & ? & _).
  - intros st st' c d [Hsub _] [?|(dep & s' & ? & ? & ?)]; [by left|right].
    exists dep, s'. split_and!; [done| |done]. by eapply lookup_weaken.
  - by apply ordered_step.
  - intros st t Ht. by left.
  - intros st t d Hinv _ Ht Hready Hd.
    destruct (desired_stage_Done _ _ Hready) as (d' & Hd' & Hcases).
    assert (d' = d) as -> by congruence.
    destruct Hcases as [[? _]|[(dep & ? & ?) _]]; [by left|right].
    exists dep, (d - 1). split_and!; [done..|lia].
  - intros a s _ Hs. cbn in Hs. by rewrite lookup_empty in Hs.
  - by exists st.
Qed.

Lemma in_stage_assigned actions rh st r s i :
  plan_inv actions rh st → stages r = stage_assignments st →
  in_stage r s i ↔ assigned_actions st !! i = Some s.
Proof.
  intros Hinv Hst. unfold in_stage. rewrite Hst. split.
  - intros (asg & Hin & <-).
    destruct (stage_assignments st !! s) as [l|] eqn:Hl; cbn in Hin;
      [|by apply not_elem_of_nil in Hin].
    by destruct (inv_assignment _ _ _ Hinv _ _ _ Hl Hin) as (_ & ? & _).
  - intros Hs. destruct (inv_assigned _ _ _ Hinv _ _ Hs) as (l & asg & Hl & Hin & Hid).
    exists asg. by rewrite Hl.
Qed.

(** ** The agents of an assignment *)

Lemma py_prefix_sublist {A} n (l : list A) : py_prefix n l `sublist_of` l.
Proof. unfold py_prefix. case_decide; apply sublist_take. Qed.

Lemma choose_agents_NoDup rh free task assigned :
  NoDup free → choose_agents rh free task = Some assigned → NoDup assigned.
Proof.
  intros Hfree. unfold choose_agents. intros H.
  pose proof (preferred_agents_NoDup rh free (objects task)) as Hp.
  repeat case_decide; simplify_eq.
  - eapply sublist_NoDup; [done|apply py_prefix_sublist].
  - apply NoDup_app. split_and!; [done| |].
    + intros x Hx Hx'. apply py_prefix_subseteq in Hx'.
      by apply list_elem_of_filter in Hx' as [? _].
    + eapply sublist_NoDup; [|apply py_prefix_sublist]. by apply NoDup_filter.
Qed.

Lemma roster_step actions agents rd rh :
  step_ok actions agents rd rh (λ st, from_roster agents (stage_assignments st))
    (λ _ _ _, True) (λ _, True).
Proof.
  intros st task d s assigned Hinv Hfrom Htask Hmem _ _ _ Htry.
  unfold assign. cbn.
  destruct (update_object_tracking _ task assigned) as [rh'| |]; cbn; [|done..].
  split; [|done]. intros s' l asg Hl Hin.
  assert (asg = {| action_id := act_id task; assigned_agents := assigned;
                   stage := s; asg_description := description task |}
          ∨ ∃ l', stage_assignments st !! s' = Some l' ∧ asg ∈ l') as [-> |(l' & Hl' & Hin')].
  { destruct (decide (s = s')) as [-> |Hne].
    - rewrite lookup_insert_eq in Hl. injection Hl as <-.
      apply elem_of_app in Hin as [Hin|Hin%list_elem_of_singleton]; [|by left].
      right. destruct (stage_assignments st !! s') as [l'|]; cbn in Hin; [by eauto|].
      by apply not_elem_of_nil in Hin.
    - rewrite lookup_insert_ne in Hl by done. right. eauto. }
  - cbn. split.
    + intros x Hx. by apply (try_stage_spec _ _ _ _ _ Htry).
    + intros Hn. unfold try_stage in Htry. eapply choose_agents_NoDup; [|done].
      by do 2 apply NoDup_filter.
  - by eapply Hfrom.
Qed.

Lemma plan_from_roster fuel rh actions agents r rh' :
  plan_parallel_actions fuel rh actions agents = Done (r, rh') →
  from_roster agents (stages r).
Proof.
  intros Hrun.
  pose proof (plan_parallel_actions_run actions agents rh
                (λ st, from_roster agents (stage_assignments st))
                (λ _ _ _, True) (λ _, True) fuel
                (λ _ _ _ _ _ _, I) (roster_step actions agents _ rh)
                (λ _ _ _, I) (λ _ _ _ _ _ _ _ _, I)) as H.
  rewrite Hrun in H. destruct H as (st & _ & Hc & _ & -> & _); [|done].
  intros s l asg Hl. cbn in Hl. by rewrite lookup_empty in Hl.
Qed.

(** ** The number of stages *)

Lemma distinct_values_size (f : string → option Z) (ks : list Z) (X : gset string) :
  NoDup ks → (∀ k, k ∈ ks → ∃ i, i ∈ X ∧ f i = Some k) → (length ks ≤ size X)%nat.
Proof.
  intros Hn. revert X. induction Hn as [|k ks Hk _ IH]; intros X Hall; cbn; [lia|].
  destruct (Hall k) as (i & Hi & Hfi); [by left|].
  assert (length ks ≤ size (X ∖ {[i]}))%nat as Hle.
  { apply IH. intros k' Hk'. destruct (Hall k') as (i' & Hi' & Hfi'); [by right|].
    exists i'. split; [|done]. apply elem_of_difference. split; [done|].
    intros ->%elem_of_singleton. congruence. }
  rewrite size_difference in Hle by set_solver. rewrite size_singleton in Hle.
  assert (size X ≠ 0)%nat; [|lia]. apply size_non_empty_iff. set_solver.
Qed.

Lemma plan_stage_count fuel rh actions agents r rh' :
  plan_parallel_actions fuel rh actions agents = Done (r, rh') →
  max_stage r ≤ Z.of_nat (length actions).
Proof.
  intros Hrun. pose proof (plan_contiguous _ _ _ _ _ _ Hrun) as Hc.
  apply plan_parallel_actions_Done in Hrun as (st & Hinv & _ & Hst & _).
  assert (length (seqZ 1 (max_stage r)) ≤ size (action_ids actions))%nat as Hle.
  { apply (distinct_values_size (λ i, assigned_actions st !! i)); [apply NoDup_seqZ|].
    intros k Hk%elem_of_seqZ.
    destruct (proj2 (contiguous_range r k Hc)) as [l Hl]; [lia|].
    destruct Hc as [Hne _]. specialize (Hne _ _ Hl).
    destruct l as [|asg l]; [done|]. rewrite Hst in Hl.
    destruct (inv_assignment _ _ _ Hinv k _ asg Hl) as (_ & Hk' & a & Ha & Hmade & _);
      [by left|].
    exists (action_id asg). split; [|done].
    destruct Hmade as [-> _]. apply elem_of_list_to_set, list_elem_of_fmap. eauto. }
  rewrite length_seqZ in Hle.
  pose proof (size_list_to_set_le (act_id <$> actions)) as Hlen.
  rewrite length_fmap in Hlen. unfold action_ids in Hle. lia.
Qed.

(** ** Which action an error of validation names *)

Lemma find_first {A} (f : A → bool) (l : list A) x :
  find f l = Some x →
  ∃ pre post, l = pre ++ x :: post ∧ f x = true ∧ ∀ y, y ∈ pre → f y = false.
Proof.
  induction l as [|z l IH]; cbn; [done|].
  destruct (f z) eqn:Hz.
  - intros [= ->]. exists [], l. split_and!; [done..|].
    intros y Hy. by apply not_elem_of_nil in Hy.
  - intros (pre & post & -> & Hx & Hpre)%IH. exists (z :: pre), post.
    split_and!; [done..|]. intros y [-> |Hy]%elem_of_cons; [done|by apply Hpre].
Qed.

Lemma first_missing_first (ids : gset string) l a dep :
  first_missing ids l = Some (a, dep) →
  ∃ pre x post dpre dpost,
    l = pre ++ x :: post ∧ act_id x = a
    ∧ depends_on x = dpre ++ dep :: dpost
    ∧ (dep ∉ ids)
    ∧ (∀ d, d ∈ dpre → d ∈ ids)
    ∧ ∀ y d, y ∈ pre → d ∈ depends_on y → d ∈ ids.
Proof.
  induction l as [|z l IH]; cbn; [done|].
  destruct (find _ (depends_on z)) as [d|] eqn:Hfind.
  - intros [= <- <-].
    apply find_first in Hfind as (dpre & dpost & Hdeps & Hd%bool_decide_eq_true & Hpre).
    exists [], z, l, dpre, dpost. split_and!; [done..| |].
    + intros d' Hd'. specialize (Hpre d' Hd'). apply bool_decide_eq_false in Hpre.
      by destruct (decide (d' ∈ ids)).
    + intros y d' Hy. by apply not_elem_of_nil in Hy.
  - intros (pre & x & post & dpre & dpost & -> & ? & ? & ? & ? & Hpre)%IH.
    exists (z :: pre), x, post, dpre, dpost. split_and!; [done..|].
    intros y d' [-> |Hy]%elem_of_cons Hd'; [|by eapply Hpre].
    by apply (proj1 (find_missing_None ids (depends_on z)) Hfind).
Qed.

Section CycleReport.
Context (actions : list Action).
Hypothesis Hclosed : ∀ a d, edge actions a d → d ∈ action_ids actions.

(** What a result of the search says about the path: a [True] result,
    when the identifiers on the path reach the one searched, means that it
    reaches a cycle; a [False] result leaves no identifier on the path that
    was not there. *)
Lemma cycle_in_deps_path
    (rec : string → gset string → gset string → Outcome (bool * gset string * gset string))
    deps V P (b : bool) V' P' :
  (∀ aid V P (b : bool) V' P',
     rec aid V P = Done (b, V', P') →
     if b then ((∀ p, p ∈ P → tc (edge actions) p aid) → reaches_cycle actions aid)
     else P' ⊆ P) →
  cycle_in_deps rec deps V P = Done (b, V', P') →
  if b then ((∀ p d, p ∈ P → d ∈ deps → tc (edge actions) p d) →
             ∃ d, d ∈ deps ∧ reaches_cycle actions d)
  else P' ⊆ P.
Proof.
  intros Hrec. revert V P.
  induction deps as [|dep deps IH]; intros V P; cbn [cycle_in_deps].
  { by intros [= <- <- <-]. }
  destruct (rec dep V P) as [[[b1 V1] P1]| |] eqn:Hr; cbn; [|done..].
  specialize (Hrec _ _ _ _ _ _ Hr). destruct b1.
  - intros [= <- <- <-]. intros Hpath. exists dep. split; [by left|].
    apply Hrec. intros p Hp. apply Hpath; [done|by left].
  - intros Hrest. specialize (IH _ _ Hrest). destruct b.
    + intros Hpath. destruct IH as (d & Hd & Hcyc).
      { intros p d Hp Hd. apply Hpath; [by apply Hrec|by right]. }
      exists d. split; [by right|done].
    + by etrans.
Qed.

Lemma has_cycle_path fuel aid V P b V' P' :
  has_cycle fuel actions aid V P = Done (b, V', P') →
  if b then ((∀ p, p ∈ P → tc (edge actions) p aid) → reaches_cycle actions aid)
  else P' ⊆ P.
Proof.
  revert aid V P b V' P'.
  induction fuel as [|fuel IH]; intros aid V P b V' P'; cbn [has_cycle]; [done|].
  destruct (decide (aid ∈ P)) as [HP|HP].
  { intros [= <- <- <-]. intros Hpath. exists aid. split; [done|by apply Hpath]. }
  destruct (decide (aid ∈ V)) as [HV|HV].
  { by intros [= <- <- <-]. }
  destruct (lookup_action actions aid) as [a|] eqn:Ha; [|done].
  destruct (cycle_in_deps _ _ _ _) as [[[b1 V1] P1]| |] eqn:Hr; cbn; [|done..].
  pose proof (cycle_in_deps_path _ _ _ _ _ _ _ IH Hr) as Hdeps.
  destruct b1; intros [= <- <- <-].
  - intros Hpath. destruct Hdeps as (d & Hd & c & Hreach & Hcyc).
    + intros p d [Hp| ->%elem_of_singleton]%elem_of_union Hd.
      * eapply tc_r; [by apply Hpath|]. by exists a.
      * apply tc_once. by exists a.
    + exists c. split; [|done]. eapply rtc_l; [|done]. by exists a.
  - set_solver.
Qed.

Lemma finished_no_cycle V b :
  dfs_inv actions V ∅ → b ∈ V → ¬ reaches_cycle actions b.
Proof.
  intros (_ & Hcl & Hac) Hb (c & Hreach & Hcyc).
  assert (c ∈ V) as Hc.
  { clear Hcyc. induction Hreach as [|x y z Hxy _ IH]; [done|].
    apply IH. by apply (Hcl x y). }
  by apply (Hac c).
Qed.

Lemma cycle_scan_first todo V a :
  dfs_inv actions V ∅ → todo ⊆ actions →
  cycle_scan (S (length actions)) actions todo V = Raise (CyclicDependency a) →
  ∃ pre x post,
    todo = pre ++ x :: post ∧ act_id x = a
    ∧ reaches_cycle actions a
    ∧ ∀ y, y ∈ pre → ¬ reaches_cycle actions (act_id y).
Proof.
  revert V. induction todo as [|x todo IH]; intros V Hinv Htodo; cbn [cycle_scan]; [done|].
  destruct (decide (act_id x ∈ V)) as [HV|HV].
  - intros (pre & x' & post & -> & ? & ? & Hpre)%IH; [|done|set_solver].
    exists (x :: pre), x', post. split_and!; [done..|].
    intros y [-> |Hy]%elem_of_cons; [by eapply finished_no_cycle|by apply Hpre].
  - destruct (has_cycle_ok_fuel actions Hclosed (S (length actions)) (act_id x) V ∅)
      as (b & V1 & P1 & Hr & Hpost); [done|set_solver| |..].
    { apply elem_of_list_to_set, list_elem_of_fmap. exists x. set_solver. }
    { assert (action_ids actions ∖ V ⊆ action_ids actions) as Hle by set_solver.
      apply subseteq_size in Hle.
      pose proof (size_list_to_set_le (act_id <$> actions)) as Hlen.
      rewrite length_fmap in Hlen. unfold action_ids in *. lia. }
    rewrite Hr. cbn. destruct b.
    + intros [= <-]. exists [], x, todo. split_and!; [done..| |].
      * apply (has_cycle_path _ _ _ _ _ _ _ Hr). set_solver.
      * intros y Hy. by apply not_elem_of_nil in Hy.
    + destruct Hpost as (-> & Hsub & Hin & _ & Hinv1).
      intros (pre & x' & post & -> & ? & ? & Hpre)%IH; [|done|set_solver].
      exists (x :: pre), x', post. split_and!; [done..|].
      intros y [-> |Hy]%elem_of_cons; [by eapply finished_no_cycle|by apply Hpre].
Qed.
End CycleReport.

(** ** The text of a plan *)



Lemma max_stage_low r :
  (∀ s, is_Some (stages r !! s) → s < 1) → max_stage r ≤ 0.
Proof.
  intros Hlow. destruct (max_stage_spec r) as [[_ ->]|[Hmax _]]; [done|].
  specialize (Hlow _ Hmax). lia.
Qed.




(** ** The free agents of a stage *)

Lemma get_free_agents_assign st task s assigned st' agents s' :
  assign st task s assigned = Done st' →
  get_free_agents s' (stage_assignments st') agents
  = if decide (s' = s)
    then filter (λ a, agent_id a ∉ agent_id <$> assigned)
           (get_free_agents s (stage_assignments st) agents)
    else get_free_agents s' (stage_assignments st) agents.
Proof.
  intros Hassign. unfold assign in Hassign. cbn in Hassign.
  destruct (update_object_tracking _ task assigned) as [rh'| |]; simplify_eq/=.
  unfold get_free_agents. case_decide as Hs.
  - subst s'. rewrite list_filter_filter. apply list_filter_iff. intros a.
    rewrite !elem_of_used_ids, lookup_insert_eq. cbn. split.
    + intros Hfree. split.
      * intros Hin. apply Hfree. eexists. split; [apply elem_of_app; right; by left|done].
      * intros (asg & Hin & Hid). apply Hfree. exists asg. split; [|done].
        apply elem_of_app. by left.
    + intros [Hnew Hold] (asg & [Hin|Hin%list_elem_of_singleton]%elem_of_app & Hid).
      * apply Hold. by exists asg.
      * subst asg. by apply Hnew.
  - apply list_filter_iff. intros a. unfold used_ids. by rewrite lookup_insert_ne.
Qed.

(** ** The handlers after an assignment *)

Lemma update_object_tracking_lookup rh action assigned rh' o :
  update_object_tracking rh action assigned = Done rh' →
  rh' !! o = if decide (tracked action ∧ o ∈ objects action) then head assigned
             else rh !! o.
Proof.
  intros Hdone. pose proof (update_object_tracking_spec _ _ _ _ Hdone o) as H.
  case_decide; [|done]. by destruct H as (first & -> & ->).
Qed.

(** ** The dependencies of a result *)

Lemma build_action_dependencies_lookup actions i :
  build_action_dependencies actions !! i
  = depends_on <$> last (filter (λ a, act_id a = i) actions).
Proof.
  unfold build_action_dependencies.
  induction actions as [|a actions IH] using rev_ind; [done|].
  rewrite foldl_app, filter_app. cbn [foldl].
  rewrite filter_cons, filter_nil. case_decide as Hid.
  - subst i. by rewrite lookup_insert_eq, last_snoc.
  - rewrite lookup_insert_ne by done. by rewrite app_nil_r.
Qed.

(** ** The order of the sort *)

Lemma insert_desc_Permutation {A} (key : A → nat) x l : insert_desc key x l ≡ₚ x :: l.
Proof.
  induction l as [|y l IH]; cbn; [done|]. case_decide; [|done].
  rewrite IH. apply Permutation_swap.
Qed.

Lemma sorted_desc_Permutation {A} (key : A → nat) l : sorted_desc key l ≡ₚ l.
Proof.
  unfold sorted_desc. induction l as [|x l IH]; cbn; [done|].
  by rewrite insert_desc_Permutation, IH.
Qed.

Lemma descending_cons {A} (key : A → nat) x l :
  descending key (x :: l) ↔ (∀ y, y ∈ l → (key y ≤ key x)%nat) ∧ descending key l.
Proof.
  split.
  - intros Hd. split.
    + intros y [j Hj]%list_elem_of_lookup. by apply (Hd 0%nat (S j)); [lia|..].
    + intros i j a b Hij Hi Hj. by apply (Hd (S i) (S j)); [lia|..].
  - intros [Hx Hl] [|i] [|j] a b Hij Hi Hj; try lia; simplify_eq/=.
    + apply Hx. by eapply list_elem_of_lookup_2.
    + apply (Hl i j a b); [lia|done..].
Qed.

Lemma insert_desc_descending {A} (key : A → nat) x l :
  descending key l → descending key (insert_desc key x l).
Proof.
  induction l as [|y l IH]; cbn.
  { intros _. apply descending_cons. split; [|done].
    intros y Hy. by apply not_elem_of_nil in Hy. }
  intros [Hy Hl]%descending_cons. case_decide as Hlt.
  - apply descending_cons. split; [|by apply IH].
    intros z [-> |Hz]%insert_desc_elem_of; [lia|by apply Hy].
  - apply descending_cons. split; [|by apply descending_cons].
    intros z [-> |Hz]%elem_of_cons; [lia|]. specialize (Hy z Hz). lia.
Qed.

Lemma sorted_desc_descending {A} (key : A → nat) l : descending key (sorted_desc key l).
Proof.
  unfold sorted_desc. induction l as [|x l IH]; cbn.
  - intros i j a b _ Hi. by rewrite lookup_nil in Hi.
  - by apply insert_desc_descending.
Qed.

Lemma insert_desc_filter {A} (key : A → nat) x l k :
  descending key l →
  filter (λ a, key a = k) (insert_desc key x l)
  = filter (λ a, key a = k) (x :: l).
Proof.
  induction l as [|y l IH]; cbn; [done|].
  intros [Hy Hl]%descending_cons. case_decide as Hlt; [|done].
  rewrite filter_cons, IH by done. rewrite !filter_cons.
  repeat case_decide; try done; lia.
Qed.

Lemma sorted_desc_stable {A} (key : A → nat) l k :
  filter (λ a, key a = k) (sorted_desc key l) = filter (λ a, key a = k) l.
Proof.
  unfold sorted_desc. induction l as [|x l IH]; cbn; [done|].
  rewrite insert_desc_filter by apply sorted_desc_descending.
  rewrite !filter_cons. by rewrite IH.
Qed.

(** * Further properties of the code *)

(** ** Validation *)

(** X1. When some action lists an identifier that names no action,
    [validate_dependencies] raises the missing-dependency error, whether or
    not the input also has a cycle, and the error names the first such
    action in input order and the first unknown identifier in its
    [depends_on] list. *)
Theorem missing_dependency_named_first actions :
  has_missing_dependency actions →
  ∃ pre x post dpre dep dpost,
    actions = pre ++ x :: post
    ∧ depends_on x = dpre ++ dep :: dpost
    ∧ (dep ∉ action_ids actions)
    ∧ (∀ d, d ∈ dpre → d ∈ action_ids actions)
    ∧ (∀ y d, y ∈ pre → d ∈ depends_on y → d ∈ action_ids actions)
    ∧ validate_dependencies actions = Raise (MissingDependency (act_id x) dep).
Proof.
  intros Hmiss. unfold validate_dependencies.
  destruct (first_missing _ actions) as [[a dep]|] eqn:Hfirst.
  - apply first_missing_first
      in Hfirst as (pre & x & post & dpre & dpost & ? & <- & ? & ? & ? & ?).
    by exists pre, x, post, dpre, dep, dpost.
  - by apply first_missing_spec in Hfirst.
Qed.

Lemma missing_dependency_named_first_witness :
  has_missing_dependency Unknown.actions
  ∧ cyclic Unknown.actions
  ∧ validate_dependencies Unknown.actions = Raise (MissingDependency "B" "Z").
Proof.
  assert (has_missing_dependency Unknown.actions) as Hmiss.
  { exists Unknown.b, "Z". unfold Unknown.actions. split_and!.
    - set_solver.
    - cbn. set_solver.
    - apply (bool_decide_unpack _). by vm_compute. }
  split_and!; [done| |].
  - exists "A". apply tc_l with "B"; [|apply tc_once].
    + exists Unknown.a. unfold Unknown.actions. cbn. set_solver.
    + exists Unknown.b. unfold Unknown.actions. cbn. set_solver.
  - destruct (missing_dependency_named_first Unknown.actions Hmiss)
      as (pre & x & post & dpre & dep & dpost & _ & _ & _ & _ & _ & Hr).
    rewrite Hr. by vm_compute.
Defined.

(** X2. When [validate_dependencies] raises the cycle error, the action it
    names is the first action in input order from which a cycle of the
    dependency relation can be reached, following each identifier to the
    first action that bears it; the action itself need not lie on a
    cycle. *)
Theorem cycle_named_at_first_reaching_action actions a :
  validate_dependencies actions = Raise (CyclicDependency a) →
  ∃ pre x post,
    actions = pre ++ x :: post ∧ act_id x = a
    ∧ reaches_cycle actions a
    ∧ ∀ y, y ∈ pre → ¬ reaches_cycle actions (act_id y).
Proof.
  unfold validate_dependencies.
  destruct (first_missing _ actions) as [[a' dep]|] eqn:Hfirst; [done|].
  apply first_missing_spec in Hfirst. intros Hscan.
  assert (∀ b d, edge actions b d → d ∈ action_ids actions) as Hclosed.
  { intros b d [x [Hx Hd]]%edge_needs.
    destruct (decide (d ∈ action_ids actions)) as [|Hn]; [done|].
    exfalso. apply Hfirst. exists x, d. tauto. }
  apply (cycle_scan_first actions Hclosed actions ∅ a (dfs_inv_empty actions Hclosed)); [|done].
  by intros x.
Qed.

Lemma cycle_named_at_first_reaching_action_witness :
  validate_dependencies Tail.actions = Raise (CyclicDependency "A")
  ∧ reaches_cycle Tail.actions "A"
  ∧ ¬ tc (edge Tail.actions) "A" "A".
Proof.
  assert (validate_dependencies Tail.actions = Raise (CyclicDependency "A")) as Hr
    by by_evaluation.
  split_and!; [done| |].
  - by destruct (cycle_named_at_first_reaching_action Tail.actions "A" Hr)
      as (_ & _ & _ & _ & _ & ? & _).
  - assert (∀ x, ¬ edge Tail.actions x "A") as Hno.
    { intros x (y & [Hy _]%lookup_action_Some & Hd). unfold Tail.actions in Hy.
      set_unfold. destruct_or!; subst; cbn in Hd; set_solver. }
    assert (∀ x y, tc (edge Tail.actions) x y → ∃ z, edge Tail.actions z y) as Hlast.
    { induction 1; eauto. }
    intros [z Hz]%Hlast. by apply (Hno z).
Defined.


(** ** The helper functions *)

(** X3. Recording an assignment in stage [s] takes exactly the agents that
    bear an identifier of the assigned agents out of the free agents of
    stage [s], and leaves the free agents of every other stage as they
    were. *)
Theorem assignment_occupies_its_agents st task s assigned st' agents s' :
  assign st task s assigned = Done st' →
  get_free_agents s' (stage_assignments st') agents
  = if decide (s' = s)
    then filter (λ a, agent_id a ∉ agent_id <$> assigned)
           (get_free_agents s (stage_assignments st) agents)
    else get_free_agents s' (stage_assignments st) agents.
Proof. apply get_free_agents_assign. Qed.

Lemma assignment_occupies_its_agents_witness :
  assign (initial_state ∅ Chair.actions) Chair.a1 1 [Chair.A] = Done Chair.st1
  ∧ get_free_agents 1 (stage_assignments Chair.st1) Chair.agents = [Chair.B; Chair.C]
  ∧ get_free_agents 2 (stage_assignments Chair.st1) Chair.agents = Chair.agents.
Proof.
  assert (assign (initial_state ∅ Chair.actions) Chair.a1 1 [Chair.A] = Done Chair.st1)
    as Hassign by by_evaluation.
  split_and!; [done| |].
  - rewrite (assignment_occupies_its_agents _ _ _ _ _ Chair.agents 1 Hassign).
    by vm_compute.
  - rewrite (assignment_occupies_its_agents _ _ _ _ _ Chair.agents 2 Hassign).
    by vm_compute.
Defined.

(** X4. [update_object_tracking] changes the handlers only for a fetch or
    an attach, and then makes the first assigned agent the handler of every
    object of the action, leaving all other entries as they were; it raises
    [IndexError] exactly when a fetch or attach that has objects is given no
    agent, and nothing else. *)
Theorem tracking_records_first_agent rh action assigned :
  match update_object_tracking rh action assigned with
  | Done rh' =>
      ∀ o, rh' !! o = if decide (tracked action ∧ o ∈ objects action) then head assigned
                      else rh !! o
  | Raise e => e = IndexError
  | OutOfFuel => False
  end
  ∧ (update_object_tracking rh action assigned = Raise IndexError
     ↔ tracked action ∧ objects action ≠ [] ∧ assigned = []).
Proof.
  split.
  - destruct (update_object_tracking rh action assigned) as [rh'|e|] eqn:Hr.
    + intros o. by apply update_object_tracking_lookup.
    + unfold update_object_tracking, track_objects in Hr.
      repeat case_decide; destruct (objects action), assigned; by simplify_eq.
    + unfold update_object_tracking, track_objects in Hr.
      repeat case_decide; destruct (objects action), assigned; by simplify_eq.
  - unfold update_object_tracking, track_objects, tracked. split.
    + repeat case_decide; destruct (objects action), assigned; intros; simplify_eq;
        split_and!; auto.
    + intros ([Ht|Ht] & Ho & ->); rewrite ?Ht; repeat case_decide; try done;
        by destruct (objects action).
Qed.

(** ** The planner *)

(** X5. [reverse_dependencies[i]] holds the actions that list [i] in
    [depends_on], in input order and once for each time they list it, and
    [dependency_count], the key of the three sorts, gives every input action
    the length of that list for its identifier. *)
Theorem children_in_input_order actions i :
  default [] (build_reverse_dependencies actions !! i) = dependents actions i
  ∧ (∀ c, c ∈ dependents actions i ↔ c ∈ actions ∧ i ∈ depends_on c)
  ∧ ∀ a, a ∈ actions →
         priority (build_dependency_count (build_reverse_dependencies actions) actions) a
         = length (dependents actions (act_id a)).
Proof.
  split_and!.
  - apply build_reverse_dependencies_lookup.
  - intros c. apply elem_of_dependents.
  - intros a Ha. unfold priority.
    by rewrite build_dependency_count_lookup, build_reverse_dependencies_lookup.
Qed.

(** X6. The sorts of the planner put the actions in descending order of
    their key and keep the input order among actions of equal key: the
    sorted list is a permutation of the input, its keys never increase, and
    the actions of each key appear in it in their input order. *)
Theorem sort_is_descending_and_stable (key : Action → nat) (l : list Action) :
  sorted_desc key l ≡ₚ l
  ∧ descending key (sorted_desc key l)
  ∧ ∀ k, filter (λ a, key a = k) (sorted_desc key l) = filter (λ a, key a = k) l.
Proof.
  split_and!.
  - apply sorted_desc_Permutation.
  - apply sorted_desc_descending.
  - intros k. apply sorted_desc_stable.
Qed.



(** X8. In every result of [plan_parallel_actions] the stage numbers in
    use are exactly 1 to [max_stage], the range that
    [create_dag_visualization] prints: no stage number is below 1, none
    between 1 and the last is missing, every stage holds an assignment, and
    there are at most as many stages as actions. *)
Theorem stages_numbered_without_gaps fuel rh actions agents r rh' :
  plan_parallel_actions fuel rh actions agents = Done (r, rh') →
  (∀ s, is_Some (stages r !! s) ↔ 1 ≤ s ≤ max_stage r)
  ∧ (∀ s l, stages r !! s = Some l → l ≠ [])
  ∧ max_stage r ≤ Z.of_nat (length actions).
Proof.
  intros Hrun. pose proof (plan_contiguous _ _ _ _ _ _ Hrun) as Hc.
  split_and!.
  - intros s. by apply contiguous_range.
  - apply Hc.
  - by eapply plan_stage_count.
Qed.

Lemma stages_numbered_without_gaps_witness :
  plan_parallel_actions 4 ∅ Chair.actions Chair.agents = Done (Chair.result, Chair.handlers)
  ∧ max_stage Chair.result = 4
  ∧ ∀ s, is_Some (stages Chair.result !! s) ↔ 1 ≤ s ≤ 4.
Proof.
  assert (plan_parallel_actions 4 ∅ Chair.actions Chair.agents
          = Done (Chair.result, Chair.handlers)) as Hrun by by_evaluation.
  assert (max_stage Chair.result = 4) as Hmax by by_evaluation.
  split_and!; [done..|]. rewrite <-Hmax.
  apply (stages_numbered_without_gaps _ _ _ _ _ _ Hrun).
Defined.

(** X9. On an input with unique identifiers, every action that has
    dependencies is placed in a later stage than at least one of them (it
    can still be placed before another one). *)
Theorem stage_after_some_dependency fuel rh actions agents r rh' :
  unique_ids actions →
  plan_parallel_actions fuel rh actions agents = Done (r, rh') →
  ∀ a s,
    a ∈ actions → depends_on a ≠ [] → in_stage r s (act_id a) →
    ∃ dep s', dep ∈ depends_on a ∧ in_stage r s' dep ∧ s' < s.
Proof.
  intros Huniq (st & Hinv & Hord & Hst)%plan_ordered a s Ha Hdeps Hs; [|done].
  apply (in_stage_assigned _ _ _ _ _ _ Hinv Hst) in Hs.
  destruct (Hord a s Ha Hs) as [?|(dep & s' & ? & Hdep & ?)]; [done|].
  exists dep, s'. split_and!; [done| |done].
  by apply (in_stage_assigned _ _ _ _ _ _ Hinv Hst).
Qed.

Lemma stage_after_some_dependency_witness :
  unique_ids Inversion.actions
  ∧ plan_parallel_actions 4 ∅ Inversion.actions Inversion.agents
    = Done (Inversion.result, ∅)
  ∧ (∃ dep s', dep ∈ depends_on Inversion.x ∧ in_stage Inversion.result s' dep ∧ s' < 2)
  ∧ "Q" ∈ depends_on Inversion.x
  ∧ in_stage Inversion.result 2 "X"
  ∧ in_stage Inversion.result 3 "Q".
Proof.
  assert (unique_ids Inversion.actions) as Huniq.
  { apply (bool_decide_unpack _). by vm_compute. }
  assert (plan_parallel_actions 4 ∅ Inversion.actions Inversion.agents
          = Done (Inversion.result, ∅)) as Hrun by by_evaluation.
  assert (in_stage Inversion.result 2 "X") as HX.
  { exists (Chair.asg Inversion.x [Chair.B] 2). split; [|done].
    vm_compute. apply list_elem_of_further, list_elem_of_here. }
  assert (in_stage Inversion.result 3 "Q") as HQ.
  { exists (Chair.asg Inversion.q [Chair.A; Chair.B] 3). split; [|done].
    vm_compute. apply list_elem_of_here. }
  split_and!; [exact Huniq|exact Hrun| | |exact HX|exact HQ].
  - apply (stage_after_some_dependency _ _ _ _ _ _ Huniq Hrun Inversion.x 2);
      [|discriminate|exact HX].
    unfold Inversion.actions. do 4 apply list_elem_of_further. apply list_elem_of_here.
  - apply list_elem_of_here.
Defined.

(** X10. On an input with unique identifiers in which no action has more
    than one dependency, every action is placed in a later stage than its
    dependency. *)
Theorem single_dependency_order fuel rh actions agents r rh' :
  unique_ids actions →
  (∀ a, a ∈ actions → (length (depends_on a) ≤ 1)%nat) →
  plan_parallel_actions fuel rh actions agents = Done (r, rh') →
  stages_respect_dependencies actions r.
Proof.
  intros Huniq Hone (st & Hinv & Hord & Hst)%plan_ordered; [|done].
  intros a dep s s' Ha Hdep Hs Hs'.
  apply (in_stage_assigned _ _ _ _ _ _ Hinv Hst) in Hs, Hs'.
  specialize (Hone a Ha).
  destruct (depends_on a) as [|dep0 [|dep1 deps]] eqn:Hdeps; [|..|cbn in Hone; lia].
  { by apply not_elem_of_nil in Hdep. }
  apply list_elem_of_singleton in Hdep as ->.
  destruct (Hord a s Ha Hs) as [Hnil|(dep & s'' & Hin & Hdep & Hlt)].
  { by rewrite Hdeps in Hnil. }
  rewrite Hdeps in Hin. apply list_elem_of_singleton in Hin as ->. congruence.
Qed.

Lemma single_dependency_order_witness :
  unique_ids Line.actions
  ∧ (∀ a, a ∈ Line.actions → (length (depends_on a) ≤ 1)%nat)
  ∧ plan_parallel_actions 4 ∅ Line.actions Line.agents = Done (Line.result, ∅)
  ∧ stages_respect_dependencies Line.actions Line.result.
Proof.
  assert (unique_ids Line.actions) as Huniq.
  { apply (bool_decide_unpack _). by vm_compute. }
  assert (∀ a, a ∈ Line.actions → (length (depends_on a) ≤ 1)%nat) as Hone.
  { intros a Ha. unfold Line.actions in Ha.
    set_unfold. destruct_or!; subst; cbn; lia. }
  assert (plan_parallel_actions 4 ∅ Line.actions Line.agents = Done (Line.result, ∅))
    as Hrun by by_evaluation.
  split_and!; [done..|].
  exact (single_dependency_order _ _ _ _ _ _ Huniq Hone Hrun).
Defined.

(** X11. In every result of [plan_parallel_actions] the agents of an
    assignment are agents of the roster, also when [recent_handler] still
    names agents of an earlier call, and no agent is listed twice in an
    assignment if the roster lists none twice. *)
Theorem agents_come_from_roster fuel rh actions agents r rh' :
  plan_parallel_actions fuel rh actions agents = Done (r, rh') →
  ∀ s i asg,
    assignment_at r s i asg →
    assigned_agents asg ⊆ agents ∧ (NoDup agents → NoDup (assigned_agents asg)).
Proof.
  intros Hrun%plan_from_roster s i asg (l & Hl & Hi).
  apply (Hrun s l asg Hl). by eapply list_elem_of_lookup_2.
Qed.

Lemma agents_come_from_roster_witness :
  (Stale.former ∉ Chair.agents)
  ∧ plan_parallel_actions 4 Stale.handlers Chair.actions Chair.agents
    = Done (Chair.result, Chair.handlers)
  ∧ ∀ s i asg, assignment_at Chair.result s i asg → assigned_agents asg ⊆ Chair.agents.
Proof.
  assert (plan_parallel_actions 4 Stale.handlers Chair.actions Chair.agents
          = Done (Chair.result, Chair.handlers)) as Hrun by by_evaluation.
  split_and!; [|done|].
  - apply (bool_decide_unpack _). by vm_compute.
  - intros s i asg Hat.
    by destruct (agents_come_from_roster _ _ _ _ _ _ Hrun s i asg Hat).
Defined.

(** X12. The [action_dependencies] of a result map every identifier of the
    input to the [depends_on] list of the last action that bears it, and
    hold no other key; with unique identifiers, every action finds its own
    dependencies there. *)
Theorem result_lists_dependencies fuel rh actions agents r rh' :
  plan_parallel_actions fuel rh actions agents = Done (r, rh') →
  (∀ i, action_dependencies r !! i
        = depends_on <$> last (filter (λ a, act_id a = i) actions))
  ∧ (unique_ids actions →
     ∀ a, a ∈ actions → action_dependencies r !! act_id a = Some (depends_on a)).
Proof.
  intros (st & _ & _ & _ & -> & _)%plan_parallel_actions_Done.
  split; [apply build_action_dependencies_lookup|].
  intros Huniq a Ha. rewrite build_action_dependencies_lookup.
  assert (a ∈ filter (λ b, act_id b = act_id a) actions) as Hin
    by (by apply list_elem_of_filter).
  destruct (last (filter (λ b, act_id b = act_id a) actions)) as [b|] eqn:Hlast.
  - apply last_Some_elem_of, list_elem_of_filter in Hlast as [Hid Hb].
    cbn. f_equal. f_equal. by eapply unique_ids_inj.
  - apply last_None in Hlast. rewrite Hlast in Hin. by apply not_elem_of_nil in Hin.
Qed.

Lemma result_lists_dependencies_witness :
  plan_parallel_actions 4 ∅ Chair.actions Chair.agents = Done (Chair.result, Chair.handlers)
  ∧ action_dependencies Chair.result !! "8" = Some ["3"; "7"]
  ∧ action_dependencies Chair.result !! "12" = None.
Proof.
  assert (plan_parallel_actions 4 ∅ Chair.actions Chair.agents
          = Done (Chair.result, Chair.handlers)) as Hrun by by_evaluation.
  destruct (result_lists_dependencies _ _ _ _ _ _ Hrun) as [Hlookup _].
  split_and!; [done|rewrite Hlookup; by vm_compute..].
Defined.

(** ** The text of a plan *)


